(** * Page replacement policy evaluators (policies.cpp)

    A shallow embedding of the five evaluators [PRP_FIFO], [PRP_OPT],
    [PRP_RAND], [PRP_LRU] and [PRP_CLOCK], followed by the properties that
    the specification states about them.

    Conventions of the embedding.
    - A page is an [int]; pages are only compared, so they are modelled
      as [Z].  The capacity [memsize] is an [unsigned int], modelled as [N].
    - Container sizes, indices and the logical time are [nat]; the hit
      counter is a [Z].  Workloads are assumed shorter than [2^31], so that
      no counter of the source wraps around.
    - A call that throws, or whose behaviour C++ leaves undefined, yields
      [Fail]; everything else yields [Ok].
    - The iteration order of [std::unordered_set] and [std::unordered_map]
      and the random engine are fixed by the C++ library, not by the
      source; they are class parameters ([Hashing], [RandomEngine]). *)

From Equations Require Import Equations.
From Stdlib Require Import ZArith NArith Arith List Bool Lia Permutation Sorted.
Import ListNotations.

(* ===================================================================== *)
(** * Outcomes of a call *)
(* ===================================================================== *)

(** [out_of_range] is the exception of [vector::at] and
    [unordered_map::at]; [undefined_behaviour] stands for an unchecked
    access outside a container, a dereferenced [end()] iterator, a
    remainder by zero or a distribution built with an empty range. *)
Inductive fault : Type :=
| out_of_range
| undefined_behaviour.

Inductive outcome (A : Type) : Type :=
| Ok (a : A)
| Fail (f : fault).
Arguments Ok {A} a.
Arguments Fail {A} f.

Definition bind {A B : Type} (c : outcome A) (k : A -> outcome B) : outcome B :=
  match c with
  | Ok a => k a
  | Fail f => Fail f
  end.

Notation "x <- c ;; k" := (bind c (fun x => k))
  (at level 61, c at next level, right associativity).

Definition omap {A B : Type} (g : A -> B) (c : outcome A) : outcome B :=
  x <- c ;; Ok (g x).

(* ===================================================================== *)
(** * The C++ library, as far as the evaluators use it *)
(* ===================================================================== *)

(** Implicit conversion of an [int] argument to [unsigned int]. *)
Definition to_unsigned (c : Z) : N := Z.to_N (c mod 2 ^ 32)%Z.

(** [v.at(i) = x]: bounds-checked. *)
Definition vector_at_put {A : Type} (v : list A) (i : nat) (x : A) : outcome (list A) :=
  if i <? length v then Ok (firstn i v ++ x :: skipn (S i) v)
  else Fail out_of_range.

(** [v[i] = x]: unchecked. *)
Definition vector_put {A : Type} (v : list A) (i : nat) (x : A) : outcome (list A) :=
  if i <? length v then Ok (firstn i v ++ x :: skipn (S i) v)
  else Fail undefined_behaviour.

(** [a % n] on [size_type]. *)
Definition size_rem (a n : nat) : outcome nat :=
  if n =? 0 then Fail undefined_behaviour else Ok (a mod n).

(** An unordered container is the list of its elements in iteration
    order.  Where a new element lands in that order, and in which order a
    copy enumerates, is up to the library: any choice is allowed as long as
    the elements are the same.  Erasing keeps the order of the others. *)
Class Hashing : Type := {
  uinsert : forall A : Type, A -> list A -> list A;
  uinsert_perm : forall (A : Type) (x : A) (l : list A),
      Permutation (uinsert A x l) (x :: l);
  ucopy : forall A : Type, list A -> list A;
  ucopy_perm : forall (A : Type) (l : list A), Permutation (ucopy A l) l
}.
Arguments uinsert {_} [A] x l.
Arguments ucopy {_} [A] l.

(** [std::default_random_engine] and [uniform_int_distribution<int>]:
    [seed_engine s] is the engine after [seed(s)], and [uniform_int a b g]
    the value drawn from [[a, b]] together with the advanced engine. *)
Class RandomEngine : Type := {
  engine : Type;
  seed_engine : Z -> engine;
  uniform_int : Z -> Z -> engine -> Z * engine;
  uniform_int_range : forall (a b : Z) (g : engine),
      (a <= b)%Z -> (a <= fst (uniform_int a b g) <= b)%Z
}.

(** Two library instances used to run the evaluators on concrete inputs:
    new elements enumerated first, or last. *)
#[refine] Instance front_order : Hashing := {
  uinsert := fun A x l => x :: l;
  ucopy := fun A l => l
}.
Proof.
  - intros; apply Permutation_refl.
  - intros; apply Permutation_refl.
Defined.

#[refine] Instance back_order : Hashing := {
  uinsert := fun A x l => l ++ [x];
  ucopy := fun A l => l
}.
Proof.
  - intros A x l. apply Permutation_sym, Permutation_cons_append.
  - intros; apply Permutation_refl.
Defined.

(** [std::default_random_engine] of libstdc++ is [minstd_rand0], the
    linear congruential engine with multiplier 16807, increment 0 and
    modulus [2^31 - 1]; its values lie between 1 and [2^31 - 2].  [seed(s)]
    stores [s mod (2^31 - 1)], or 1 when that is 0; clock readings are not
    negative. *)
Definition minstd_modulus : Z := 2147483647%Z.

Definition minstd_next (x : Z) : Z := ((16807 * x) mod minstd_modulus)%Z.

Definition minstd_seed (s : Z) : Z :=
  let x := (s mod minstd_modulus)%Z in if (x =? 0)%Z then 1%Z else x.

(** [urng.max() - urng.min()]. *)
Definition minstd_range : Z := 2147483645%Z.

(** The loop [do ret = urng() - urng.min(); while (ret >= past);] of
    libstdc++'s [uniform_int_distribution], with at most [fuel] further
    rounds after the first. *)
Fixpoint minstd_retry (fuel : nat) (past x : Z) : Z * Z :=
  let x' := minstd_next x in
  match fuel with
  | O => ((x' - 1)%Z, x')
  | S fuel' =>
      if (x' - 1 <? past)%Z then ((x' - 1)%Z, x')
      else minstd_retry fuel' past x'
  end.

(** [uniform_int_distribution<int>(a, b)(engine)] of libstdc++ on a range
    narrower than the engine's: the engine's value is scaled down by a
    division, and values at or above [past] are drawn again.  One further
    round is enough for ranges of at most 16805 values (lemma
    [minstd_draw_is_loop]); the bounds [Z.max] and [Z.min] only act outside
    of that, and on engine values that [minstd_seed] and [minstd_next] never
    produce.  Ranges as wide as the engine's are not modelled. *)
Definition minstd_draw (a b x : Z) : Z * Z :=
  let urange := (b - a)%Z in
  if ((urange <? 0) || (minstd_range <=? urange))%Z then (a, minstd_next x)
  else
    let uerange := (urange + 1)%Z in
    let scaling := (minstd_range / uerange)%Z in
    let past := (uerange * scaling)%Z in
    let (ret, x') := minstd_retry 1 past x in
    ((a + Z.max 0 (Z.min ret (past - 1)) / scaling)%Z, x').

(** The loop of the distribution as it is written, without a bound on
    its rounds: from engine value [x] it ends with the pair of the accepted
    value and the engine value then. *)
Inductive minstd_loop (past : Z) : Z -> Z * Z -> Prop :=
| minstd_loop_done (x : Z) :
    (minstd_next x - 1 < past)%Z ->
    minstd_loop past x ((minstd_next x - 1)%Z, minstd_next x)
| minstd_loop_again (x : Z) (r : Z * Z) :
    (past <= minstd_next x - 1)%Z ->
    minstd_loop past (minstd_next x) r ->
    minstd_loop past x r.

#[refine] Instance minstd_rand0 : RandomEngine := {
  engine := Z;
  seed_engine := minstd_seed;
  uniform_int := minstd_draw
}.
Proof.
  intros a b g Hab. unfold minstd_draw.
  destruct ((b - a <? 0) || (minstd_range <=? b - a))%Z eqn:Hwide;
    [simpl; lia|].
  apply orb_false_iff in Hwide as (Hneg & Hwide).
  apply Z.ltb_ge in Hneg. apply Z.leb_gt in Hwide.
  destruct (minstd_retry 1 ((b - a + 1) * (minstd_range / (b - a + 1))) g)
    as [ret x']. cbn [fst].
  assert (Hscale : (1 <= minstd_range / (b - a + 1))%Z).
  { apply Z.div_le_lower_bound; lia. }
  set (scaling := (minstd_range / (b - a + 1))%Z) in *.
  set (v := Z.max 0 (Z.min ret ((b - a + 1) * scaling - 1))).
  assert (Hv : (0 <= v < (b - a + 1) * scaling)%Z) by (unfold v; nia).
  assert (Hq : (0 <= v / scaling < b - a + 1)%Z).
  { split; [apply Z.div_pos; lia|].
    apply Z.div_lt_upper_bound; [lia|]. nia. }
  lia.
Defined.

(* ===================================================================== *)
(** * The access loop *)
(* ===================================================================== *)

Section Loop.
Context {St : Type}.
(** [step st a later]: one iteration of the loop over the workload, on
    the access [a = workload[i]], where [later] is [workload[i+1..]]. *)
Variable step : St -> Z -> list Z -> outcome St.

(** The first [n] iterations of the loop over [w]. *)
Fixpoint run_for (n : nat) (st : St) (w : list Z) : outcome St :=
  match n, w with
  | S n', a :: later => st' <- step st a later ;; run_for n' st' later
  | _, _ => Ok st
  end.

Definition run (st : St) (w : list Z) : outcome St :=
  run_for (length w) st w.
End Loop.

Definition INVALID_PAGE : Z := (-1)%Z.

(* ===================================================================== *)
(** * PRP_FIFO *)
(* ===================================================================== *)

Module Fifo.
Record state : Type := mk {
  cachedPages : list Z;
  cachedPagesHead : nat;
  hits : Z
}.

Definition init (memsize : N) : state :=
  mk (repeat INVALID_PAGE (N.to_nat memsize)) 0 0.

Definition access (st : state) (a : Z) (_ : list Z) : outcome state :=
  if 0 <? count_occ Z.eq_dec (cachedPages st) a then
    Ok (mk (cachedPages st) (cachedPagesHead st) (hits st + 1))
  else
    v <- vector_at_put (cachedPages st) (cachedPagesHead st) a ;;
    h <- size_rem (cachedPagesHead st + 1) (length v) ;;
    Ok (mk v h (hits st)).

(** Slots that hold a page. *)
Definition resident (st : state) : nat :=
  length (filter (fun p => negb (p =? INVALID_PAGE)%Z) (cachedPages st)).
End Fifo.

Definition PRP_FIFO (workload : list Z) (memsize : N) : outcome Z :=
  omap Fifo.hits (run Fifo.access (Fifo.init memsize) workload).

(* ===================================================================== *)
(** * PRP_OPT *)
(* ===================================================================== *)

Module Opt.
Section WithLibrary.
Context {H : Hashing}.

Record state : Type := mk {
  pages_in_mem : list Z;
  hits : Z
}.

Definition init : state := mk [] 0.

Definition uset_count (x : Z) (s : list Z) : nat := count_occ Z.eq_dec s x.
Definition uset_insert (x : Z) (s : list Z) : list Z :=
  if uset_count x s =? 0 then uinsert x s else s.
Definition uset_erase (x : Z) (s : list Z) : list Z := remove Z.eq_dec x s.

(** The value of [workload[j] > 0] as an [int]. *)
Definition positive_flag (x : Z) : Z := if (0 <? x)%Z then 1%Z else 0%Z.

(** The scan [for (; j < workload.size() && candidates.size() > 1; j++)]
    over [ahead = workload[j..]].  The test of the source is
    [candidates.count(workload[j] > 0)]. *)
Fixpoint narrow (cands : list Z) (ahead : list Z) : list Z :=
  match ahead with
  | [] => cands
  | wj :: ahead' =>
      if 1 <? length cands then
        narrow (if 0 <? uset_count (positive_flag wj) cands
                then uset_erase wj cands else cands) ahead'
      else cands
  end.

(** [*(candidates.begin())]. *)
Definition uset_first (s : list Z) : outcome Z :=
  match s with
  | [] => Fail undefined_behaviour
  | x :: _ => Ok x
  end.

Definition access (memsize : N) (st : state) (a : Z) (later : list Z)
  : outcome state :=
  if 0 <? uset_count a (pages_in_mem st) then
    Ok (mk (pages_in_mem st) (hits st + 1))
  else if (N.of_nat (length (pages_in_mem st)) <? memsize)%N then
    Ok (mk (uset_insert a (pages_in_mem st)) (hits st))
  else
    victim <- uset_first (narrow (ucopy (pages_in_mem st)) (a :: later)) ;;
    Ok (mk (uset_insert a (uset_erase victim (pages_in_mem st))) (hits st)).

Definition resident (st : state) : nat := length (pages_in_mem st).

Definition PRP_OPT (workload : list Z) (memsize : N) : outcome Z :=
  omap hits (run (access memsize) init workload).
End WithLibrary.
End Opt.
Export Opt (PRP_OPT).

(* ===================================================================== *)
(** * PRP_RAND *)
(* ===================================================================== *)

Module Rand.
Section WithLibrary.
Context {E : RandomEngine}.

Record state : Type := mk {
  pages_in_mem : list Z;
  random_engine : engine;
  hits : Z
}.

(** [now] is the value of [std::time(NULL)] at the call. *)
Definition init (now : Z) : state := mk [] (seed_engine now) 0.

Definition found (a : Z) (pages : list Z) : bool := existsb (Z.eqb a) pages.

Definition access (memsize : N) (st : state) (a : Z) (_ : list Z)
  : outcome state :=
  if found a (pages_in_mem st) then
    Ok (mk (pages_in_mem st) (random_engine st) (hits st + 1))
  else if (N.of_nat (length (pages_in_mem st)) <? memsize)%N then
    Ok (mk (pages_in_mem st ++ [a]) (random_engine st) (hits st))
  else
    let hi := (Z.of_nat (length (pages_in_mem st)) - 1)%Z in
    if (hi <? 0)%Z then Fail undefined_behaviour
    else
      let (index, g) := uniform_int 0 hi (random_engine st) in
      if (index <? 0)%Z then Fail undefined_behaviour
      else
        v <- vector_put (pages_in_mem st) (Z.to_nat index) a ;;
        Ok (mk v g (hits st)).

Definition resident (st : state) : nat := length (pages_in_mem st).

Definition PRP_RAND (now : Z) (workload : list Z) (memsize : N) : outcome Z :=
  omap hits (run (access memsize) (init now) workload).
End WithLibrary.
End Rand.
Export Rand (PRP_RAND).

(* ===================================================================== *)
(** * PRP_LRU *)
(* ===================================================================== *)

Module Lru.
Section WithLibrary.
Context {H : Hashing}.

(** An entry is [(page, time of last access)]. *)
Definition entry : Type := (Z * nat)%type.

Record state : Type := mk {
  cache : list entry;
  time : nat;
  hits : Z
}.

Definition init : state := mk [] 0 0.

Definition umap_count (k : Z) (m : list entry) : nat :=
  count_occ Z.eq_dec (map fst m) k.

Definition umap_emplace (k : Z) (v : nat) (m : list entry) : list entry :=
  if umap_count k m =? 0 then uinsert (k, v) m else m.

(** [m.at(k) = v]. *)
Definition umap_at_put (k : Z) (v : nat) (m : list entry) : outcome (list entry) :=
  if umap_count k m =? 0 then Fail out_of_range
  else Ok (map (fun e => if (fst e =? k)%Z then (k, v) else e) m).

(** The inner [for] loop: [oldest] is the position of [oldestEntry],
    [stamp] its time, [i] the position of [iter]. *)
Fixpoint scan_oldest (oldest stamp i : nat) (rest : list entry) : nat :=
  match rest with
  | [] => oldest
  | e :: rest' =>
      if snd e <? stamp then scan_oldest i (snd e) (S i) rest'
      else scan_oldest oldest stamp (S i) rest'
  end.

Definition oldestEntry (m : list entry) : nat :=
  match m with
  | [] => 0
  | e :: rest => scan_oldest 0 (snd e) 1 rest
  end.

(** [m.erase(it)] for the iterator at position [i]. *)
Definition erase_at (i : nat) (m : list entry) : list entry :=
  firstn i m ++ skipn (S i) m.

(** [oldestEntry] stays inside the cache. *)
Lemma scan_oldest_bound (rest : list entry) :
  forall oldest stamp i,
    oldest < i -> scan_oldest oldest stamp i rest < i + length rest.
Proof.
  induction rest as [|e rest IH]; intros oldest stamp i Hlt; simpl.
  - lia.
  - destruct (snd e <? stamp).
    + specialize (IH i (snd e) (S i)). lia.
    + specialize (IH oldest stamp (S i)). lia.
Qed.

(** [while (cache.size() > memsize) { ... cache.erase(oldestEntry); }]
    The clause for an empty cache is never reached, a size of 0 being above
    no capacity; each iteration erases one entry, which is what ends the
    loop. *)
Equations? evict (memsize : N) (m : list entry) : list entry
  by wf (length m) lt :=
  evict memsize m with (memsize <? N.of_nat (length m))%N => {
    | true with m => {
        | [] := [];
        | e :: rest := evict memsize (erase_at (oldestEntry (e :: rest)) (e :: rest)) };
    | false := m }.
Proof.
  unfold erase_at. rewrite length_app, length_firstn, length_skipn.
  simpl length.
  pose proof (scan_oldest_bound rest 0 (snd e) 1). lia.
Qed.

Definition access (memsize : N) (st : state) (a : Z) (_ : list Z)
  : outcome state :=
  if umap_count a (cache st) =? 0 then
    Ok (mk (evict memsize (umap_emplace a (time st) (cache st)))
           (S (time st)) (hits st))
  else
    m <- umap_at_put a (time st) (cache st) ;;
    Ok (mk m (S (time st)) (hits st + 1)).

Definition resident (st : state) : nat := length (cache st).

Definition PRP_LRU (workload : list Z) (memsize : N) : outcome Z :=
  omap hits (run (access memsize) init workload).
End WithLibrary.
End Lru.
Export Lru (PRP_LRU).

(* ===================================================================== *)
(** * PRP_CLOCK *)
(* ===================================================================== *)

Module Clock.
(** [ClockEntry]: first the page, second the use bit. *)
Definition ClockEntry : Type := (Z * bool)%type.

Record state : Type := mk {
  cache : list ClockEntry;
  hits : Z
}.

Definition init : state := mk [] 0.

(** [std::find_if]: position of the first entry of page [a], the size
    of the cache when there is none. *)
Fixpoint find_if (a : Z) (c : list ClockEntry) : nat :=
  match c with
  | [] => 0
  | e :: c' => if (fst e =? a)%Z then 0 else S (find_if a c')
  end.

Fixpoint set_use (i : nat) (c : list ClockEntry) : list ClockEntry :=
  match c, i with
  | [], _ => []
  | e :: c', 0 => (fst e, true) :: c'
  | e :: c', S i' => e :: set_use i' c'
  end.

(** The sweep [for (; clockHand != cache.end(); clockHand++)]: the
    position where [clockHand] stops and the cache with the use bits it
    cleared on the way. *)
Fixpoint sweep (c : list ClockEntry) : nat * list ClockEntry :=
  match c with
  | [] => (0, [])
  | e :: c' =>
      if snd e then
        let (k, r) := sweep c' in (S k, (fst e, false) :: r)
      else (0, c)
  end.

(** [clockHand->first = a; clockHand->second = true]. *)
Definition replace_at (i : nat) (a : Z) (c : list ClockEntry)
  : outcome (list ClockEntry) :=
  if i <? length c then Ok (firstn i c ++ (a, true) :: skipn (S i) c)
  else Fail undefined_behaviour.

Definition access (memsize : N) (st : state) (a : Z) (_ : list Z)
  : outcome state :=
  let iter := find_if a (cache st) in
  if negb (iter =? length (cache st)) then
    Ok (mk (set_use iter (cache st)) (hits st + 1))
  else if (N.of_nat (length (cache st)) <? memsize)%N then
    Ok (mk (cache st ++ [(a, true)]) (hits st))
  else
    let (hand, swept) := sweep (cache st) in
    let clockHand := if hand =? length swept then 0 else hand in
    c <- replace_at clockHand a swept ;;
    Ok (mk c (hits st)).

Definition resident (st : state) : nat := length (cache st).
End Clock.

Definition PRP_CLOCK (workload : list Z) (memsize : N) : outcome Z :=
  omap Clock.hits (run (Clock.access memsize) Clock.init workload).

(* ===================================================================== *)
(** * The five evaluators under one name *)
(* ===================================================================== *)

Inductive policy : Type := FIFO | OPT | RAND | LRU | CLOCK.

Section Evaluate.
Context {H : Hashing} {E : RandomEngine}.

(** One call of the evaluator of policy [p]; [now] is the reading of the
    wall clock at the call (only [PRP_RAND] looks at it). *)
Definition evaluate (p : policy) (now : Z) (workload : list Z) (memsize : N)
  : outcome Z :=
  match p with
  | FIFO => PRP_FIFO workload memsize
  | OPT => PRP_OPT workload memsize
  | RAND => PRP_RAND now workload memsize
  | LRU => PRP_LRU workload memsize
  | CLOCK => PRP_CLOCK workload memsize
  end.

(** The same call written with an [int] argument for the capacity. *)
Definition evaluate_int (p : policy) (now : Z) (workload : list Z) (c : Z)
  : outcome Z :=
  evaluate p now workload (to_unsigned c).

(** Value of the hit counter once the first [n] accesses are processed. *)
Definition hits_after (p : policy) (now : Z) (workload : list Z) (memsize : N)
    (n : nat) : outcome Z :=
  match p with
  | FIFO => omap Fifo.hits (run_for Fifo.access n (Fifo.init memsize) workload)
  | OPT => omap Opt.hits (run_for (Opt.access memsize) n Opt.init workload)
  | RAND => omap Rand.hits (run_for (Rand.access memsize) n (Rand.init now) workload)
  | LRU => omap Lru.hits (run_for (Lru.access memsize) n Lru.init workload)
  | CLOCK => omap Clock.hits (run_for (Clock.access memsize) n Clock.init workload)
  end.

(** Number of resident pages once the first [n] accesses are processed. *)
Definition resident_after (p : policy) (now : Z) (workload : list Z)
    (memsize : N) (n : nat) : outcome nat :=
  match p with
  | FIFO => omap Fifo.resident (run_for Fifo.access n (Fifo.init memsize) workload)
  | OPT => omap Opt.resident (run_for (Opt.access memsize) n Opt.init workload)
  | RAND => omap Rand.resident (run_for (Rand.access memsize) n (Rand.init now) workload)
  | LRU => omap Lru.resident (run_for (Lru.access memsize) n Lru.init workload)
  | CLOCK => omap Clock.resident (run_for (Clock.access memsize) n Clock.init workload)
  end.
End Evaluate.

(** Number of distinct pages of a workload. *)
Definition distinct (w : list Z) : nat := length (nodup Z.eq_dec w).

(* ===================================================================== *)
(** * The specification's algorithms, for comparison *)
(* ===================================================================== *)

(** The Clock evaluator as the specification words it (section 4.5): the
    hand is part of the state and survives from one miss to the next. *)
Module ClockSpec.
Record state : Type := mk {
  entries : list (Z * bool);
  hand : nat;
  hits : Z
}.

Definition init : state := mk [] 0 0.

Definition use_bit (i : nat) (c : list (Z * bool)) : bool :=
  match nth_error c i with
  | Some e => snd e
  | None => false
  end.

Fixpoint put (i : nat) (e : Z * bool) (c : list (Z * bool)) : list (Z * bool) :=
  match c, i with
  | [], _ => []
  | _ :: c', 0 => e :: c'
  | x :: c', S i' => x :: put i' e c'
  end.

Definition clear (i : nat) (c : list (Z * bool)) : list (Z * bool) :=
  match nth_error c i with
  | Some e => put i (fst e, false) c
  | None => c
  end.

(** While the entry at the hand has its use bit set, clear it and
    advance circularly; after [fuel] entries the hand is back where it
    started, which is the fallback. *)
Fixpoint sweep (fuel : nat) (h : nat) (c : list (Z * bool))
  : nat * list (Z * bool) :=
  match fuel with
  | 0 => (h, c)
  | S fuel' =>
      if use_bit h c then sweep fuel' (S h mod length c) (clear h c)
      else (h, c)
  end.

Definition access (capacity : N) (st : state) (a : Z) (_ : list Z)
  : outcome state :=
  let i := Clock.find_if a (entries st) in
  if negb (i =? length (entries st)) then
    Ok (mk (Clock.set_use i (entries st)) (hand st) (hits st + 1))
  else if (N.of_nat (length (entries st)) <? capacity)%N then
    Ok (mk (entries st ++ [(a, true)]) (hand st) (hits st))
  else if (capacity =? 0)%N then Ok st
  else
    let (victim, c) := sweep (length (entries st)) (hand st) (entries st) in
    Ok (mk (put victim (a, true) c) (S victim mod length c) (hits st)).

Definition evaluate (workload : list Z) (capacity : N) : outcome Z :=
  omap hits (run (access capacity) init workload).
End ClockSpec.

(** The Optimal evaluator as the specification words it (section 4.2):
    the victim is the resident page whose next occurrence after the
    current access is furthest or absent, the lowest page among ties. *)
Module BeladySpec.
Record state : Type := mk {
  resident : list Z;
  hits : Z
}.

Definition init : state := mk [] 0.

(** Index in [later] of the next occurrence of [p]; [None] is never. *)
Fixpoint next_use (p : Z) (later : list Z) : option nat :=
  match later with
  | [] => None
  | x :: later' =>
      if (x =? p)%Z then Some 0 else option_map S (next_use p later')
  end.

Definition further (x y : option nat) : bool :=
  match x, y with
  | None, Some _ => true
  | Some i, Some j => j <? i
  | _, None => false
  end.

Definition same (x y : option nat) : bool :=
  match x, y with
  | None, None => true
  | Some i, Some j => i =? j
  | _, _ => false
  end.

(** [q] is a better victim than [p]. *)
Definition better (later : list Z) (q p : Z) : bool :=
  further (next_use q later) (next_use p later)
  || (same (next_use q later) (next_use p later) && (q <? p)%Z).

Definition victim (later : list Z) (p : Z) (others : list Z) : Z :=
  fold_left (fun best q => if better later q best then q else best) others p.

Definition access (capacity : N) (st : state) (a : Z) (later : list Z)
  : outcome state :=
  if existsb (Z.eqb a) (resident st) then
    Ok (mk (resident st) (hits st + 1))
  else if (N.of_nat (length (resident st)) <? capacity)%N then
    Ok (mk (a :: resident st) (hits st))
  else
    match resident st with
    | [] => Ok st
    | p :: others =>
        let v := victim later p others in
        Ok (mk (a :: remove Z.eq_dec v (resident st)) (hits st))
    end.

Definition evaluate (workload : list Z) (capacity : N) : outcome Z :=
  omap hits (run (access capacity) init workload).
End BeladySpec.

(* ===================================================================== *)
(** * Reference counts, to state what the evaluators compute *)
(* ===================================================================== *)

(** The pages in order of their last use, most recent first, after one
    more use of [a]. *)
Definition mru_touch (a : Z) (l : list Z) : list Z := a :: remove Z.eq_dec a l.

(** Hits of a workload when an access hits exactly if its page is among
    the [c] most recently used pages; [l] lists the pages used so far, most
    recent first. *)
Fixpoint stack_hits (c : nat) (l : list Z) (w : list Z) : Z :=
  match w with
  | [] => 0%Z
  | a :: w' =>
      ((if in_dec Z.eq_dec a (firstn c l) then 1 else 0)
       + stack_hits c (mru_touch a l) w')%Z
  end.

(** Hits of a workload on a queue of at most [c] pages: a page that is
    not queued joins at the back, and when the queue is full the page at the
    front leaves. *)
Fixpoint queue_hits (c : nat) (q : list Z) (w : list Z) : Z :=
  match w with
  | [] => 0%Z
  | a :: w' =>
      if in_dec Z.eq_dec a q then (1 + queue_hits c q w')%Z
      else queue_hits c (if length q <? c then q ++ [a] else tl q ++ [a]) w'
  end.

(** Number of accesses, after the first, to the page of the access just
    before; [prev] is that page, if any. *)
Fixpoint repeats_after (prev : option Z) (w : list Z) : Z :=
  match w with
  | [] => 0%Z
  | a :: w' =>
      ((match prev with
        | Some x => if (x =? a)%Z then 1 else 0
        | None => 0
        end) + repeats_after (Some a) w')%Z
  end.

Definition adjacent_repeats (w : list Z) : Z := repeats_after None w.

Section ResidentPages.
Context {H : Hashing} {E : RandomEngine}.

(** The resident pages once the first [n] accesses are processed; for
    [PRP_FIFO], the pages of the slots that are not empty. *)
Definition pages_after (p : policy) (now : Z) (workload : list Z)
    (memsize : N) (n : nat) : outcome (list Z) :=
  match p with
  | FIFO =>
      omap (fun st => filter (fun x => negb (x =? INVALID_PAGE)%Z)
                        (Fifo.cachedPages st))
           (run_for Fifo.access n (Fifo.init memsize) workload)
  | OPT => omap Opt.pages_in_mem (run_for (Opt.access memsize) n Opt.init workload)
  | RAND =>
      omap Rand.pages_in_mem
           (run_for (Rand.access memsize) n (Rand.init now) workload)
  | LRU =>
      omap (fun st => map fst (Lru.cache st))
           (run_for (Lru.access memsize) n Lru.init workload)
  | CLOCK =>
      omap (fun st => map fst (Clock.cache st))
           (run_for (Clock.access memsize) n Clock.init workload)
  end.
End ResidentPages.

(* ===================================================================== *)
(** * Facts about the access loop *)
(* ===================================================================== *)

Lemma bind_Ok {A B : Type} (c : outcome A) (k : A -> outcome B) (b : B) :
  bind c k = Ok b -> exists a, c = Ok a /\ k a = Ok b.
Proof. destruct c as [a|f]; simpl; intros Hb; [eauto | discriminate]. Qed.

Lemma omap_Ok {A B : Type} (g : A -> B) (c : outcome A) (b : B) :
  omap g c = Ok b -> exists a, c = Ok a /\ b = g a.
Proof.
  unfold omap. intros Hb. apply bind_Ok in Hb as (a & Ha & Hk).
  exists a. split; [assumption | congruence].
Qed.

Section LoopFacts.
Context {St : Type}.
Variable step : St -> Z -> list Z -> outcome St.

Lemma run_for_all (w : list Z) :
  forall n st, length w <= n -> run_for step n st w = run step st w.
Proof.
  unfold run. induction w as [|a w IH]; intros n st Hn.
  - destruct n; reflexivity.
  - destruct n as [|n]; simpl in Hn; [lia|]. simpl.
    destruct (step st a w) as [st'|f]; simpl; [|reflexivity].
    apply IH. lia.
Qed.


(** When every step from a state in [P] succeeds and stays in [P], so
    does the loop. *)
Lemma run_for_total (P : St -> Prop) :
  (forall st a later, P st -> exists st', step st a later = Ok st' /\ P st') ->
  forall n w st, P st -> exists st', run_for step n st w = Ok st' /\ P st'.
Proof.
  intros Hstep. induction n as [|n IH]; intros w st HP.
  - exists st. split; [reflexivity | assumption].
  - destruct w as [|a later]; simpl; [eauto|].
    destruct (Hstep st a later HP) as (st1 & H1 & HP1).
    rewrite H1. simpl. apply IH. assumption.
Qed.

(** A counter that a step raises by at most one is raised by at most the
    number of iterations. *)
Lemma run_for_counter (h : St -> Z) :
  (forall st a later st', step st a later = Ok st' ->
      (h st <= h st' <= h st + 1)%Z) ->
  forall n w st st', run_for step n st w = Ok st' ->
    (h st <= h st' <= h st + Z.of_nat (Nat.min n (length w)))%Z.
Proof.
  intros Hstep. induction n as [|n IH]; intros w st st' Hrun.
  - simpl in Hrun. injection Hrun as <-. simpl. lia.
  - destruct w as [|a later]; simpl in Hrun.
    + injection Hrun as <-. simpl. lia.
    + apply bind_Ok in Hrun as (st1 & H1 & Hrun).
      apply Hstep in H1. apply IH in Hrun. simpl length.
      rewrite <- Nat.succ_min_distr. lia.
Qed.

(** An invariant indexed by the accesses processed so far. *)
Lemma run_for_indexed (P : list Z -> St -> Prop) (w : list Z) :
  (forall seen a later st, w = seen ++ a :: later -> P seen st ->
      exists st', step st a later = Ok st' /\ P (seen ++ [a]) st') ->
  forall n later seen st, w = seen ++ later -> P seen st ->
    exists st', run_for step n st later = Ok st'
                /\ P (seen ++ firstn n later) st'.
Proof.
  intros Hstep. induction n as [|n IH]; intros later seen st Hw HP.
  - exists st. simpl. rewrite app_nil_r. split; [reflexivity | assumption].
  - destruct later as [|a later]; simpl.
    + exists st. rewrite app_nil_r. split; [reflexivity | assumption].
    + destruct (Hstep seen a later st Hw HP) as (st1 & H1 & HP1).
      rewrite H1. simpl.
      destruct (IH later (seen ++ [a]) st1) as (st' & Hrun & HP');
        [rewrite <- app_assoc; exact Hw | exact HP1 |].
      exists st'. split; [exact Hrun|].
      rewrite <- app_assoc in HP'. exact HP'.
Qed.
End LoopFacts.

(* ===================================================================== *)
(** * Resident sets when there is no pressure *)
(* ===================================================================== *)

(** [R] lists, without repetition, the pages of [seen], and [h] counts the
    accesses of [seen] that were not the first one of their page. *)
Definition represents (R : list Z) (h : Z) (seen : list Z) : Prop :=
  NoDup R /\ (forall x, In x R <-> In x seen)
  /\ h = (Z.of_nat (length seen) - Z.of_nat (length R))%Z.

Lemma represents_nil : represents [] 0 [].
Proof. repeat split; simpl; try tauto. constructor. Qed.

Lemma represents_hit R h seen a :
  represents R h seen -> In a R -> represents R (h + 1) (seen ++ [a]).
Proof.
  intros (Hnd & Hin & Hh) Ha. repeat split; [assumption | | |].
  - intros Hx. apply in_or_app. left. apply Hin, Hx.
  - intros Hx. apply in_app_or in Hx as [Hx|[<-|[]]]; [apply Hin, Hx | exact Ha].
  - rewrite length_app. simpl. lia.
Qed.

Lemma represents_miss R R' h seen a :
  represents R h seen -> ~ In a R -> Permutation R' (a :: R) ->
  represents R' h (seen ++ [a]).
Proof.
  intros (Hnd & Hin & Hh) Ha HP. repeat split.
  - apply Permutation_NoDup with (a :: R); [symmetry; exact HP|].
    constructor; assumption.
  - intros Hx. apply (Permutation_in _ HP) in Hx as [<-|Hx].
    + apply in_or_app. right. left. reflexivity.
    + apply in_or_app. left. apply Hin, Hx.
  - intros Hx. apply (Permutation_in _ (Permutation_sym HP)).
    apply in_app_or in Hx as [Hx|[<-|[]]]; [right; apply Hin, Hx | left; reflexivity].
  - rewrite (Permutation_length HP), length_app. simpl. lia.
Qed.

Lemma represents_length R h seen :
  represents R h seen -> length R = distinct seen.
Proof.
  intros (Hnd & Hin & _). unfold distinct. apply Permutation_length.
  apply NoDup_Permutation; [assumption | apply NoDup_nodup |].
  intros x. rewrite nodup_In. apply Hin.
Qed.

(** A page that is not resident finds room as long as the capacity covers
    the distinct pages of the whole workload. *)
Lemma represents_room R h seen a later memsize :
  represents R h seen -> ~ In a R ->
  (N.of_nat (distinct (seen ++ a :: later)) <= memsize)%N ->
  (N.of_nat (length R) < memsize)%N.
Proof.
  intros (Hnd & Hin & _) Ha Hcap.
  assert (Hle : length (a :: R) <= distinct (seen ++ a :: later)).
  { unfold distinct. apply NoDup_incl_length; [constructor; assumption|].
    intros x [<-|Hx]; apply nodup_In, in_or_app.
    - right. left. reflexivity.
    - left. apply Hin, Hx. }
  simpl in Hle. lia.
Qed.

Lemma represents_hits R h w :
  represents R h w -> h = (Z.of_nat (length w) - Z.of_nat (distinct w))%Z.
Proof.
  intros HR. rewrite <- (represents_length _ _ _ HR). apply HR.
Qed.

Lemma firstn_snoc (seen : list Z) (a : Z) (later : list Z) :
  firstn (S (length seen)) (seen ++ a :: later) = seen ++ [a].
Proof.
  replace (S (length seen)) with (length seen + 1) by lia.
  rewrite firstn_app_2. reflexivity.
Qed.

Lemma firstn_prefix_gen {A : Type} (seen later : list A) :
  firstn (length seen) (seen ++ later) = seen.
Proof.
  rewrite <- (Nat.add_0_r (length seen)), firstn_app_2. simpl. apply app_nil_r.
Qed.

Lemma firstn_prefix (seen later : list Z) :
  firstn (length seen) (seen ++ later) = seen.
Proof.
  rewrite <- (Nat.add_0_r (length seen)), firstn_app_2. simpl. apply app_nil_r.
Qed.

Lemma distinct_snoc (seen : list Z) (a : Z) :
  distinct (seen ++ [a])
  = if in_dec Z.eq_dec a seen then distinct seen else S (distinct seen).
Proof.
  unfold distinct. destruct (in_dec Z.eq_dec a seen) as [Hin|Hnin].
  - apply Permutation_length, NoDup_Permutation; try apply NoDup_nodup.
    intros x. rewrite !nodup_In, in_app_iff. simpl.
    split; [intros [Hx|[<-|[]]]; assumption | tauto].
  - change (S (length (nodup Z.eq_dec seen)))
      with (length (a :: nodup Z.eq_dec seen)).
    apply Permutation_length, NoDup_Permutation.
    + apply NoDup_nodup.
    + constructor; [rewrite nodup_In; exact Hnin | apply NoDup_nodup].
    + intros x. simpl. rewrite !nodup_In, in_app_iff. simpl. tauto.
Qed.

Lemma put_length {A : Type} (v : list A) (i : nat) (x : A) :
  i < length v -> length (firstn i v ++ x :: skipn (S i) v) = length v.
Proof.
  intros Hi. rewrite length_app, length_firstn. cbn [length].
  rewrite length_skipn. lia.
Qed.

Lemma put_at_end {A : Type} (l r : list A) (x y : A) :
  firstn (length l) (l ++ y :: r) ++ x :: skipn (S (length l)) (l ++ y :: r)
  = (l ++ [x]) ++ r.
Proof.
  rewrite firstn_prefix_gen. rewrite <- app_assoc. cbn [app]. do 2 f_equal.
  induction l as [|z l IH]; [reflexivity | exact IH].
Qed.

(* ===================================================================== *)
(** * PRP_FIFO: invariants *)
(* ===================================================================== *)

(** The slot array keeps its size, and the head stays inside it. *)
Definition fifo_inv (memsize : N) (st : Fifo.state) : Prop :=
  length (Fifo.cachedPages st) = N.to_nat memsize
  /\ (Fifo.cachedPagesHead st < N.to_nat memsize \/ memsize = 0%N).

Lemma fifo_inv_init memsize : fifo_inv memsize (Fifo.init memsize).
Proof.
  unfold fifo_inv, Fifo.init. simpl. rewrite repeat_length. split; lia.
Qed.

Lemma fifo_access_inv memsize st a later st' :
  fifo_inv memsize st -> Fifo.access st a later = Ok st' -> fifo_inv memsize st'.
Proof.
  intros (Hlen & Hhead). unfold Fifo.access.
  destruct (0 <? count_occ Z.eq_dec (Fifo.cachedPages st) a).
  - intros [= <-]. split; assumption.
  - unfold vector_at_put, size_rem.
    destruct (Nat.ltb_spec (Fifo.cachedPagesHead st) (length (Fifo.cachedPages st)))
      as [Hin|Hout]; simpl; [|discriminate].
    rewrite (put_length _ _ _ Hin).
    destruct (Nat.eqb_spec (length (Fifo.cachedPages st)) 0) as [Hz|Hnz];
      simpl; [discriminate|].
    intros [= <-]. unfold fifo_inv. simpl. rewrite (put_length _ _ _ Hin).
    split; [assumption|]. left. rewrite <- Hlen.
    apply Nat.mod_upper_bound. assumption.
Qed.

Lemma fifo_access_total memsize st a later :
  (1 <= memsize)%N -> fifo_inv memsize st ->
  exists st', Fifo.access st a later = Ok st' /\ fifo_inv memsize st'.
Proof.
  intros Hcap Hinv.
  assert (Hok : exists st', Fifo.access st a later = Ok st').
  { destruct Hinv as (Hlen & Hhead). unfold Fifo.access.
    destruct (0 <? count_occ Z.eq_dec (Fifo.cachedPages st) a); [eauto|].
    unfold vector_at_put, size_rem.
    destruct (Nat.ltb_spec (Fifo.cachedPagesHead st) (length (Fifo.cachedPages st)))
      as [Hin|Hout]; [|lia].
    simpl. rewrite (put_length _ _ _ Hin).
    destruct (Nat.eqb_spec (length (Fifo.cachedPages st)) 0) as [Hz|Hnz]; [lia|].
    simpl. eauto. }
  destruct Hok as (st' & Hst'). exists st'. split; [assumption|].
  eapply fifo_access_inv; eassumption.
Qed.

Lemma fifo_access_hits st a later st' :
  Fifo.access st a later = Ok st' ->
  (Fifo.hits st <= Fifo.hits st' <= Fifo.hits st + 1)%Z.
Proof.
  unfold Fifo.access.
  destruct (0 <? count_occ Z.eq_dec (Fifo.cachedPages st) a).
  - intros [= <-]. simpl. lia.
  - intros Hb. apply bind_Ok in Hb as (v & _ & Hb).
    apply bind_Ok in Hb as (h & _ & Hb). injection Hb as <-. simpl. lia.
Qed.


(** With no pressure the slots hold the pages seen so far, in order of
    arrival, followed by the slots that are still empty. *)
Definition fifo_np (memsize : N) (seen : list Z) (st : Fifo.state) : Prop :=
  exists R,
    represents R (Fifo.hits st) seen
    /\ length R <= N.to_nat memsize
    /\ Fifo.cachedPages st = R ++ repeat INVALID_PAGE (N.to_nat memsize - length R)
    /\ Fifo.cachedPagesHead st = length R mod N.to_nat memsize.

Lemma fifo_np_init memsize : fifo_np memsize [] (Fifo.init memsize).
Proof.
  exists []. split; [apply represents_nil|]. simpl.
  rewrite Nat.sub_0_r. repeat split; [lia|].
  destruct (N.to_nat memsize) as [|m]; [reflexivity|].
  symmetry. apply Nat.mod_small. lia.
Qed.

Lemma fifo_count_slots (R : list Z) (k : nat) (a : Z) :
  a <> INVALID_PAGE ->
  (0 <? count_occ Z.eq_dec (R ++ repeat INVALID_PAGE k) a) = true <-> In a R.
Proof.
  intros Ha. rewrite Nat.ltb_lt. change (0 < ?n) with (n > 0).
  rewrite <- count_occ_In, in_app_iff. split; [|tauto].
  intros [Hin|Hin]; [assumption|]. apply repeat_spec in Hin. contradiction.
Qed.

Lemma fifo_np_access memsize w seen a later st :
  ~ In INVALID_PAGE w ->
  (N.of_nat (distinct w) <= memsize)%N ->
  w = seen ++ a :: later -> fifo_np memsize seen st ->
  exists st', Fifo.access st a later = Ok st' /\ fifo_np memsize (seen ++ [a]) st'.
Proof.
  intros Hvalid Hcap Hw (R & HR & Hlen & Hslots & Hhead).
  assert (Ha : a <> INVALID_PAGE).
  { intros ->. apply Hvalid. rewrite Hw. apply in_or_app. right. left. reflexivity. }
  unfold Fifo.access. rewrite Hslots.
  destruct (0 <? count_occ Z.eq_dec (R ++ repeat INVALID_PAGE (N.to_nat memsize - length R)) a)
    eqn:Hcount.
  - apply (fifo_count_slots R _ a Ha) in Hcount.
    eexists. split; [reflexivity|]. exists R. simpl.
    split; [apply represents_hit; assumption|]. auto.
  - assert (Hnin : ~ In a R).
    { intros Hin. apply (fifo_count_slots R (N.to_nat memsize - length R) a Ha) in Hin.
      congruence. }
    assert (Hroom : (N.of_nat (length R) < memsize)%N).
    { eapply represents_room; [exact HR | exact Hnin | rewrite <- Hw; exact Hcap]. }
    assert (Hlt : length R < N.to_nat memsize) by lia.
    rewrite Hhead, (Nat.mod_small _ _ Hlt).
    replace (N.to_nat memsize - length R) with (S (N.to_nat memsize - S (length R))) by lia.
    cbn [repeat]. unfold vector_at_put.
    assert (Hin : (length R <? length (R ++ INVALID_PAGE
                     :: repeat INVALID_PAGE (N.to_nat memsize - S (length R)))) = true).
    { apply Nat.ltb_lt. rewrite length_app. simpl. lia. }
    rewrite Hin. cbn [bind]. rewrite put_at_end. unfold size_rem.
    assert (Hsize : length ((R ++ [a]) ++ repeat INVALID_PAGE (N.to_nat memsize - S (length R)))
                    = N.to_nat memsize).
    { rewrite !length_app, repeat_length. simpl. lia. }
    rewrite Hsize.
    destruct (Nat.eqb_spec (N.to_nat memsize) 0) as [Hz|Hnz]; [lia|].
    cbn [bind]. eexists. split; [reflexivity|].
    exists (R ++ [a]). simpl.
    assert (HlenR : length (R ++ [a]) = S (length R))
      by (rewrite length_app; simpl; lia).
    rewrite HlenR. split; [|split; [|split]].
    + apply (represents_miss R); [assumption | assumption |].
      apply Permutation_sym, Permutation_cons_append.
    + lia.
    + reflexivity.
    + f_equal. lia.
Qed.

Lemma fifo_np_run memsize w n :
  ~ In INVALID_PAGE w ->
  (N.of_nat (distinct w) <= memsize)%N ->
  exists st, run_for Fifo.access n (Fifo.init memsize) w = Ok st
             /\ Fifo.hits st = (Z.of_nat (length (firstn n w))
                                - Z.of_nat (distinct (firstn n w)))%Z.
Proof.
  intros Hvalid Hcap.
  destruct (run_for_indexed Fifo.access (fifo_np memsize) w
              (fun seen a later st => fifo_np_access memsize w seen a later st Hvalid Hcap)
              n w [] (Fifo.init memsize) eq_refl (fifo_np_init memsize))
    as (st & Hrun & (R & HR & _)).
  exists st. split; [exact Hrun|]. simpl in HR. apply (represents_hits _ _ _ HR).
Qed.

(* ===================================================================== *)
(** * PRP_OPT: invariants *)
(* ===================================================================== *)

Lemma count_pos_In (l : list Z) (a : Z) :
  (0 <? count_occ Z.eq_dec l a) = true <-> In a l.
Proof.
  rewrite Nat.ltb_lt. change (0 < ?n) with (n > 0).
  symmetry. apply count_occ_In.
Qed.

Lemma count_zero_not_In (l : list Z) (a : Z) :
  (count_occ Z.eq_dec l a =? 0) = true <-> ~ In a l.
Proof.
  rewrite Nat.eqb_eq. symmetry. apply count_occ_not_In.
Qed.

Lemma remove_NoDup (x : Z) (l : list Z) :
  NoDup l -> NoDup (remove Z.eq_dec x l).
Proof.
  induction 1 as [|y l Hy Hnd IH]; simpl; [constructor|].
  destruct (Z.eq_dec x y); [assumption|].
  constructor; [|assumption].
  intros Hin. apply in_remove in Hin. tauto.
Qed.

Lemma remove_one (x : Z) (l : list Z) :
  NoDup l -> In x l -> Permutation l (x :: remove Z.eq_dec x l).
Proof.
  induction 1 as [|y l Hy Hnd IH]; intros Hin; [destruct Hin|].
  simpl. destruct (Z.eq_dec x y) as [->|Hne].
  - rewrite notin_remove by assumption. apply Permutation_refl.
  - destruct Hin as [->|Hin]; [congruence|].
    apply Permutation_trans with (y :: x :: remove Z.eq_dec x l).
    + apply perm_skip, IH, Hin.
    + apply perm_swap.
Qed.

Lemma remove_at_most_one (x : Z) (l : list Z) :
  NoDup l -> length l <= S (length (remove Z.eq_dec x l)).
Proof.
  intros Hnd. destruct (in_dec Z.eq_dec x l) as [Hin|Hnin].
  - rewrite (Permutation_length (remove_one x l Hnd Hin)). simpl. lia.
  - rewrite notin_remove by assumption. lia.
Qed.

Section OptFacts.
Context {H : Hashing}.

Lemma opt_narrow_incl (ahead cands : list Z) (x : Z) :
  In x (Opt.narrow cands ahead) -> In x cands.
Proof.
  revert cands. induction ahead as [|wj ahead IH]; intros cands; simpl; [tauto|].
  destruct (1 <? length cands); [|tauto].
  destruct (0 <? Opt.uset_count (Opt.positive_flag wj) cands).
  - intros Hin. apply IH in Hin. apply in_remove in Hin. tauto.
  - apply IH.
Qed.

Lemma opt_narrow_nonempty (ahead cands : list Z) :
  NoDup cands -> 1 <= length cands -> 1 <= length (Opt.narrow cands ahead).
Proof.
  revert cands. induction ahead as [|wj ahead IH]; intros cands Hnd Hlen;
    simpl; [assumption|].
  destruct (Nat.ltb_spec 1 (length cands)) as [Hmany|Hfew]; [|assumption].
  destruct (0 <? Opt.uset_count (Opt.positive_flag wj) cands).
  - apply IH; [apply remove_NoDup, Hnd|].
    pose proof (remove_at_most_one wj cands Hnd). unfold Opt.uset_erase. lia.
  - apply IH; assumption.
Qed.

(** What one access that misses on a full, non-empty resident set does:
    the first candidate that the scan leaves is a resident page, it is the
    one page evicted, and the accessed page takes its place. *)
Lemma opt_access_full memsize st a later :
  NoDup (Opt.pages_in_mem st) ->
  ~ In a (Opt.pages_in_mem st) ->
  (memsize <= N.of_nat (length (Opt.pages_in_mem st)))%N ->
  1 <= length (Opt.pages_in_mem st) ->
  exists victim st',
    Opt.uset_first (Opt.narrow (ucopy (Opt.pages_in_mem st)) (a :: later))
      = Ok victim
    /\ In victim (Opt.pages_in_mem st)
    /\ Opt.access memsize st a later = Ok st'
    /\ Permutation (Opt.pages_in_mem st')
                   (a :: remove Z.eq_dec victim (Opt.pages_in_mem st))
    /\ length (Opt.pages_in_mem st') = length (Opt.pages_in_mem st)
    /\ Opt.hits st' = Opt.hits st.
Proof.
  intros Hnd Ha Hfull Hne.
  pose proof (ucopy_perm _ (Opt.pages_in_mem st)) as Hcopy.
  assert (Hcands : 1 <= length (Opt.narrow (ucopy (Opt.pages_in_mem st)) (a :: later))).
  { apply opt_narrow_nonempty.
    - apply Permutation_NoDup with (Opt.pages_in_mem st);
        [symmetry; exact Hcopy | exact Hnd].
    - rewrite (Permutation_length Hcopy). exact Hne. }
  destruct (Opt.narrow (ucopy (Opt.pages_in_mem st)) (a :: later))
    as [|victim rest] eqn:Hnarrow; [simpl in Hcands; lia|].
  assert (Hvictim : In victim (Opt.pages_in_mem st)).
  { apply (Permutation_in _ Hcopy). apply opt_narrow_incl with (a :: later).
    rewrite Hnarrow. left. reflexivity. }
  assert (Hperm : Permutation
            (Opt.uset_insert a (Opt.uset_erase victim (Opt.pages_in_mem st)))
            (a :: remove Z.eq_dec victim (Opt.pages_in_mem st))).
  { unfold Opt.uset_insert, Opt.uset_erase, Opt.uset_count.
    assert (Hfresh : (count_occ Z.eq_dec (remove Z.eq_dec victim (Opt.pages_in_mem st)) a
                      =? 0) = true).
    { apply count_zero_not_In. intros Hin. apply in_remove in Hin. tauto. }
    rewrite Hfresh. apply uinsert_perm. }
  exists victim. eexists. split; [reflexivity|]. split; [exact Hvictim|].
  unfold Opt.access.
  assert (Hmiss : (0 <? Opt.uset_count a (Opt.pages_in_mem st)) = false).
  { destruct (0 <? Opt.uset_count a (Opt.pages_in_mem st)) eqn:Hc; [|reflexivity].
    apply count_pos_In in Hc. contradiction. }
  assert (Hnoroom : (N.of_nat (length (Opt.pages_in_mem st)) <? memsize)%N = false)
    by (apply N.ltb_ge; exact Hfull).
  rewrite Hmiss, Hnoroom, Hnarrow. cbn [bind Opt.uset_first].
  split; [reflexivity|]. cbn [Opt.pages_in_mem Opt.hits].
  split; [exact Hperm|]. split; [|reflexivity].
  rewrite (Permutation_length Hperm).
  rewrite (Permutation_length (remove_one _ _ Hnd Hvictim)). reflexivity.
Qed.

Definition opt_inv (memsize : N) (st : Opt.state) : Prop :=
  NoDup (Opt.pages_in_mem st)
  /\ (N.of_nat (length (Opt.pages_in_mem st)) <= memsize)%N.

Lemma opt_inv_init memsize : opt_inv memsize Opt.init.
Proof. split; simpl; [constructor | lia]. Qed.

Lemma opt_access_cases memsize st a later :
  opt_inv memsize st ->
  (In a (Opt.pages_in_mem st)
   /\ Opt.access memsize st a later
      = Ok (Opt.mk (Opt.pages_in_mem st) (Opt.hits st + 1)))
  \/ (~ In a (Opt.pages_in_mem st)
      /\ (N.of_nat (length (Opt.pages_in_mem st)) < memsize)%N
      /\ Opt.access memsize st a later
         = Ok (Opt.mk (uinsert a (Opt.pages_in_mem st)) (Opt.hits st)))
  \/ (~ In a (Opt.pages_in_mem st)
      /\ N.of_nat (length (Opt.pages_in_mem st)) = memsize
      /\ Opt.access memsize st a later
         = (victim <- Opt.uset_first
                        (Opt.narrow (ucopy (Opt.pages_in_mem st)) (a :: later)) ;;
            Ok (Opt.mk (Opt.uset_insert a (Opt.uset_erase victim (Opt.pages_in_mem st)))
                       (Opt.hits st)))).
Proof.
  intros (Hnd & Hlen). unfold Opt.access.
  destruct (0 <? Opt.uset_count a (Opt.pages_in_mem st)) eqn:Hc.
  - left. apply count_pos_In in Hc. split; [assumption | reflexivity].
  - right.
    assert (Hnin : ~ In a (Opt.pages_in_mem st)).
    { intros Hin. apply count_pos_In in Hin. unfold Opt.uset_count in Hc. congruence. }
    destruct (N.ltb_spec (N.of_nat (length (Opt.pages_in_mem st))) memsize)
      as [Hroom|Hfull].
    + left. split; [assumption|]. split; [assumption|].
      unfold Opt.uset_insert, Opt.uset_count.
      apply count_zero_not_In in Hnin. rewrite Hnin. reflexivity.
    + right. split; [assumption|]. split; [lia | reflexivity].
Qed.

Lemma opt_access_inv memsize st a later st' :
  opt_inv memsize st -> Opt.access memsize st a later = Ok st' ->
  opt_inv memsize st'.
Proof.
  intros Hinv Hacc. pose proof Hinv as (Hnd & Hlen).
  destruct (opt_access_cases memsize st a later Hinv)
    as [(Hin & Heq)|[(Hnin & Hroom & Heq)|(Hnin & Hfull & Heq)]].
  - rewrite Heq in Hacc. injection Hacc as <-. exact Hinv.
  - rewrite Heq in Hacc. injection Hacc as <-. split; simpl.
    + apply Permutation_NoDup with (a :: Opt.pages_in_mem st);
        [symmetry; apply uinsert_perm | constructor; assumption].
    + rewrite (Permutation_length (uinsert_perm _ a (Opt.pages_in_mem st))).
      simpl. lia.
  - destruct (Nat.eq_dec (length (Opt.pages_in_mem st)) 0) as [Hz|Hnz].
    + rewrite Heq in Hacc.
      assert (Hnil : ucopy (Opt.pages_in_mem st) = []).
      { apply length_zero_iff_nil.
        rewrite (Permutation_length (ucopy_perm _ _)). exact Hz. }
      rewrite Hnil in Hacc. simpl in Hacc. discriminate.
    + destruct (opt_access_full memsize st a later Hnd Hnin)
        as (v & st1 & _ & Hv & Hst1 & Hperm & Hsame & _); [lia | lia |].
      rewrite Hst1 in Hacc. injection Hacc as <-. split.
      * apply Permutation_NoDup with (a :: remove Z.eq_dec v (Opt.pages_in_mem st));
          [symmetry; exact Hperm|].
        constructor; [|apply remove_NoDup, Hnd].
        intros Hin. apply in_remove in Hin. tauto.
      * rewrite Hsame. exact Hlen.
Qed.

Lemma opt_access_total memsize st a later :
  (1 <= memsize)%N -> opt_inv memsize st ->
  exists st', Opt.access memsize st a later = Ok st' /\ opt_inv memsize st'.
Proof.
  intros Hcap Hinv.
  assert (Hok : exists st', Opt.access memsize st a later = Ok st').
  { pose proof Hinv as (Hnd & Hlen).
    destruct (opt_access_cases memsize st a later Hinv)
      as [(Hin & Heq)|[(Hnin & Hroom & Heq)|(Hnin & Hfull & Heq)]]; eauto.
    destruct (opt_access_full memsize st a later Hnd Hnin)
      as (v & st1 & _ & _ & Hst1 & _); [lia | lia | eauto]. }
  destruct Hok as (st' & Hst'). exists st'. split; [assumption|].
  eapply opt_access_inv; eassumption.
Qed.

Lemma opt_access_hits memsize st a later st' :
  Opt.access memsize st a later = Ok st' ->
  (Opt.hits st <= Opt.hits st' <= Opt.hits st + 1)%Z.
Proof.
  unfold Opt.access.
  destruct (0 <? Opt.uset_count a (Opt.pages_in_mem st)).
  - intros [= <-]. simpl. lia.
  - destruct (N.of_nat (length (Opt.pages_in_mem st)) <? memsize)%N.
    + intros [= <-]. simpl. lia.
    + intros Hb. apply bind_Ok in Hb as (v & _ & Hb).
      injection Hb as <-. simpl. lia.
Qed.

Definition opt_np (seen : list Z) (st : Opt.state) : Prop :=
  represents (Opt.pages_in_mem st) (Opt.hits st) seen.

Lemma opt_np_access memsize w seen a later st :
  (N.of_nat (distinct w) <= memsize)%N ->
  w = seen ++ a :: later -> opt_np seen st ->
  exists st', Opt.access memsize st a later = Ok st' /\ opt_np (seen ++ [a]) st'.
Proof.
  intros Hcap Hw HR. unfold opt_np in *.
  assert (Hinv : opt_inv (N.of_nat (length (Opt.pages_in_mem st))) st)
    by (split; [apply HR | lia]).
  unfold Opt.access.
  destruct (0 <? Opt.uset_count a (Opt.pages_in_mem st)) eqn:Hc.
  - apply count_pos_In in Hc. eexists. split; [reflexivity|].
    simpl. apply represents_hit; assumption.
  - assert (Hnin : ~ In a (Opt.pages_in_mem st)).
    { intros Hin. apply count_pos_In in Hin. unfold Opt.uset_count in Hc. congruence. }
    assert (Hroom : (N.of_nat (length (Opt.pages_in_mem st)) < memsize)%N).
    { eapply represents_room; [exact HR | exact Hnin | rewrite <- Hw; exact Hcap]. }
    apply N.ltb_lt in Hroom. rewrite Hroom.
    eexists. split; [reflexivity|]. simpl.
    apply (represents_miss _ _ _ _ _ HR Hnin).
    unfold Opt.uset_insert, Opt.uset_count.
    apply count_zero_not_In in Hnin. rewrite Hnin. apply uinsert_perm.
Qed.

Lemma opt_np_run memsize w n :
  (N.of_nat (distinct w) <= memsize)%N ->
  exists st, run_for (Opt.access memsize) n Opt.init w = Ok st
             /\ Opt.hits st = (Z.of_nat (length (firstn n w))
                               - Z.of_nat (distinct (firstn n w)))%Z.
Proof.
  intros Hcap.
  destruct (run_for_indexed (Opt.access memsize) opt_np w
              (fun seen a later st => opt_np_access memsize w seen a later st Hcap)
              n w [] Opt.init eq_refl represents_nil)
    as (st & Hrun & HR).
  exists st. split; [exact Hrun|]. simpl in HR. apply (represents_hits _ _ _ HR).
Qed.
End OptFacts.

(* ===================================================================== *)
(** * PRP_RAND: invariants *)
(* ===================================================================== *)

Section RandFacts.
Context {E : RandomEngine}.

Lemma rand_found_In (a : Z) (pages : list Z) :
  Rand.found a pages = true <-> In a pages.
Proof.
  unfold Rand.found. rewrite existsb_exists. split.
  - intros (x & Hx & Heq). apply Z.eqb_eq in Heq. congruence.
  - intros Hin. exists a. split; [assumption | apply Z.eqb_refl].
Qed.

Definition rand_inv (memsize : N) (st : Rand.state) : Prop :=
  (N.of_nat (length (Rand.pages_in_mem st)) <= memsize)%N.

Lemma rand_inv_init memsize now : rand_inv memsize (Rand.init now).
Proof. unfold rand_inv. simpl. lia. Qed.

(** The overwrite of a full, non-empty vector stays inside it. *)
Lemma rand_overwrite (pages : list Z) (g : engine) (a : Z) :
  1 <= length pages ->
  exists i,
    i < length pages
    /\ fst (uniform_int 0 (Z.of_nat (length pages) - 1) g) = Z.of_nat i
    /\ vector_put pages i a = Ok (firstn i pages ++ a :: skipn (S i) pages).
Proof.
  intros Hne.
  pose proof (uniform_int_range 0 (Z.of_nat (length pages) - 1) g) as Hrange.
  exists (Z.to_nat (fst (uniform_int 0 (Z.of_nat (length pages) - 1) g))).
  assert (Hi : Z.to_nat (fst (uniform_int 0 (Z.of_nat (length pages) - 1) g))
               < length pages) by lia.
  split; [exact Hi|]. split; [lia|].
  unfold vector_put. apply Nat.ltb_lt in Hi. rewrite Hi. reflexivity.
Qed.

Lemma rand_access_inv memsize st a later st' :
  rand_inv memsize st -> Rand.access memsize st a later = Ok st' ->
  rand_inv memsize st'.
Proof.
  unfold rand_inv, Rand.access. intros Hlen.
  destruct (Rand.found a (Rand.pages_in_mem st)).
  - intros [= <-]. exact Hlen.
  - destruct (N.ltb_spec (N.of_nat (length (Rand.pages_in_mem st))) memsize)
      as [Hroom|Hfull].
    + intros [= <-]. simpl. rewrite length_app. simpl. lia.
    + destruct (Z.of_nat (length (Rand.pages_in_mem st)) - 1 <? 0)%Z; [discriminate|].
      destruct (uniform_int 0 (Z.of_nat (length (Rand.pages_in_mem st)) - 1)
                  (Rand.random_engine st)) as [index g].
      destruct (index <? 0)%Z; [discriminate|].
      unfold vector_put.
      destruct (Nat.ltb_spec (Z.to_nat index) (length (Rand.pages_in_mem st)))
        as [Hin|Hout]; simpl; [|discriminate].
      intros [= <-]. simpl. rewrite (put_length _ _ _ Hin). exact Hlen.
Qed.

Lemma rand_access_total memsize st a later :
  (1 <= memsize)%N -> rand_inv memsize st ->
  exists st', Rand.access memsize st a later = Ok st' /\ rand_inv memsize st'.
Proof.
  intros Hcap Hinv.
  assert (Hok : exists st', Rand.access memsize st a later = Ok st').
  { unfold Rand.access.
    destruct (Rand.found a (Rand.pages_in_mem st)); [eauto|].
    destruct (N.ltb_spec (N.of_nat (length (Rand.pages_in_mem st))) memsize)
      as [Hroom|Hfull]; [eauto|].
    assert (Hne : 1 <= length (Rand.pages_in_mem st)) by lia.
    destruct (Z.ltb_spec (Z.of_nat (length (Rand.pages_in_mem st)) - 1) 0); [lia|].
    destruct (rand_overwrite (Rand.pages_in_mem st) (Rand.random_engine st) a Hne)
      as (i & Hi & Hdraw & Hput).
    destruct (uniform_int 0 (Z.of_nat (length (Rand.pages_in_mem st)) - 1)
                (Rand.random_engine st)) as [index g].
    simpl in Hdraw. subst index.
    destruct (Z.ltb_spec (Z.of_nat i) 0); [lia|].
    rewrite Nat2Z.id, Hput. simpl. eauto. }
  destruct Hok as (st' & Hst'). exists st'. split; [assumption|].
  eapply rand_access_inv; eassumption.
Qed.

Lemma rand_access_hits memsize st a later st' :
  Rand.access memsize st a later = Ok st' ->
  (Rand.hits st <= Rand.hits st' <= Rand.hits st + 1)%Z.
Proof.
  unfold Rand.access.
  destruct (Rand.found a (Rand.pages_in_mem st)).
  - intros [= <-]. simpl. lia.
  - destruct (N.of_nat (length (Rand.pages_in_mem st)) <? memsize)%N.
    + intros [= <-]. simpl. lia.
    + destruct (Z.of_nat (length (Rand.pages_in_mem st)) - 1 <? 0)%Z; [discriminate|].
      destruct (uniform_int 0 (Z.of_nat (length (Rand.pages_in_mem st)) - 1)
                  (Rand.random_engine st)) as [index g].
      destruct (index <? 0)%Z; [discriminate|].
      intros Hb. apply bind_Ok in Hb as (v & _ & Hb).
      injection Hb as <-. simpl. lia.
Qed.

Definition rand_np (seen : list Z) (st : Rand.state) : Prop :=
  represents (Rand.pages_in_mem st) (Rand.hits st) seen.

Lemma rand_np_access memsize w seen a later st :
  (N.of_nat (distinct w) <= memsize)%N ->
  w = seen ++ a :: later -> rand_np seen st ->
  exists st', Rand.access memsize st a later = Ok st' /\ rand_np (seen ++ [a]) st'.
Proof.
  intros Hcap Hw HR. unfold rand_np in *. unfold Rand.access.
  destruct (Rand.found a (Rand.pages_in_mem st)) eqn:Hf.
  - apply rand_found_In in Hf. eexists. split; [reflexivity|].
    simpl. apply represents_hit; assumption.
  - assert (Hnin : ~ In a (Rand.pages_in_mem st)).
    { intros Hin. apply rand_found_In in Hin. congruence. }
    assert (Hroom : (N.of_nat (length (Rand.pages_in_mem st)) < memsize)%N).
    { eapply represents_room; [exact HR | exact Hnin | rewrite <- Hw; exact Hcap]. }
    apply N.ltb_lt in Hroom. rewrite Hroom.
    eexists. split; [reflexivity|]. simpl.
    apply (represents_miss _ _ _ _ _ HR Hnin).
    apply Permutation_sym, Permutation_cons_append.
Qed.

Lemma rand_np_run memsize now w n :
  (N.of_nat (distinct w) <= memsize)%N ->
  exists st, run_for (Rand.access memsize) n (Rand.init now) w = Ok st
             /\ Rand.hits st = (Z.of_nat (length (firstn n w))
                                - Z.of_nat (distinct (firstn n w)))%Z.
Proof.
  intros Hcap.
  destruct (run_for_indexed (Rand.access memsize) rand_np w
              (fun seen a later st => rand_np_access memsize w seen a later st Hcap)
              n w [] (Rand.init now) eq_refl represents_nil)
    as (st & Hrun & HR).
  exists st. split; [exact Hrun|]. simpl in HR. apply (represents_hits _ _ _ HR).
Qed.
End RandFacts.

(* ===================================================================== *)
(** * PRP_LRU: invariants *)
(* ===================================================================== *)

Lemma In_erase {A : Type} (i : nat) (l : list A) (y : A) :
  In y (firstn i l ++ skipn (S i) l) -> In y l.
Proof.
  revert l. induction i as [|i IH]; intros l Hin.
  - destruct l as [|x l]; simpl in *; tauto.
  - destruct l as [|x l]; [simpl in Hin; tauto|].
    change (In y (x :: (firstn i l ++ skipn (S i) l))) in Hin.
    destruct Hin as [->|Hin]; [left; reflexivity | right; apply IH, Hin].
Qed.

Lemma NoDup_erase {A : Type} (i : nat) (l : list A) :
  NoDup l -> NoDup (firstn i l ++ skipn (S i) l).
Proof.
  revert l. induction i as [|i IH]; intros l Hnd.
  - destruct l as [|x l]; simpl; [constructor|]. inversion Hnd; assumption.
  - destruct l as [|x l]; [simpl; constructor|].
    inversion Hnd as [|? ? Hx Hl]; subst.
    change (NoDup (x :: (firstn i l ++ skipn (S i) l))).
    constructor; [|apply IH, Hl].
    intros Hin. apply Hx. apply (In_erase i l x Hin).
Qed.

Section LruFacts.
Context {H : Hashing}.

Lemma lru_evict_unfold memsize m :
  Lru.evict memsize m =
  if (memsize <? N.of_nat (length m))%N
  then match m with
       | [] => []
       | _ :: _ => Lru.evict memsize (Lru.erase_at (Lru.oldestEntry m) m)
       end
  else m.
Proof.
  funelim (Lru.evict memsize m); try rewrite Heq; reflexivity.
Qed.

(** The loop ends, and ends with the cache within the capacity. *)
Lemma lru_evict_bound memsize m :
  (N.of_nat (length (Lru.evict memsize m)) <= memsize)%N.
Proof.
  funelim (Lru.evict memsize m).
  - apply N.ltb_ge. exact Heq.
  - simpl. lia.
  - assumption.
Qed.

Lemma lru_erase_keys i m :
  map fst (Lru.erase_at i m)
  = firstn i (map fst m) ++ skipn (S i) (map fst m).
Proof.
  unfold Lru.erase_at. rewrite map_app, firstn_map, skipn_map. reflexivity.
Qed.

Lemma lru_evict_NoDup memsize m :
  NoDup (map fst m) -> NoDup (map (@fst Z nat) (Lru.evict memsize m)).
Proof.
  funelim (Lru.evict memsize m); intros Hnd.
  - assumption.
  - constructor.
  - apply H0. rewrite lru_erase_keys. apply NoDup_erase, Hnd.
Qed.

Lemma lru_scan_oldest_spec (rest : list Lru.entry) :
  forall pre oldest stamp e0,
    nth_error pre oldest = Some e0 -> snd e0 = stamp ->
    (forall e, In e pre -> stamp <= snd e) ->
    exists e1,
      nth_error (pre ++ rest) (Lru.scan_oldest oldest stamp (length pre) rest)
        = Some e1
      /\ forall e, In e (pre ++ rest) -> snd e1 <= snd e.
Proof.
  induction rest as [|x rest IH]; intros pre oldest stamp e0 Hnth Hstamp Hmin.
  - simpl. rewrite app_nil_r. exists e0. split; [assumption|].
    intros e He. rewrite Hstamp. apply Hmin, He.
  - simpl. replace (pre ++ x :: rest) with ((pre ++ [x]) ++ rest)
      by (rewrite <- app_assoc; reflexivity).
    replace (S (length pre)) with (length (pre ++ [x]))
      by (rewrite length_app; simpl; lia).
    destruct (Nat.ltb_spec (snd x) stamp) as [Hlt|Hge].
    + apply IH with x.
      * rewrite nth_error_app2 by lia. rewrite Nat.sub_diag. reflexivity.
      * reflexivity.
      * intros e He. apply in_app_or in He as [He|[<-|[]]]; [|lia].
        specialize (Hmin e He). lia.
    + apply IH with e0.
      * rewrite nth_error_app1; [assumption|].
        apply nth_error_Some. congruence.
      * assumption.
      * intros e He. apply in_app_or in He as [He|[<-|[]]]; [|lia].
        apply Hmin, He.
Qed.

(** [oldestEntry] points at an entry whose time is minimal. *)
Lemma lru_oldestEntry_spec (m : list Lru.entry) :
  1 <= length m ->
  exists e1,
    nth_error m (Lru.oldestEntry m) = Some e1
    /\ forall e, In e m -> snd e1 <= snd e.
Proof.
  destruct m as [|e0 rest]; simpl; [lia|]. intros _.
  apply (lru_scan_oldest_spec rest [e0] 0 (snd e0) e0); [reflexivity..|].
  intros e [<-|[]]. lia.
Qed.

Lemma lru_erase_length i (m : list Lru.entry) :
  i < length m -> S (length (Lru.erase_at i m)) = length m.
Proof.
  intros Hi. unfold Lru.erase_at.
  rewrite length_app, length_firstn, length_skipn. lia.
Qed.

(** An overflow by one entry costs exactly one eviction. *)
Lemma lru_evict_one memsize (m : list Lru.entry) :
  N.of_nat (length m) = (memsize + 1)%N ->
  Lru.evict memsize m = Lru.erase_at (Lru.oldestEntry m) m
  /\ N.of_nat (length (Lru.erase_at (Lru.oldestEntry m) m)) = memsize.
Proof.
  intros Hlen.
  destruct (lru_oldestEntry_spec m) as (e1 & Hnth & _); [lia|].
  assert (Hi : Lru.oldestEntry m < length m)
    by (apply nth_error_Some; congruence).
  pose proof (lru_erase_length _ _ Hi) as Herase.
  assert (Hsize : N.of_nat (length (Lru.erase_at (Lru.oldestEntry m) m)) = memsize)
    by lia.
  split; [|exact Hsize].
  rewrite lru_evict_unfold.
  assert (Hover : (memsize <? N.of_nat (length m))%N = true)
    by (apply N.ltb_lt; lia).
  rewrite Hover. destruct m as [|e m]; [simpl in Hlen; lia|].
  rewrite lru_evict_unfold.
  assert (Hstop : (memsize <? N.of_nat (length (Lru.erase_at
                     (Lru.oldestEntry (e :: m)) (e :: m))))%N = false)
    by (apply N.ltb_ge; lia).
  rewrite Hstop. reflexivity.
Qed.

Lemma lru_evict_none memsize (m : list Lru.entry) :
  (N.of_nat (length m) <= memsize)%N -> Lru.evict memsize m = m.
Proof.
  intros Hlen. rewrite lru_evict_unfold.
  assert (Hstop : (memsize <? N.of_nat (length m))%N = false)
    by (apply N.ltb_ge; lia).
  rewrite Hstop. reflexivity.
Qed.

Lemma lru_count_In (a : Z) (m : list Lru.entry) :
  (Lru.umap_count a m =? 0) = true <-> ~ In a (map fst m).
Proof. apply count_zero_not_In. Qed.

Lemma lru_at_put_keys (a : Z) (t : nat) (m : list Lru.entry) :
  map fst (map (fun e : Lru.entry => if (fst e =? a)%Z then (a, t) else e) m)
  = map fst m.
Proof.
  rewrite map_map. apply map_ext. intros e.
  destruct (Z.eqb_spec (fst e) a) as [Heq|Hne]; simpl; congruence.
Qed.

Definition lru_inv (memsize : N) (st : Lru.state) : Prop :=
  NoDup (map fst (Lru.cache st))
  /\ (N.of_nat (length (Lru.cache st)) <= memsize)%N.

Lemma lru_inv_init memsize : lru_inv memsize Lru.init.
Proof. split; simpl; [constructor | lia]. Qed.

(** Every access succeeds, whatever the capacity. *)
Lemma lru_access_total memsize st a later :
  lru_inv memsize st ->
  exists st', Lru.access memsize st a later = Ok st' /\ lru_inv memsize st'.
Proof.
  intros (Hnd & Hlen). unfold Lru.access, Lru.umap_at_put.
  destruct (Lru.umap_count a (Lru.cache st) =? 0) eqn:Hc.
  - eexists. split; [reflexivity|]. split; simpl.
    + apply lru_evict_NoDup. unfold Lru.umap_emplace. rewrite Hc.
      apply lru_count_In in Hc.
      apply Permutation_NoDup with (map fst ((a, Lru.time st) :: Lru.cache st)).
      * apply Permutation_map, Permutation_sym, uinsert_perm.
      * simpl. constructor; assumption.
    + apply lru_evict_bound.
  - simpl. eexists. split; [reflexivity|]. split; simpl.
    + rewrite lru_at_put_keys. exact Hnd.
    + rewrite length_map. exact Hlen.
Qed.

Lemma lru_access_inv memsize st a later st' :
  lru_inv memsize st -> Lru.access memsize st a later = Ok st' ->
  lru_inv memsize st'.
Proof.
  intros Hinv Hacc.
  destruct (lru_access_total memsize st a later Hinv) as (st1 & H1 & Hinv1).
  congruence.
Qed.

Lemma lru_access_hits memsize st a later st' :
  Lru.access memsize st a later = Ok st' ->
  (Lru.hits st <= Lru.hits st' <= Lru.hits st + 1)%Z.
Proof.
  unfold Lru.access.
  destruct (Lru.umap_count a (Lru.cache st) =? 0).
  - intros [= <-]. simpl. lia.
  - intros Hb. apply bind_Ok in Hb as (m & _ & Hb).
    injection Hb as <-. simpl. lia.
Qed.

Definition lru_np (seen : list Z) (st : Lru.state) : Prop :=
  represents (map fst (Lru.cache st)) (Lru.hits st) seen.

Lemma lru_np_access memsize w seen a later st :
  (N.of_nat (distinct w) <= memsize)%N ->
  w = seen ++ a :: later -> lru_np seen st ->
  exists st', Lru.access memsize st a later = Ok st' /\ lru_np (seen ++ [a]) st'.
Proof.
  intros Hcap Hw HR. unfold lru_np in *. unfold Lru.access, Lru.umap_at_put.
  destruct (Lru.umap_count a (Lru.cache st) =? 0) eqn:Hc.
  - pose proof Hc as Hnin. apply lru_count_In in Hnin.
    assert (Hroom : (N.of_nat (length (map fst (Lru.cache st))) < memsize)%N).
    { eapply represents_room; [exact HR | exact Hnin | rewrite <- Hw; exact Hcap]. }
    rewrite length_map in Hroom.
    eexists. split; [reflexivity|]. simpl.
    unfold Lru.umap_emplace. rewrite Hc.
    pose proof (uinsert_perm Lru.entry (a, Lru.time st) (Lru.cache st)) as Hperm.
    pose proof (Permutation_length Hperm) as Hsize.
    unfold Lru.entry in *. simpl in Hsize.
    rewrite lru_evict_none by (unfold Lru.entry; lia).
    apply (represents_miss _ _ _ _ _ HR Hnin).
    apply (Permutation_map fst) in Hperm. exact Hperm.
  - simpl. eexists. split; [reflexivity|]. simpl.
    rewrite lru_at_put_keys. apply represents_hit; [assumption|].
    destruct (in_dec Z.eq_dec a (map fst (Lru.cache st))) as [Hin|Hnin];
      [assumption|].
    apply lru_count_In in Hnin. congruence.
Qed.

Lemma lru_np_run memsize w n :
  (N.of_nat (distinct w) <= memsize)%N ->
  exists st, run_for (Lru.access memsize) n Lru.init w = Ok st
             /\ Lru.hits st = (Z.of_nat (length (firstn n w))
                               - Z.of_nat (distinct (firstn n w)))%Z.
Proof.
  intros Hcap.
  destruct (run_for_indexed (Lru.access memsize) lru_np w
              (fun seen a later st => lru_np_access memsize w seen a later st Hcap)
              n w [] Lru.init eq_refl represents_nil)
    as (st & Hrun & HR).
  exists st. split; [exact Hrun|]. simpl in HR. apply (represents_hits _ _ _ HR).
Qed.
End LruFacts.

(* ===================================================================== *)
(** * PRP_CLOCK: invariants *)
(* ===================================================================== *)

Definition clock_used (e : Clock.ClockEntry) : Prop := snd e = true.
Definition clock_clear (e : Clock.ClockEntry) : Clock.ClockEntry := (fst e, false).

Lemma clock_find_if_le (a : Z) (c : list Clock.ClockEntry) :
  Clock.find_if a c <= length c.
Proof.
  induction c as [|e c IH]; simpl; [lia|].
  destruct (fst e =? a)%Z; lia.
Qed.

Lemma clock_find_if_end (a : Z) (c : list Clock.ClockEntry) :
  Clock.find_if a c = length c <-> ~ In a (map fst c).
Proof.
  induction c as [|e c IH]; simpl; [tauto|].
  destruct (Z.eqb_spec (fst e) a) as [Heq|Hne].
  - split; [discriminate | tauto].
  - rewrite Nat.succ_inj_wd, IH. tauto.
Qed.

Lemma clock_miss_test (a : Z) (c : list Clock.ClockEntry) :
  negb (Clock.find_if a c =? length c) = false <-> ~ In a (map fst c).
Proof.
  rewrite negb_false_iff, Nat.eqb_eq. apply clock_find_if_end.
Qed.

Lemma clock_set_use_keys (i : nat) (c : list Clock.ClockEntry) :
  map fst (Clock.set_use i c) = map fst c.
Proof.
  revert i. induction c as [|e c IH]; intros i; [destruct i; reflexivity|].
  destruct i as [|i]; simpl; [reflexivity|]. rewrite IH. reflexivity.
Qed.

Lemma clock_sweep_all (c : list Clock.ClockEntry) :
  Forall clock_used c -> Clock.sweep c = (length c, map clock_clear c).
Proof.
  induction 1 as [|e c He Hc IH]; [reflexivity|].
  simpl. rewrite He, IH. reflexivity.
Qed.

Lemma clock_sweep_stop (pre post : list Clock.ClockEntry) (p : Z) :
  Forall clock_used pre ->
  Clock.sweep (pre ++ (p, false) :: post)
  = (length pre, map clock_clear pre ++ (p, false) :: post).
Proof.
  induction 1 as [|e c He Hc IH]; [reflexivity|].
  simpl. rewrite He, IH. reflexivity.
Qed.

(** The sweep ends inside the cache or just past its last entry, and
    changes neither the number of entries nor their pages. *)
Lemma clock_sweep_shape (c : list Clock.ClockEntry) :
  fst (Clock.sweep c) <= length c
  /\ length (snd (Clock.sweep c)) = length c
  /\ map fst (snd (Clock.sweep c)) = map fst c.
Proof.
  induction c as [|e c (IHk & IHlen & IHkeys)]; simpl; [auto|].
  destruct (snd e); simpl; [|split; [lia | split; reflexivity]].
  destruct (Clock.sweep c) as [k r]. simpl in *.
  split; [lia|]. split; [lia | congruence].
Qed.

Definition clock_inv (memsize : N) (st : Clock.state) : Prop :=
  (N.of_nat (length (Clock.cache st)) <= memsize)%N.

Lemma clock_inv_init memsize : clock_inv memsize Clock.init.
Proof. unfold clock_inv. simpl. lia. Qed.

Lemma clock_set_use_length (i : nat) (c : list Clock.ClockEntry) :
  length (Clock.set_use i c) = length c.
Proof.
  revert i. induction c as [|e c IH]; intros i; [destruct i; reflexivity|].
  destruct i as [|i]; simpl; [reflexivity|]. rewrite IH. reflexivity.
Qed.

Lemma clock_access_inv memsize st a later st' :
  clock_inv memsize st -> Clock.access memsize st a later = Ok st' ->
  clock_inv memsize st'.
Proof.
  unfold clock_inv, Clock.access. intros Hlen.
  destruct (negb (Clock.find_if a (Clock.cache st) =? length (Clock.cache st))).
  - intros [= <-]. simpl. rewrite clock_set_use_length. exact Hlen.
  - destruct (N.ltb_spec (N.of_nat (length (Clock.cache st))) memsize)
      as [Hroom|Hfull].
    + intros [= <-]. simpl. rewrite length_app. simpl. lia.
    + pose proof (clock_sweep_shape (Clock.cache st)) as (_ & Hsame & _).
      destruct (Clock.sweep (Clock.cache st)) as [hand swept]. simpl in Hsame.
      unfold Clock.replace_at.
      destruct (Nat.ltb_spec (if hand =? length swept then 0 else hand) (length swept))
        as [Hin|Hout]; simpl; [|discriminate].
      intros [= <-]. simpl. rewrite (put_length _ _ _ Hin). lia.
Qed.

Lemma clock_access_total memsize st a later :
  (1 <= memsize)%N -> clock_inv memsize st ->
  exists st', Clock.access memsize st a later = Ok st' /\ clock_inv memsize st'.
Proof.
  intros Hcap Hinv.
  assert (Hok : exists st', Clock.access memsize st a later = Ok st').
  { unfold Clock.access.
    destruct (negb (Clock.find_if a (Clock.cache st) =? length (Clock.cache st)));
      [eauto|].
    destruct (N.ltb_spec (N.of_nat (length (Clock.cache st))) memsize)
      as [Hroom|Hfull]; [eauto|].
    pose proof (clock_sweep_shape (Clock.cache st)) as (Hk & Hsame & _).
    destruct (Clock.sweep (Clock.cache st)) as [hand swept]. simpl in Hk, Hsame.
    unfold Clock.replace_at.
    assert (Hin : (if hand =? length swept then 0 else hand) < length swept).
    { destruct (Nat.eqb_spec hand (length swept)); lia. }
    apply Nat.ltb_lt in Hin. rewrite Hin. simpl. eauto. }
  destruct Hok as (st' & Hst'). exists st'. split; [assumption|].
  eapply clock_access_inv; eassumption.
Qed.

Lemma clock_access_hits memsize st a later st' :
  Clock.access memsize st a later = Ok st' ->
  (Clock.hits st <= Clock.hits st' <= Clock.hits st + 1)%Z.
Proof.
  unfold Clock.access.
  destruct (negb (Clock.find_if a (Clock.cache st) =? length (Clock.cache st))).
  - intros [= <-]. simpl. lia.
  - destruct (N.of_nat (length (Clock.cache st)) <? memsize)%N.
    + intros [= <-]. simpl. lia.
    + destruct (Clock.sweep (Clock.cache st)) as [hand swept].
      intros Hb. apply bind_Ok in Hb as (c & _ & Hb).
      injection Hb as <-. simpl. lia.
Qed.

Definition clock_np (seen : list Z) (st : Clock.state) : Prop :=
  represents (map fst (Clock.cache st)) (Clock.hits st) seen.

Lemma clock_np_access memsize w seen a later st :
  (N.of_nat (distinct w) <= memsize)%N ->
  w = seen ++ a :: later -> clock_np seen st ->
  exists st', Clock.access memsize st a later = Ok st' /\ clock_np (seen ++ [a]) st'.
Proof.
  intros Hcap Hw HR. unfold clock_np in *. unfold Clock.access.
  destruct (negb (Clock.find_if a (Clock.cache st) =? length (Clock.cache st)))
    eqn:Hfind.
  - eexists. split; [reflexivity|]. simpl. rewrite clock_set_use_keys.
    apply represents_hit; [assumption|].
    destruct (in_dec Z.eq_dec a (map fst (Clock.cache st))) as [Hin|Hnin];
      [assumption|].
    apply clock_miss_test in Hnin. congruence.
  - apply clock_miss_test in Hfind.
    assert (Hroom : (N.of_nat (length (map fst (Clock.cache st))) < memsize)%N).
    { eapply represents_room; [exact HR | exact Hfind | rewrite <- Hw; exact Hcap]. }
    rewrite length_map in Hroom. apply N.ltb_lt in Hroom.
    unfold Clock.ClockEntry in *. rewrite Hroom.
    eexists. split; [reflexivity|]. simpl. rewrite map_app. simpl.
    apply (represents_miss _ _ _ _ _ HR Hfind).
    apply Permutation_sym, Permutation_cons_append.
Qed.

Lemma clock_np_run memsize w n :
  (N.of_nat (distinct w) <= memsize)%N ->
  exists st, run_for (Clock.access memsize) n Clock.init w = Ok st
             /\ Clock.hits st = (Z.of_nat (length (firstn n w))
                                 - Z.of_nat (distinct (firstn n w)))%Z.
Proof.
  intros Hcap.
  destruct (run_for_indexed (Clock.access memsize) clock_np w
              (fun seen a later st => clock_np_access memsize w seen a later st Hcap)
              n w [] Clock.init eq_refl represents_nil)
    as (st & Hrun & HR).
  exists st. split; [exact Hrun|]. simpl in HR. apply (represents_hits _ _ _ HR).
Qed.

(* ===================================================================== *)
(** * PRP_OPT on the reference scenario, for every iteration order *)
(* ===================================================================== *)

Lemma run_cons {St : Type} (step : St -> Z -> list Z -> outcome St)
    (st : St) (a : Z) (w : list Z) :
  run step st (a :: w) = (st' <- step st a w ;; run step st' w).
Proof. reflexivity. Qed.

Section OptScenario.
Context {H : Hashing}.

Lemma opt_access_hit memsize pages h a later :
  In a pages ->
  Opt.access memsize (Opt.mk pages h) a later = Ok (Opt.mk pages (h + 1)).
Proof.
  intros Hin. unfold Opt.access. simpl.
  apply count_pos_In in Hin. unfold Opt.uset_count. rewrite Hin. reflexivity.
Qed.

Lemma opt_access_room memsize pages h a later :
  ~ In a pages -> (N.of_nat (length pages) < memsize)%N ->
  Opt.access memsize (Opt.mk pages h) a later
  = Ok (Opt.mk (uinsert a pages) h).
Proof.
  intros Hnin Hroom. unfold Opt.access, Opt.uset_insert, Opt.uset_count. simpl.
  assert (Hmiss : (0 <? count_occ Z.eq_dec pages a) = false).
  { destruct (0 <? count_occ Z.eq_dec pages a) eqn:Hc; [|reflexivity].
    apply count_pos_In in Hc. contradiction. }
  apply count_zero_not_In in Hnin. apply N.ltb_lt in Hroom.
  rewrite Hmiss, Hroom, Hnin. reflexivity.
Qed.

Lemma perm_pair (l : list Z) (x y : Z) :
  Permutation l [x; y] -> l = [x; y] \/ l = [y; x].
Proof. intros HP. apply Permutation_length_2_inv, Permutation_sym, HP. Qed.

(** A miss on two resident pages [x] and [v], when the scan leaves [v]
    alone whichever way the candidates are enumerated. *)
Lemma opt_access_decisive pages h a later x v :
  Permutation pages [x; v] -> x <> v -> a <> x -> a <> v ->
  Opt.narrow [x; v] (a :: later) = [v] ->
  Opt.narrow [v; x] (a :: later) = [v] ->
  exists pages',
    Opt.access 2 (Opt.mk pages h) a later = Ok (Opt.mk pages' h)
    /\ Permutation pages' [a; x].
Proof.
  intros HP Hxv Hax Hav Hn1 Hn2.
  assert (Hnarrow : Opt.narrow (ucopy pages) (a :: later) = [v]).
  { destruct (perm_pair (ucopy pages) x v) as [-> | ->]; [|assumption..].
    apply Permutation_trans with pages; [apply ucopy_perm | exact HP]. }
  assert (Herase : Opt.uset_erase v pages = [x]).
  { unfold Opt.uset_erase.
    destruct (perm_pair pages x v HP) as [-> | ->]; simpl;
      destruct (Z.eq_dec v x); destruct (Z.eq_dec v v); congruence. }
  assert (Hmiss : (0 <? Opt.uset_count a pages) = false).
  { destruct (0 <? Opt.uset_count a pages) eqn:Hc; [|reflexivity].
    apply count_pos_In in Hc. apply (Permutation_in _ HP) in Hc.
    simpl in Hc. intuition congruence. }
  assert (Hfull : (N.of_nat (length pages) <? 2)%N = false)
    by (rewrite (Permutation_length HP); reflexivity).
  assert (Hfresh : (Opt.uset_count a [x] =? 0) = true).
  { apply count_zero_not_In. simpl. intuition congruence. }
  exists (uinsert a [x]). split; [|apply uinsert_perm].
  unfold Opt.access. simpl Opt.pages_in_mem. simpl Opt.hits.
  rewrite Hmiss, Hfull, Hnarrow. cbn [bind Opt.uset_first].
  rewrite Herase. unfold Opt.uset_insert. rewrite Hfresh. reflexivity.
Qed.

Let hits_of (pages : list Z) (h : Z) (w : list Z) : outcome Z :=
  omap Opt.hits (run (Opt.access 2) (Opt.mk pages h) w).

Lemma opt_scenario_8 pages h a :
  NoDup pages -> ~ In a pages -> length pages = 2 ->
  hits_of pages h [a] = Ok h.
Proof.
  intros Hnd Hnin Hlen. unfold hits_of. rewrite run_cons.
  destruct (opt_access_full 2 (Opt.mk pages h) a [] Hnd Hnin)
    as (v & st' & _ & _ & Hacc & _ & _ & Hhits); simpl; [lia | lia |].
  rewrite Hacc. simpl in *. congruence.
Qed.

Lemma opt_scenario_7 pages h :
  Permutation pages [1; 4]%Z -> hits_of pages h [2; 3]%Z = Ok h.
Proof.
  intros HP. unfold hits_of. rewrite run_cons.
  assert (Hnd : NoDup pages).
  { apply Permutation_NoDup with [1; 4]%Z; [symmetry; exact HP|].
    repeat constructor; simpl; intuition discriminate. }
  assert (Hnin : ~ In 2%Z pages).
  { intros Hin. apply (Permutation_in _ HP) in Hin. simpl in Hin.
    intuition discriminate. }
  pose proof (Permutation_length HP) as Hlen. simpl in Hlen.
  destruct (opt_access_full 2 (Opt.mk pages h) 2%Z [3%Z] Hnd Hnin)
    as (v & st' & _ & Hv & Hacc & Hperm & Hsame & Hhits); simpl; [lia | lia |].
  rewrite Hacc. cbn [bind]. destruct st' as [pages' h']. simpl in *. subst h'.
  apply opt_scenario_8.
  - apply Permutation_NoDup with (2 :: remove Z.eq_dec v pages)%Z;
      [symmetry; exact Hperm|].
    constructor; [|apply remove_NoDup, Hnd].
    intros Hin. apply in_remove in Hin. tauto.
  - intros Hin. apply (Permutation_in _ Hperm) in Hin as [Hin|Hin];
      [discriminate|].
    apply in_remove in Hin as (Hin & _).
    apply (Permutation_in _ HP) in Hin. simpl in Hin. intuition discriminate.
  - lia.
Qed.

Lemma opt_scenario_6 pages h :
  Permutation pages [1; 4]%Z -> hits_of pages h [1; 2; 3]%Z = Ok (h + 1)%Z.
Proof.
  intros HP. unfold hits_of. rewrite run_cons, opt_access_hit.
  - cbn [bind]. apply opt_scenario_7, HP.
  - apply (Permutation_in _ (Permutation_sym HP)). left. reflexivity.
Qed.

Lemma opt_scenario_5 pages h :
  Permutation pages [1; 2]%Z -> hits_of pages h [4; 1; 2; 3]%Z = Ok (h + 1)%Z.
Proof.
  intros HP. unfold hits_of. rewrite run_cons.
  destruct (opt_access_decisive pages h 4%Z [1; 2; 3]%Z 1%Z 2%Z HP)
    as (pages' & Hacc & HP'); try discriminate; try reflexivity.
  rewrite Hacc. cbn [bind]. apply opt_scenario_6.
  apply Permutation_trans with [4; 1]%Z; [exact HP' | apply perm_swap].
Qed.

Lemma opt_scenario_4 pages h :
  Permutation pages [1; 3]%Z ->
  hits_of pages h [2; 4; 1; 2; 3]%Z = Ok (h + 1)%Z.
Proof.
  intros HP. unfold hits_of. rewrite run_cons.
  destruct (opt_access_decisive pages h 2%Z [4; 1; 2; 3]%Z 1%Z 3%Z HP)
    as (pages' & Hacc & HP'); try discriminate; try reflexivity.
  rewrite Hacc. cbn [bind]. apply opt_scenario_5.
  apply Permutation_trans with [2; 1]%Z; [exact HP' | apply perm_swap].
Qed.

Lemma opt_scenario_3 pages h :
  Permutation pages [1; 3]%Z ->
  hits_of pages h [1; 2; 4; 1; 2; 3]%Z = Ok (h + 1 + 1)%Z.
Proof.
  intros HP. unfold hits_of. rewrite run_cons, opt_access_hit.
  - cbn [bind]. apply opt_scenario_4, HP.
  - apply (Permutation_in _ (Permutation_sym HP)). left. reflexivity.
Qed.

Lemma opt_scenario_2 pages h :
  Permutation pages [1; 2]%Z ->
  hits_of pages h [3; 1; 2; 4; 1; 2; 3]%Z = Ok (h + 1 + 1)%Z.
Proof.
  intros HP. unfold hits_of. rewrite run_cons.
  destruct (opt_access_decisive pages h 3%Z [1; 2; 4; 1; 2; 3]%Z 1%Z 2%Z HP)
    as (pages' & Hacc & HP'); try discriminate; try reflexivity.
  rewrite Hacc. cbn [bind]. apply opt_scenario_3.
  apply Permutation_trans with [3; 1]%Z; [exact HP' | apply perm_swap].
Qed.

(** Whatever the iteration order of the resident set, the evaluator
    finds two hits in the reference scenario. *)
Lemma opt_scenario :
  PRP_OPT [1; 2; 3; 1; 2; 4; 1; 2; 3]%Z 2 = Ok 2%Z.
Proof.
  unfold Opt.PRP_OPT, Opt.init.
  rewrite run_cons, opt_access_room; [|simpl; tauto | simpl; lia]. cbn [bind].
  rewrite run_cons, opt_access_room.
  - cbn [bind]. apply (opt_scenario_2 _ 0%Z).
    apply Permutation_trans with (2 :: uinsert 1 [])%Z; [apply uinsert_perm|].
    apply Permutation_trans with [2; 1]%Z; [|apply perm_swap].
    apply perm_skip, uinsert_perm.
  - intros Hin. apply (Permutation_in _ (uinsert_perm _ 1%Z [])) in Hin.
    simpl in Hin. intuition discriminate.
  - rewrite (Permutation_length (uinsert_perm _ 1%Z [])). simpl. lia.
Qed.
End OptScenario.

(* ===================================================================== *)
(** * Facts shared by the five evaluators *)
(* ===================================================================== *)

Lemma distinct_le_length (w : list Z) : distinct w <= length w.
Proof.
  unfold distinct. apply NoDup_incl_length; [apply NoDup_nodup|].
  intros x Hx. apply nodup_In in Hx. exact Hx.
Qed.

Section Shared.
Context {H : Hashing} {E : RandomEngine}.

Lemma hits_after_all p now w memsize n :
  length w <= n -> hits_after p now w memsize n = evaluate p now w memsize.
Proof.
  intros Hn. destruct p; simpl;
    unfold PRP_FIFO, Opt.PRP_OPT, Rand.PRP_RAND, Lru.PRP_LRU, PRP_CLOCK;
    rewrite run_for_all by exact Hn; reflexivity.
Qed.

(** With no pressure the counter after [n] accesses is [n] minus the
    number of distinct pages among them. *)
Lemma np_hits_after p now w memsize n :
  (p = FIFO -> ~ In INVALID_PAGE w) ->
  (N.of_nat (distinct w) <= memsize)%N ->
  hits_after p now w memsize n
  = Ok (Z.of_nat (length (firstn n w)) - Z.of_nat (distinct (firstn n w)))%Z.
Proof.
  intros Hvalid Hcap. destruct p; simpl.
  - destruct (fifo_np_run memsize w n (Hvalid eq_refl) Hcap) as (st & -> & <-).
    reflexivity.
  - destruct (opt_np_run memsize w n Hcap) as (st & -> & <-). reflexivity.
  - destruct (rand_np_run memsize now w n Hcap) as (st & -> & <-). reflexivity.
  - destruct (lru_np_run memsize w n Hcap) as (st & -> & <-). reflexivity.
  - destruct (clock_np_run memsize w n Hcap) as (st & -> & <-). reflexivity.
Qed.

(** The counter never exceeds the number of accesses processed. *)
Lemma hits_after_bounds p now w memsize n h :
  hits_after p now w memsize n = Ok h ->
  (0 <= h <= Z.of_nat (Nat.min n (length w)))%Z.
Proof.
  destruct p; simpl; intros Hh; apply omap_Ok in Hh as (st & Hrun & ->).
  - apply (run_for_counter Fifo.access Fifo.hits fifo_access_hits) in Hrun.
    simpl in Hrun. lia.
  - apply (run_for_counter _ Opt.hits (opt_access_hits memsize)) in Hrun.
    simpl in Hrun. lia.
  - apply (run_for_counter _ Rand.hits (rand_access_hits memsize)) in Hrun.
    simpl in Hrun. lia.
  - apply (run_for_counter _ Lru.hits (lru_access_hits memsize)) in Hrun.
    simpl in Hrun. lia.
  - apply (run_for_counter _ Clock.hits (clock_access_hits memsize)) in Hrun.
    simpl in Hrun. lia.
Qed.

(** Every evaluator runs to completion when the capacity is positive,
    and [PRP_LRU] for every capacity. *)
Lemma resident_after_total p now w memsize n :
  (1 <= memsize)%N \/ p = LRU ->
  exists r, resident_after p now w memsize n = Ok r.
Proof.
  intros Hcap. destruct p; simpl;
    try (destruct Hcap as [Hcap|Hcap]; [|discriminate]).
  - destruct (run_for_total Fifo.access (fifo_inv memsize)
                (fun st a later => fifo_access_total memsize st a later Hcap)
                n w _ (fifo_inv_init memsize)) as (st & -> & _).
    simpl. eauto.
  - destruct (run_for_total (Opt.access memsize) (opt_inv memsize)
                (fun st a later => opt_access_total memsize st a later Hcap)
                n w _ (opt_inv_init memsize)) as (st & -> & _).
    simpl. eauto.
  - destruct (run_for_total (Rand.access memsize) (rand_inv memsize)
                (fun st a later => rand_access_total memsize st a later Hcap)
                n w _ (rand_inv_init memsize now)) as (st & -> & _).
    simpl. eauto.
  - destruct (run_for_total (Lru.access memsize) (lru_inv memsize)
                (lru_access_total memsize)
                n w _ (lru_inv_init memsize)) as (st & -> & _).
    simpl. eauto.
  - destruct (run_for_total (Clock.access memsize) (clock_inv memsize)
                (fun st a later => clock_access_total memsize st a later Hcap)
                n w _ (clock_inv_init memsize)) as (st & -> & _).
    simpl. eauto.
Qed.

Lemma hits_after_total p now w memsize n :
  (1 <= memsize)%N \/ p = LRU ->
  exists h, hits_after p now w memsize n = Ok h.
Proof.
  intros Hcap.
  destruct (resident_after_total p now w memsize n Hcap) as (r & Hr).
  destruct p; simpl in *; apply omap_Ok in Hr as (st & -> & _); simpl; eauto.
Qed.

End Shared.

(* ===================================================================== *)
(** * The properties of the specification *)
(* ===================================================================== *)

(** C8.  For every evaluator, workload and capacity, a returned hit count
    lies between 0 and the length of the workload; an empty workload gives
    0 for every capacity; and with a capacity of at least 1 (for
    [PRP_LRU], with any capacity) a hit count is returned. *)
Theorem hit_count_bounds (H : Hashing) (E : RandomEngine) (p : policy)
    (now : Z) (w : list Z) (memsize : N) :
  (forall h, evaluate p now w memsize = Ok h ->
             (0 <= h <= Z.of_nat (length w))%Z)
  /\ evaluate p now [] memsize = Ok 0%Z
  /\ ((1 <= memsize)%N \/ p = LRU -> exists h, evaluate p now w memsize = Ok h).
Proof.
  split; [|split].
  - intros h Hh. rewrite <- (hits_after_all p now w memsize (length w)) in Hh
      by lia.
    apply hits_after_bounds in Hh. lia.
  - destruct p; reflexivity.
  - intros Hcap. rewrite <- (hits_after_all p now w memsize (length w)) by lia.
    apply hits_after_total, Hcap.
Qed.

Lemma hit_count_bounds_witness :
  (0 <= 1 <= Z.of_nat (length [1; 2; 1]%Z))%Z
  /\ exists h, @evaluate front_order minstd_rand0 FIFO 0 [1; 2; 1]%Z 2 = Ok h.
Proof.
  destruct (hit_count_bounds front_order minstd_rand0 FIFO 0 [1; 2; 1]%Z 2)
    as (Hbound & _ & Htotal).
  split.
  - apply Hbound. reflexivity.
  - apply Htotal. left. lia.
Defined.



(** C5, as the evaluators have it.  For every evaluator and every workload
    (for [PRP_FIFO]: every workload without the page -1), when the capacity
    is at least the number of distinct pages, the hit count is the length
    of the workload minus the number of distinct pages, and each access is
    a hit exactly when its page occurred earlier in the workload. *)
Theorem no_pressure_hits (H : Hashing) (E : RandomEngine) (p : policy)
    (now : Z) (w : list Z) (memsize : N) :
  (p = FIFO -> ~ In INVALID_PAGE w) ->
  (N.of_nat (distinct w) <= memsize)%N ->
  evaluate p now w memsize
  = Ok (Z.of_nat (length w) - Z.of_nat (distinct w))%Z
  /\ forall seen a later, w = seen ++ a :: later ->
       exists h,
         hits_after p now w memsize (length seen) = Ok h
         /\ hits_after p now w memsize (S (length seen))
            = Ok (if in_dec Z.eq_dec a seen then h + 1 else h)%Z.
Proof.
  intros Hvalid Hcap. split.
  - rewrite <- (hits_after_all p now w memsize (length w)) by lia.
    rewrite (np_hits_after p now w memsize _ Hvalid Hcap), firstn_all.
    reflexivity.
  - intros seen a later Hw.
    rewrite !(np_hits_after p now w memsize _ Hvalid Hcap).
    rewrite Hw, firstn_prefix, firstn_snoc, distinct_snoc, length_app.
    eexists. split; [reflexivity|]. f_equal. simpl length.
    destruct (in_dec Z.eq_dec a seen); lia.
Qed.

Lemma no_pressure_hits_witness :
  @evaluate front_order minstd_rand0 FIFO 0 [1; 2; 1; 2]%Z 2 = Ok 2%Z
  /\ exists h,
       @hits_after front_order minstd_rand0 FIFO 0 [1; 2; 1; 2]%Z 2 2 = Ok h
       /\ @hits_after front_order minstd_rand0 FIFO 0 [1; 2; 1; 2]%Z 2 3
          = Ok (if in_dec Z.eq_dec 1%Z [1; 2]%Z then h + 1 else h)%Z.
Proof.
  destruct (no_pressure_hits front_order minstd_rand0 FIFO 0 [1; 2; 1; 2]%Z 2)
    as (Hcount & Heach).
  - intros _. unfold INVALID_PAGE. simpl. intuition discriminate.
  - vm_compute. discriminate.
  - split; [exact Hcount|].
    apply (Heach [1; 2]%Z 1%Z [2]%Z). reflexivity.
Defined.

(** C5 fails on [PRP_FIFO] when the workload holds the page -1: the single
    access of [[-1]] is counted as a hit, although it is the first
    occurrence of its page. *)
Lemma no_pressure_fifo_counterexample :
  (N.of_nat (distinct [-1]%Z) <= 1)%N
  /\ @evaluate front_order minstd_rand0 FIFO 0 [-1]%Z 1 = Ok 1%Z
  /\ (Z.of_nat (length [-1]%Z) - Z.of_nat (distinct [-1]%Z))%Z = 0%Z.
Proof. vm_compute. repeat split. discriminate. Qed.

(** The scan of [PRP_OPT] tests [count(workload[j] > 0)], that is, whether
    page 1 (or page 0) is a candidate.  With the pages 0 and 5 resident and
    the accesses 7, 5, 7, 0 ahead, it therefore never drops page 5, drops
    page 0 when it reaches it, and evicts page 5, the page used next. *)
Lemma opt_scan_misses_next_use (H : Hashing) (pages : list Z) (h : Z) :
  Permutation pages [0; 5]%Z ->
  exists pages',
    Opt.access 2 (Opt.mk pages h) 7%Z [5; 7; 0]%Z = Ok (Opt.mk pages' h)
    /\ Permutation pages' [7; 0]%Z.
Proof.
  intros HP.
  apply (opt_access_decisive pages h 7%Z [5; 7; 0]%Z 0%Z 5%Z HP);
    try discriminate; reflexivity.
Qed.

(** On a miss with a full, non-empty resident set [PRP_OPT] evicts
    exactly one resident page and admits the accessed page; on the workload
    [1,2,3,1,2,4,1,2,3] with capacity 2 it returns 2 hits whatever the
    iteration order of the set, which is also the count of eviction by
    furthest next occurrence. *)
Theorem opt_evicts_one_resident (H : Hashing) :
  (forall memsize st a later,
      NoDup (Opt.pages_in_mem st) ->
      ~ In a (Opt.pages_in_mem st) ->
      (memsize <= N.of_nat (length (Opt.pages_in_mem st)))%N ->
      1 <= length (Opt.pages_in_mem st) ->
      exists victim st',
        In victim (Opt.pages_in_mem st)
        /\ Opt.access memsize st a later = Ok st'
        /\ Permutation (Opt.pages_in_mem st')
                       (a :: remove Z.eq_dec victim (Opt.pages_in_mem st))
        /\ length (Opt.pages_in_mem st') = length (Opt.pages_in_mem st)
        /\ Opt.hits st' = Opt.hits st)
  /\ PRP_OPT [1; 2; 3; 1; 2; 4; 1; 2; 3]%Z 2 = Ok 2%Z
  /\ BeladySpec.evaluate [1; 2; 3; 1; 2; 4; 1; 2; 3]%Z 2 = Ok 2%Z.
Proof.
  split; [|split].
  - intros memsize st a later Hnd Hnin Hfull Hne.
    destruct (opt_access_full memsize st a later Hnd Hnin Hfull Hne)
      as (victim & st' & _ & Hrest).
    exists victim, st'. exact Hrest.
  - apply opt_scenario.
  - reflexivity.
Qed.

Lemma opt_evicts_one_resident_witness :
  exists victim st',
    In victim [1; 2]%Z
    /\ @Opt.access front_order 2 (Opt.mk [1; 2]%Z 0) 3%Z [1; 2]%Z = Ok st'
    /\ Permutation (Opt.pages_in_mem st') (3%Z :: remove Z.eq_dec victim [1; 2]%Z)
    /\ length (Opt.pages_in_mem st') = 2
    /\ Opt.hits st' = 0%Z.
Proof.
  destruct (opt_evicts_one_resident front_order) as (Hstep & _).
  apply (Hstep 2%N (Opt.mk [1; 2]%Z 0) 3%Z [1; 2]%Z).
  - repeat constructor; simpl; intuition discriminate.
  - simpl. intuition discriminate.
  - simpl. lia.
  - simpl. lia.
Defined.

(** On the reference scenario [1,2,3,1,2,4,1,2,3] with capacity 2 the
    evaluator returns 2 hits under either instance of the library. *)
Lemma opt_reference_counterexample :
  @PRP_OPT front_order [1; 2; 3; 1; 2; 4; 1; 2; 3]%Z 2 = Ok 2%Z
  /\ @PRP_OPT back_order [1; 2; 3; 1; 2; 4; 1; 2; 3]%Z 2 = Ok 2%Z.
Proof. split; apply opt_scenario. Qed.

(** With capacity 0 the cache of [PRP_LRU] is empty after every access. *)
Lemma lru_zero_run (H : Hashing) (w : list Z) :
  forall t, run (Lru.access 0) (Lru.mk [] t 0) w
            = Ok (Lru.mk [] (t + length w) 0).
Proof.
  induction w as [|a w IH]; intros t.
  - unfold run. simpl. rewrite Nat.add_0_r. reflexivity.
  - rewrite run_cons. unfold Lru.access. simpl.
    assert (Hnil : Lru.evict 0 (Lru.umap_emplace a t []) = []).
    { apply length_zero_iff_nil.
      pose proof (lru_evict_bound 0 (Lru.umap_emplace a t [])). lia. }
    rewrite Hnil. rewrite IH. do 2 f_equal. lia.
Qed.

(** C2 on the code.  With capacity 0 and a non-empty workload, [PRP_FIFO]
    throws [out_of_range] at its first access and [PRP_OPT], [PRP_RAND] and
    [PRP_CLOCK] run into undefined behaviour; only [PRP_LRU] returns 0. *)
Theorem capacity_zero_outcomes (H : Hashing) (E : RandomEngine) (now : Z)
    (w : list Z) :
  w <> [] ->
  PRP_FIFO w 0 = Fail out_of_range
  /\ PRP_OPT w 0 = Fail undefined_behaviour
  /\ PRP_RAND now w 0 = Fail undefined_behaviour
  /\ PRP_CLOCK w 0 = Fail undefined_behaviour
  /\ PRP_LRU w 0 = Ok 0%Z.
Proof.
  intros Hw. destruct w as [|a w]; [congruence|].
  split; [reflexivity|]. split; [|split; [reflexivity|split; [reflexivity|]]].
  - unfold Opt.PRP_OPT. rewrite run_cons. unfold Opt.access, Opt.init. simpl.
    rewrite (Permutation_nil (Permutation_sym (ucopy_perm Z []))). reflexivity.
  - unfold Lru.PRP_LRU, Lru.init. rewrite lru_zero_run. reflexivity.
Qed.

Lemma capacity_zero_outcomes_witness :
  PRP_FIFO [1]%Z 0 = Fail out_of_range
  /\ @PRP_OPT front_order [1]%Z 0 = Fail undefined_behaviour
  /\ @PRP_RAND minstd_rand0 0 [1]%Z 0 = Fail undefined_behaviour
  /\ PRP_CLOCK [1]%Z 0 = Fail undefined_behaviour
  /\ @PRP_LRU front_order [1]%Z 0 = Ok 0%Z.
Proof.
  apply (capacity_zero_outcomes front_order minstd_rand0 0 [1]%Z).
  discriminate.
Defined.

(** C3 on the code.  With capacity 0 the first access of [PRP_FIFO] indexes
    the empty slot array, so that [at] throws, and the first access of
    [PRP_OPT], [PRP_RAND] and [PRP_CLOCK] dereferences or indexes an empty
    container; the remainder that advances the head of [PRP_FIFO] has no
    guard against a slot count of 0. *)
Theorem zero_capacity_faults (H : Hashing) (E : RandomEngine) (now : Z)
    (a : Z) (later : list Z) :
  Fifo.access (Fifo.init 0) a later = Fail out_of_range
  /\ size_rem (Fifo.cachedPagesHead (Fifo.init 0) + 1)
              (length (Fifo.cachedPages (Fifo.init 0)))
     = Fail undefined_behaviour
  /\ Opt.access 0 Opt.init a later = Fail undefined_behaviour
  /\ Rand.access 0 (Rand.init now) a later = Fail undefined_behaviour
  /\ Clock.access 0 Clock.init a later = Fail undefined_behaviour
  /\ PRP_FIFO [1]%Z 0 = Fail out_of_range.
Proof.
  repeat split.
  unfold Opt.access, Opt.init. simpl.
  rewrite (Permutation_nil (Permutation_sym (ucopy_perm Z []))). reflexivity.
Qed.

(** C4, as the evaluator has it.  [PRP_CLOCK] keeps no hand between
    accesses: on every miss with a full cache the sweep starts at the first
    entry.  It clears the use bits of the entries before the first one
    whose use bit is off and overwrites that one with the new page, use bit
    on; when every use bit is on it clears them all and overwrites the
    first entry. *)
Theorem clock_sweeps_from_first_entry (memsize : N) (h : Z) (a : Z)
    (later : list Z) :
  (forall pre p post,
      Forall clock_used pre ->
      ~ In a (map fst (pre ++ (p, false) :: post)) ->
      (memsize <= N.of_nat (length (pre ++ (p, false) :: post)))%N ->
      Clock.access memsize (Clock.mk (pre ++ (p, false) :: post) h) a later
      = Ok (Clock.mk (map clock_clear pre ++ (a, true) :: post) h))
  /\ (forall e rest,
        Forall clock_used (e :: rest) ->
        ~ In a (map fst (e :: rest)) ->
        (memsize <= N.of_nat (length (e :: rest)))%N ->
        Clock.access memsize (Clock.mk (e :: rest) h) a later
        = Ok (Clock.mk ((a, true) :: map clock_clear rest) h)).
Proof.
  split.
  - intros pre p post Hused Hmiss Hfull.
    unfold Clock.access. cbn [Clock.cache Clock.hits].
    apply clock_miss_test in Hmiss. apply N.ltb_ge in Hfull.
    rewrite Hmiss, Hfull, (clock_sweep_stop pre post p Hused).
    assert (Hhand : (length pre
                     =? length (map clock_clear pre ++ (p, false) :: post)) = false).
    { apply Nat.eqb_neq. rewrite length_app, length_map. simpl. lia. }
    rewrite Hhand. unfold Clock.replace_at.
    assert (Hin : (length pre
                   <? length (map clock_clear pre ++ (p, false) :: post)) = true).
    { apply Nat.ltb_lt. rewrite length_app, length_map. simpl. lia. }
    rewrite Hin. cbn [bind].
    rewrite <- (length_map clock_clear pre) at 1 2.
    rewrite put_at_end, <- app_assoc. reflexivity.
  - intros e rest Hused Hmiss Hfull.
    unfold Clock.access. cbn [Clock.cache Clock.hits].
    apply clock_miss_test in Hmiss. apply N.ltb_ge in Hfull.
    rewrite Hmiss, Hfull, (clock_sweep_all (e :: rest) Hused).
    rewrite length_map, Nat.eqb_refl. reflexivity.
Qed.

Lemma clock_sweeps_from_first_entry_witness :
  Clock.access 2 (Clock.mk [(3, true); (2, false)]%Z 0) 4%Z []
  = Ok (Clock.mk [(3, false); (4, true)]%Z 0)
  /\ Clock.access 2 (Clock.mk [(1, true); (2, true)]%Z 0) 3%Z []
     = Ok (Clock.mk [(3, true); (2, false)]%Z 0).
Proof.
  destruct (clock_sweeps_from_first_entry 2 0 4%Z []) as (Hstop & _).
  destruct (clock_sweeps_from_first_entry 2 0 3%Z []) as (_ & Hwrap).
  split.
  - apply (Hstop [(3, true)]%Z 2%Z []).
    + repeat constructor.
    + simpl. intuition discriminate.
    + simpl. lia.
  - apply (Hwrap (1, true)%Z [(2, true)]%Z).
    + repeat constructor.
    + simpl. intuition discriminate.
    + simpl. lia.
Defined.

(** C4 fails: a Clock whose hand survives between misses finds one hit in
    [1,2,3,4,5,6,5] with capacity 2, whereas [PRP_CLOCK], whose sweep
    starts over at the first entry, finds none. *)
Lemma clock_hand_counterexample :
  PRP_CLOCK [1; 2; 3; 4; 5; 6; 5]%Z 2 = Ok 0%Z
  /\ ClockSpec.evaluate [1; 2; 3; 4; 5; 6; 5]%Z 2 = Ok 1%Z
  /\ run (Clock.access 2) Clock.init [1; 2; 3; 4]%Z
     = Ok (Clock.mk [(3, false); (4, true)]%Z 0)
  /\ run (ClockSpec.access 2) ClockSpec.init [1; 2; 3; 4]%Z
     = Ok (ClockSpec.mk [(3, true); (4, true)]%Z 0 0).
Proof. repeat split. Qed.

(** C9, as the evaluators have it.  The capacity is an [unsigned int]: a
    negative [int] argument [c] arrives as [c + 2^32], and [PRP_OPT],
    [PRP_RAND], [PRP_LRU] and [PRP_CLOCK] return the hit count of a cache
    that large, which for a workload shorter than [2^31] is its length
    minus its number of distinct pages. *)
Theorem negative_capacity_wraps (H : Hashing) (E : RandomEngine) (p : policy)
    (now : Z) (w : list Z) (c : Z) :
  p <> FIFO ->
  (- 2 ^ 31 <= c < 0)%Z ->
  (Z.of_nat (length w) < 2 ^ 31)%Z ->
  to_unsigned c = Z.to_N (c + 2 ^ 32)
  /\ evaluate_int p now w c
     = Ok (Z.of_nat (length w) - Z.of_nat (distinct w))%Z.
Proof.
  intros Hp Hc Hlen.
  assert (Hwrap : to_unsigned c = Z.to_N (c + 2 ^ 32)).
  { unfold to_unsigned. f_equal.
    symmetry. apply Z.mod_unique with (-1)%Z; lia. }
  split; [exact Hwrap|].
  unfold evaluate_int.
  rewrite <- (hits_after_all p now w (to_unsigned c) (length w)) by lia.
  rewrite np_hits_after, firstn_all; [reflexivity | congruence |].
  rewrite Hwrap. pose proof (distinct_le_length w). lia.
Qed.

Lemma negative_capacity_wraps_witness :
  to_unsigned (-1) = Z.to_N (-1 + 2 ^ 32)
  /\ @evaluate_int front_order minstd_rand0 LRU 0 [7; 7]%Z (-1)
     = Ok (Z.of_nat (length [7; 7]%Z) - Z.of_nat (distinct [7; 7]%Z))%Z.
Proof.
  apply (negative_capacity_wraps front_order minstd_rand0 LRU 0 [7; 7]%Z (-1)).
  - discriminate.
  - lia.
  - simpl. lia.
Defined.

(** C9 fails: called with capacity -1, [PRP_LRU] signals nothing and
    returns the hit count 1 for the workload [7,7]. *)
Lemma negative_capacity_counterexample :
  @evaluate_int front_order minstd_rand0 LRU 0 [7; 7]%Z (-1) = Ok 1%Z.
Proof. vm_compute. reflexivity. Qed.

(** C10.  In [PRP_FIFO] an access to page -1 while a slot still holds the
    sentinel -1 is counted as a hit and changes neither the slots nor the
    head; with a capacity of at least 1 the workload [-1] gives 1 hit. *)
Theorem fifo_sentinel_hit :
  (forall st later,
      In INVALID_PAGE (Fifo.cachedPages st) ->
      Fifo.access st INVALID_PAGE later
      = Ok (Fifo.mk (Fifo.cachedPages st) (Fifo.cachedPagesHead st)
                    (Fifo.hits st + 1)))
  /\ (forall memsize, (1 <= memsize)%N -> PRP_FIFO [INVALID_PAGE] memsize = Ok 1%Z)
  /\ PRP_FIFO [-1]%Z 1 = Ok 1%Z.
Proof.
  assert (Hstep : forall st later,
             In INVALID_PAGE (Fifo.cachedPages st) ->
             Fifo.access st INVALID_PAGE later
             = Ok (Fifo.mk (Fifo.cachedPages st) (Fifo.cachedPagesHead st)
                           (Fifo.hits st + 1))).
  { intros st later Hin. unfold Fifo.access.
    apply count_pos_In in Hin. rewrite Hin. reflexivity. }
  split; [exact Hstep|]. split; [|reflexivity].
  intros memsize Hcap. unfold PRP_FIFO. rewrite run_cons, Hstep.
  - reflexivity.
  - unfold Fifo.init. simpl.
    destruct (N.to_nat memsize) as [|m] eqn:Hm; [lia|]. left. reflexivity.
Qed.

Lemma fifo_sentinel_hit_witness :
  Fifo.access (Fifo.mk [5; -1]%Z 1 0) INVALID_PAGE []
  = Ok (Fifo.mk [5; -1]%Z 1 1)
  /\ PRP_FIFO [INVALID_PAGE] 3 = Ok 1%Z.
Proof.
  destruct fifo_sentinel_hit as (Hstep & Hfirst & _). split.
  - apply (Hstep (Fifo.mk [5; -1]%Z 1 0) []). right. left. reflexivity.
  - apply Hfirst. lia.
Defined.

(* ===================================================================== *)
(** * PRP_LRU keeps the most recently used pages *)
(* ===================================================================== *)

Lemma firstn_In {A : Type} (k : nat) (l : list A) (x : A) :
  In x (firstn k l) -> In x l.
Proof.
  intros Hin. rewrite <- (firstn_skipn k l). apply in_or_app. left. exact Hin.
Qed.

Lemma firstn_In_le {A : Type} (j k : nat) (l : list A) (x : A) :
  j <= k -> In x (firstn j l) -> In x (firstn k l).
Proof.
  intros Hle Hin. replace j with (Nat.min j k) in Hin by lia.
  rewrite <- firstn_firstn in Hin. apply firstn_In in Hin. exact Hin.
Qed.

Lemma firstn_remove_absent (a : Z) (l : list Z) :
  forall k, ~ In a (firstn k l) ->
            firstn k (remove Z.eq_dec a l) = firstn k l.
Proof.
  induction l as [|x l IH]; intros k Hnin; [destruct k; reflexivity|].
  destruct k as [|k]; [reflexivity|]. simpl in Hnin. simpl.
  destruct (Z.eq_dec a x) as [->|Hne]; [tauto|].
  simpl. f_equal. apply IH. tauto.
Qed.

Lemma firstn_remove_present (a : Z) (l : list Z) :
  NoDup l ->
  forall k, In a (firstn (S k) l) ->
            firstn k (remove Z.eq_dec a l) = remove Z.eq_dec a (firstn (S k) l).
Proof.
  induction 1 as [|x l Hx Hnd IH]; intros k Hin; [destruct Hin|].
  simpl in Hin. simpl. destruct (Z.eq_dec a x) as [->|Hne].
  - rewrite notin_remove by assumption.
    rewrite notin_remove; [reflexivity|].
    intros Hin'. apply Hx. apply (firstn_In k l x Hin').
  - destruct Hin as [Heq|Hin]; [congruence|].
    destruct k as [|k]; [destruct Hin|].
    change (firstn (S k) (x :: remove Z.eq_dec a l))
      with (x :: firstn k (remove Z.eq_dec a l)).
    f_equal. apply IH, Hin.
Qed.

Lemma mru_touch_NoDup (a : Z) (l : list Z) : NoDup l -> NoDup (mru_touch a l).
Proof.
  intros Hnd. unfold mru_touch. constructor; [apply remove_In|].
  apply remove_NoDup, Hnd.
Qed.

(** The [c] most recently used pages after a use of a page that is among
    them, and after a use of one that is not. *)
Lemma mru_touch_firstn_hit (a : Z) (l : list Z) (c : nat) :
  NoDup l -> In a (firstn c l) ->
  firstn c (mru_touch a l) = a :: remove Z.eq_dec a (firstn c l).
Proof.
  intros Hnd Hin. destruct c as [|k]; [destruct Hin|].
  unfold mru_touch. simpl firstn at 1. f_equal.
  apply firstn_remove_present; assumption.
Qed.

Lemma mru_touch_firstn_miss (a : Z) (l : list Z) (k : nat) :
  ~ In a (firstn (S k) l) ->
  firstn (S k) (mru_touch a l) = a :: firstn k l.
Proof.
  intros Hnin. unfold mru_touch. simpl firstn at 1. f_equal.
  apply firstn_remove_absent. intros Hin. apply Hnin.
  apply (firstn_In_le k (S k)); [lia | exact Hin].
Qed.

(** Entries in order of decreasing time of last access. *)
Definition lru_desc (L : list Lru.entry) : Prop :=
  StronglySorted (fun e1 e2 : Lru.entry => snd e2 < snd e1) L.

Lemma lru_desc_filter (f : Lru.entry -> bool) (L : list Lru.entry) :
  lru_desc L -> lru_desc (filter f L).
Proof.
  induction 1 as [|e L Hsorted IH Hall]; simpl; [constructor|].
  destruct (f e); [|exact IH].
  constructor; [exact IH|].
  apply Forall_forall. intros x Hx. apply filter_In in Hx as (Hx & _).
  rewrite Forall_forall in Hall. apply Hall, Hx.
Qed.

Lemma lru_desc_last (init : list Lru.entry) (lst : Lru.entry) :
  lru_desc (init ++ [lst]) ->
  lru_desc init /\ Forall (fun e => snd lst < snd e) init.
Proof.
  induction init as [|e init IH]; simpl; intros Hd.
  - split; constructor.
  - apply StronglySorted_inv in Hd as (Hd & Hall).
    destruct (IH Hd) as (Hinit & Hlast). split.
    + constructor; [exact Hinit|].
      rewrite Forall_forall in *. intros x Hx. apply Hall.
      apply in_or_app. left. exact Hx.
    + constructor; [|exact Hlast].
      rewrite Forall_forall in Hall. apply Hall.
      apply in_or_app. right. left. reflexivity.
Qed.

Lemma lru_nth_erase_perm (m : list Lru.entry) :
  forall i e, nth_error m i = Some e -> Permutation m (e :: Lru.erase_at i m).
Proof.
  induction m as [|x m IH]; intros i e Hnth; [destruct i; discriminate|].
  destruct i as [|i]; simpl in Hnth.
  - injection Hnth as ->. unfold Lru.erase_at. simpl. apply Permutation_refl.
  - apply IH in Hnth. unfold Lru.erase_at in *. simpl.
    apply Permutation_trans with (x :: e :: firstn i m ++ skipn (S i) m).
    + apply perm_skip. exact Hnth.
    + apply perm_swap.
Qed.

Lemma lru_update_absent (a : Z) (t : nat) (L : list Lru.entry) :
  ~ In a (map fst L) ->
  map (fun e : Lru.entry => if (fst e =? a)%Z then (a, t) else e) L = L
  /\ filter (fun e : Lru.entry => negb (fst e =? a)%Z) L = L.
Proof.
  induction L as [|e L IH]; simpl; intros Hnin; [split; reflexivity|].
  destruct (Z.eqb_spec (fst e) a) as [Heq|Hne]; [tauto|].
  destruct IH as (IH1 & IH2); [tauto|]. simpl. rewrite IH1, IH2. split; reflexivity.
Qed.

Lemma lru_update_perm (a : Z) (t : nat) (L : list Lru.entry) :
  NoDup (map fst L) -> In a (map fst L) ->
  Permutation
    (map (fun e : Lru.entry => if (fst e =? a)%Z then (a, t) else e) L)
    ((a, t) :: filter (fun e : Lru.entry => negb (fst e =? a)%Z) L).
Proof.
  induction L as [|e L IH]; simpl; intros Hnd Hin; [destruct Hin|].
  inversion Hnd as [|? ? He HL]; subst.
  destruct (Z.eqb_spec (fst e) a) as [Heq|Hne]; simpl.
  - rewrite Heq in He. destruct (lru_update_absent a t L He) as (-> & ->).
    apply Permutation_refl.
  - destruct Hin as [Heq|Hin]; [congruence|].
    apply Permutation_trans
      with (e :: (a, t) :: filter (fun e : Lru.entry => negb (fst e =? a)%Z) L).
    + apply perm_skip. apply IH; assumption.
    + apply perm_swap.
Qed.

Lemma lru_filter_keys (a : Z) (L : list Lru.entry) :
  map fst (filter (fun e : Lru.entry => negb (fst e =? a)%Z) L)
  = remove Z.eq_dec a (map fst L).
Proof.
  induction L as [|e L IH]; [reflexivity|]. simpl.
  destruct (Z.eqb_spec (fst e) a) as [Heq|Hne]; simpl;
    destruct (Z.eq_dec a (fst e)) as [Heq'|Hne']; congruence.
Qed.

(** The cache holds the [c] most recently used pages of [l], each with a
    time of last access below the current time, the more recently used page
    with the later time. *)
Definition lru_stack_inv (c : nat) (l : list Z) (st : Lru.state) : Prop :=
  NoDup l
  /\ exists L,
       Permutation (Lru.cache st) L
       /\ map fst L = firstn c l
       /\ lru_desc L
       /\ Forall (fun e : Lru.entry => snd e < Lru.time st) L.

Lemma lru_stack_inv_init (c : nat) : lru_stack_inv c [] Lru.init.
Proof.
  split; [constructor|]. exists []. simpl.
  split; [apply Permutation_refl|]. split; [destruct c; reflexivity|].
  split; constructor.
Qed.

Section LruStack.
Context {H : Hashing}.

Lemma lru_stack_access memsize l st a later :
  lru_stack_inv (N.to_nat memsize) l st ->
  exists st',
    Lru.access memsize st a later = Ok st'
    /\ lru_stack_inv (N.to_nat memsize) (mru_touch a l) st'
    /\ Lru.hits st'
       = (Lru.hits st
          + if in_dec Z.eq_dec a (firstn (N.to_nat memsize) l) then 1 else 0)%Z.
Proof.
  intros (Hnd & L & HP & Hkeys & Hdesc & Hlt).
  set (c := N.to_nat memsize) in *.
  assert (Hpk : Permutation (map fst (Lru.cache st)) (firstn c l)).
  { rewrite <- Hkeys. apply Permutation_map, HP. }
  assert (HndL : NoDup (map fst L)).
  { rewrite Hkeys. rewrite <- (firstn_skipn c l) in Hnd.
    apply NoDup_app_remove_r in Hnd. exact Hnd. }
  unfold Lru.access, Lru.umap_at_put.
  destruct (in_dec Z.eq_dec a (firstn c l)) as [Hin|Hnin].
  - (* a hit: the entry of the page gets the current time *)
    assert (Hc : (Lru.umap_count a (Lru.cache st) =? 0) = false).
    { destruct (Lru.umap_count a (Lru.cache st) =? 0) eqn:Hc; [|reflexivity].
      apply lru_count_In in Hc. exfalso. apply Hc.
      apply (Permutation_in _ (Permutation_sym Hpk)), Hin. }
    rewrite Hc. cbn [bind]. eexists. split; [reflexivity|].
    split; [|reflexivity]. split; [apply mru_touch_NoDup, Hnd|].
    exists ((a, Lru.time st)
            :: filter (fun e : Lru.entry => negb (fst e =? a)%Z) L).
    cbn [Lru.cache Lru.time]. split; [|split; [|split]].
    + apply Permutation_trans
        with (map (fun e : Lru.entry => if (fst e =? a)%Z then (a, Lru.time st) else e) L).
      * apply Permutation_map, HP.
      * apply lru_update_perm; [exact HndL | rewrite Hkeys; exact Hin].
    + cbn [map fst]. rewrite lru_filter_keys, Hkeys.
      symmetry. apply mru_touch_firstn_hit; assumption.
    + constructor; [apply lru_desc_filter, Hdesc|].
      apply Forall_forall. intros x Hx. apply filter_In in Hx as (Hx & _).
      rewrite Forall_forall in Hlt. apply Hlt, Hx.
    + constructor; [simpl; lia|].
      apply Forall_forall. intros x Hx. apply filter_In in Hx as (Hx & _).
      rewrite Forall_forall in Hlt. specialize (Hlt x Hx). lia.
  - (* a miss: the page enters with the current time *)
    assert (Hc : (Lru.umap_count a (Lru.cache st) =? 0) = true).
    { apply lru_count_In. intros Hin. apply Hnin.
      apply (Permutation_in _ Hpk), Hin. }
    rewrite Hc. eexists. split; [reflexivity|].
    split; [|cbn [Lru.hits]; lia]. split; [apply mru_touch_NoDup, Hnd|].
    cbn [Lru.cache Lru.time]. unfold Lru.umap_emplace. rewrite Hc.
    set (m := uinsert (a, Lru.time st) (Lru.cache st)).
    assert (Hm : Permutation m ((a, Lru.time st) :: L)).
    { apply Permutation_trans with ((a, Lru.time st) :: Lru.cache st);
        [apply uinsert_perm | apply perm_skip, HP]. }
    assert (HlenL : length L = length (firstn c l))
      by (rewrite <- Hkeys, length_map; reflexivity).
    pose proof (firstn_le_length c l) as Hle.
    assert (Hdesc1 : lru_desc ((a, Lru.time st) :: L))
      by (constructor; assumption).
    assert (Hlt1 : Forall (fun e : Lru.entry => snd e < S (Lru.time st))
                     ((a, Lru.time st) :: L)).
    { constructor; [simpl; lia|].
      apply Forall_forall. intros x Hx.
      rewrite Forall_forall in Hlt. specialize (Hlt x Hx). lia. }
    pose proof (Permutation_length Hm) as Hmlen. simpl in Hmlen.
    destruct (Nat.eq_dec (length L) c) as [Hfull|Hroom].
    + (* the cache was full: the oldest entry leaves *)
      destruct (lru_evict_one memsize m) as (Hevict & _); [unfold c, Lru.entry in *; lia|].
      rewrite Hevict.
      destruct (lru_oldestEntry_spec m) as (e1 & Hnth & Hmin);
        [unfold Lru.entry in *; lia|].
      destruct (exists_last (l := (a, Lru.time st) :: L)) as (init & lst & Hsplit);
        [discriminate|].
      rewrite Hsplit in Hdesc1, Hlt1, Hm.
      destruct (lru_desc_last init lst Hdesc1) as (Hdinit & Hlast).
      assert (He1 : e1 = lst).
      { assert (Hin1 : In e1 (init ++ [lst])).
        { apply (Permutation_in _ Hm). apply nth_error_In with (Lru.oldestEntry m).
          exact Hnth. }
        apply in_app_or in Hin1 as [Hin1|[Heq|[]]]; [|congruence].
        exfalso. rewrite Forall_forall in Hlast. specialize (Hlast e1 Hin1).
        assert (Hlm : In lst m).
        { apply (Permutation_in _ (Permutation_sym Hm)).
          apply in_or_app. right. left. reflexivity. }
        specialize (Hmin lst Hlm). lia. }
      subst e1.
      exists init. split; [|split; [|split]].
      * apply Permutation_cons_inv with lst.
        apply Permutation_trans with m.
        -- apply Permutation_sym, lru_nth_erase_perm, Hnth.
        -- apply Permutation_trans with (init ++ [lst]); [exact Hm|].
           apply Permutation_sym, Permutation_cons_append.
      * assert (Hk : map fst init = removelast (a :: firstn c l)).
        { rewrite <- Hkeys.
          change (a :: map fst L) with (map fst ((a, Lru.time st) :: L)).
          rewrite Hsplit, map_app. simpl. rewrite removelast_last. reflexivity. }
        rewrite Hk. destruct c as [|k] eqn:Hck.
        -- reflexivity.
        -- rewrite mru_touch_firstn_miss by exact Hnin.
           assert (Hlong : k < length l).
           { rewrite length_firstn in HlenL. lia. }
           destruct (firstn (S k) l) as [|y r] eqn:Hf; [simpl in HlenL; lia|].
           change (removelast (a :: y :: r)) with (a :: removelast (y :: r)).
           rewrite <- Hf, removelast_firstn by exact Hlong. reflexivity.
      * exact Hdinit.
      * apply Forall_app in Hlt1 as (Hlt1 & _). exact Hlt1.
    + (* there was room *)
      rewrite lru_evict_none by (unfold c, Lru.entry in *; lia).
      exists ((a, Lru.time st) :: L). split; [exact Hm|].
      split; [|split; assumption].
      cbn [map fst]. rewrite Hkeys.
      destruct c as [|k]; [simpl in HlenL; lia|].
      rewrite mru_touch_firstn_miss by exact Hnin.
      assert (Hshort : length l <= k).
      { rewrite length_firstn in HlenL. lia. }
      rewrite !firstn_all2 by lia. reflexivity.
Qed.

Lemma lru_stack_run memsize (w : list Z) :
  forall l st,
    lru_stack_inv (N.to_nat memsize) l st ->
    exists st',
      run (Lru.access memsize) st w = Ok st'
      /\ Lru.hits st' = (Lru.hits st + stack_hits (N.to_nat memsize) l w)%Z.
Proof.
  induction w as [|a w IH]; intros l st Hinv.
  - exists st. split; [reflexivity|]. simpl. lia.
  - destruct (lru_stack_access memsize l st a w Hinv) as (st1 & Hacc & Hinv1 & Hh1).
    destruct (IH _ _ Hinv1) as (st' & Hrun & Hh).
    exists st'. rewrite run_cons, Hacc. split; [exact Hrun|].
    rewrite Hh, Hh1. simpl stack_hits. lia.
Qed.
End LruStack.

Lemma stack_hits_mono (w : list Z) :
  forall l c1 c2, c1 <= c2 -> (stack_hits c1 l w <= stack_hits c2 l w)%Z.
Proof.
  induction w as [|a w IH]; intros l c1 c2 Hle; simpl; [lia|].
  specialize (IH (mru_touch a l) c1 c2 Hle).
  destruct (in_dec Z.eq_dec a (firstn c1 l)) as [Hin|Hnin];
    destruct (in_dec Z.eq_dec a (firstn c2 l)) as [Hin'|Hnin']; try lia.
  exfalso. apply Hnin'. apply (firstn_In_le c1 c2); assumption.
Qed.

Lemma lru_stack_result (H : Hashing) (w : list Z) (memsize : N) :
  PRP_LRU w memsize = Ok (stack_hits (N.to_nat memsize) [] w).
Proof.
  unfold Lru.PRP_LRU.
  destruct (lru_stack_run memsize w [] Lru.init
              (lru_stack_inv_init (N.to_nat memsize))) as (st & -> & Hh).
  simpl in *. rewrite Hh. reflexivity.
Qed.

Lemma stack_hits_app (c : nat) (w1 w2 : list Z) :
  forall l,
    stack_hits c l (w1 ++ w2)
    = (stack_hits c l w1
       + stack_hits c (fold_left (fun l x => mru_touch x l) w1 l) w2)%Z.
Proof.
  induction w1 as [|x w1 IH]; intros l; cbn [stack_hits app fold_left]; [lia|].
  rewrite IH. lia.
Qed.

(** X1.  For every capacity and every iteration order of the map,
    [PRP_LRU] counts an access as a hit exactly when its page is among the
    [memsize] most recently used pages: its result is [stack_hits], and an
    access that follows [seen] raises the counter exactly in that case. *)
Theorem lru_counts_recent_pages (H : Hashing) (w : list Z) (memsize : N) :
  PRP_LRU w memsize = Ok (stack_hits (N.to_nat memsize) [] w)
  /\ forall seen a,
       exists h,
         PRP_LRU seen memsize = Ok h
         /\ PRP_LRU (seen ++ [a]) memsize
            = Ok (h + if in_dec Z.eq_dec a
                           (firstn (N.to_nat memsize)
                              (fold_left (fun l x => mru_touch x l) seen []))
                      then 1 else 0)%Z.
Proof.
  split; [apply lru_stack_result|].
  intros seen a. eexists. split; [apply lru_stack_result|].
  rewrite lru_stack_result, stack_hits_app. cbn [stack_hits].
  f_equal. lia.
Qed.

(** X2.  [PRP_LRU] never loses hits when the capacity grows, and its
    result is the same under any two iteration orders of the map. *)
Theorem lru_capacity_monotone (H1 H2 : Hashing) (w : list Z) (c1 c2 : N) :
  (c1 <= c2)%N ->
  exists h1 h2,
    @PRP_LRU H1 w c1 = Ok h1 /\ @PRP_LRU H2 w c2 = Ok h2 /\ (h1 <= h2)%Z.
Proof.
  intros Hle. exists (stack_hits (N.to_nat c1) [] w), (stack_hits (N.to_nat c2) [] w).
  split; [apply lru_stack_result|].
  split; [apply lru_stack_result|].
  apply stack_hits_mono. lia.
Qed.

Lemma lru_capacity_monotone_witness :
  exists h1 h2,
    @PRP_LRU front_order [1; 2; 3; 1; 2; 3]%Z 2 = Ok h1
    /\ @PRP_LRU back_order [1; 2; 3; 1; 2; 3]%Z 3 = Ok h2
    /\ (h1 <= h2)%Z.
Proof.
  apply (lru_capacity_monotone front_order back_order [1; 2; 3; 1; 2; 3]%Z 2 3).
  lia.
Defined.

(* ===================================================================== *)
(** * PRP_FIFO evicts in order of arrival *)
(* ===================================================================== *)

(** The slot array read from the head, [B] then [A], is the queue of
    resident pages, oldest first; [k] slots are still empty, and then no
    page lies behind the head. *)
Definition fifo_queue_inv (c : nat) (q : list Z) (st : Fifo.state) : Prop :=
  exists A B k,
    Fifo.cachedPages st = A ++ B ++ repeat INVALID_PAGE k
    /\ Fifo.cachedPagesHead st = length A
    /\ q = B ++ A
    /\ length A + length B + k = c
    /\ (k = 0 \/ B = [])
    /\ length A < c
    /\ ~ In INVALID_PAGE q.

Lemma fifo_queue_inv_init (c : nat) :
  1 <= c -> fifo_queue_inv c [] (Fifo.init (N.of_nat c)).
Proof.
  intros Hc. exists [], [], c. unfold Fifo.init. rewrite Nat2N.id. simpl.
  repeat split; try lia; auto.
Qed.

Definition queue_push (c : nat) (q : list Z) (a : Z) : list Z :=
  if length q <? c then q ++ [a] else tl q ++ [a].

Lemma fifo_queue_access c q st a later :
  a <> INVALID_PAGE ->
  fifo_queue_inv c q st ->
  exists st',
    Fifo.access st a later = Ok st'
    /\ fifo_queue_inv c (if in_dec Z.eq_dec a q then q else queue_push c q a) st'
    /\ Fifo.hits st'
       = (Fifo.hits st + if in_dec Z.eq_dec a q then 1 else 0)%Z.
Proof.
  intros Ha (A & B & k & Hslots & Hhead & Hq & Hlen & Hphase & Hlt & Hvalid).
  assert (Hmem : In a (Fifo.cachedPages st) <-> In a q).
  { rewrite Hslots, Hq, !in_app_iff. split.
    - intros [Hin|[Hin|Hin]]; [tauto | tauto |].
      apply repeat_spec in Hin. contradiction.
    - tauto. }
  unfold Fifo.access.
  destruct (in_dec Z.eq_dec a q) as [Hin|Hnin].
  - apply Hmem, count_pos_In in Hin. rewrite Hin.
    eexists. split; [reflexivity|]. split; [|reflexivity].
    exists A, B, k. simpl. repeat split; assumption.
  - assert (Hmiss : (0 <? count_occ Z.eq_dec (Fifo.cachedPages st) a) = false).
    { destruct (0 <? count_occ Z.eq_dec (Fifo.cachedPages st) a) eqn:Hc;
        [|reflexivity].
      apply count_pos_In, Hmem in Hc. contradiction. }
    rewrite Hmiss, Hhead, Hslots.
    assert (Hvalid' : forall q', (forall x, In x q' -> In x q \/ x = a) ->
                                 ~ In INVALID_PAGE q').
    { intros q' Hsub Hin. apply Hsub in Hin as [Hin|Hin]; [tauto | congruence]. }
    destruct B as [|y B'].
    + (* slots are still being filled *)
      destruct k as [|k']; [simpl in Hlen; lia|].
      simpl app. cbn [repeat]. simpl in Hq. subst q.
      unfold vector_at_put.
      assert (Hin : (length A <? length (A ++ INVALID_PAGE :: repeat INVALID_PAGE k'))
                    = true).
      { apply Nat.ltb_lt. rewrite length_app. simpl. lia. }
      rewrite Hin. cbn [bind]. rewrite put_at_end. unfold size_rem.
      assert (Hsize : length ((A ++ [a]) ++ repeat INVALID_PAGE k') = c).
      { rewrite !length_app, repeat_length. simpl in *. lia. }
      rewrite Hsize.
      destruct (Nat.eqb_spec c 0) as [Hz|Hnz]; [lia|]. cbn [bind].
      eexists. split; [reflexivity|]. split; [|simpl; lia].
      unfold queue_push.
      assert (Hshort : (length A <? c) = true) by (apply Nat.ltb_lt; lia).
      rewrite Hshort.
      destruct k' as [|k''].
      * exists [], (A ++ [a]), 0. simpl in *.
        rewrite !app_nil_r. rewrite length_app. simpl.
        replace (length A + 1) with c by lia.
        rewrite Nat.Div0.mod_same.
        repeat split; try lia; auto.
        apply Hvalid'. intros x Hx. apply in_app_or in Hx as [Hx|[Hx|[]]]; auto.
      * exists (A ++ [a]), [], (S k''). simpl in *.
        rewrite length_app. simpl.
        rewrite Nat.mod_small by lia.
        repeat split; try lia; auto.
        apply Hvalid'. intros x Hx. apply in_app_or in Hx as [Hx|[Hx|[]]]; auto.
    + (* every slot holds a page: the page at the head leaves *)
      destruct Hphase as [Hk|HB]; [subst k | discriminate].
      simpl repeat. rewrite app_nil_r. simpl in Hlen.
      change ((y :: B') ++ A) with (y :: (B' ++ A)) in Hq.
      change (A ++ (y :: B')) with (A ++ y :: B').
      unfold vector_at_put.
      assert (Hin : (length A <? length (A ++ y :: B')) = true).
      { apply Nat.ltb_lt. rewrite length_app. simpl. lia. }
      rewrite Hin. cbn [bind]. rewrite put_at_end. unfold size_rem.
      assert (Hsize : length ((A ++ [a]) ++ B') = c).
      { rewrite !length_app. simpl. lia. }
      rewrite Hsize.
      destruct (Nat.eqb_spec c 0) as [Hz|Hnz]; [lia|]. cbn [bind].
      eexists. split; [reflexivity|]. split; [|simpl; lia].
      unfold queue_push.
      assert (Hfull : (length q <? c) = false).
      { apply Nat.ltb_ge. rewrite Hq. simpl. rewrite length_app. lia. }
      rewrite Hfull. rewrite Hq. cbn [tl].
      assert (Hsub : forall x, In x ((B' ++ A) ++ [a]) -> In x q \/ x = a).
      { intros x Hx. rewrite Hq. apply in_app_or in Hx as [Hx|[Hx|[]]]; auto.
        left. right. exact Hx. }
      destruct B' as [|z B''].
      * exists [], (A ++ [a]), 0. simpl in *.
        rewrite !app_nil_r. rewrite length_app. simpl.
        replace (length A + 1) with c by lia.
        rewrite Nat.Div0.mod_same.
        repeat split; try lia; auto.
      * exists (A ++ [a]), (z :: B''), 0.
        cbn [Fifo.cachedPages Fifo.cachedPagesHead repeat length] in *.
        rewrite !app_nil_r, length_app. cbn [length].
        rewrite Nat.mod_small by lia.
        split; [reflexivity|]. split; [reflexivity|].
        split; [simpl; rewrite <- app_assoc; reflexivity|].
        split; [lia|]. split; [left; reflexivity|]. split; [lia|].
        apply Hvalid'. intros x Hx. apply Hsub. exact Hx.
Qed.

Lemma fifo_queue_run c (w : list Z) :
  ~ In INVALID_PAGE w ->
  forall q st,
    fifo_queue_inv c q st ->
    exists st',
      run Fifo.access st w = Ok st'
      /\ Fifo.hits st' = (Fifo.hits st + queue_hits c q w)%Z.
Proof.
  induction w as [|a w IH]; intros Hvalid q st Hinv.
  - exists st. split; [reflexivity|]. simpl. lia.
  - assert (Ha : a <> INVALID_PAGE) by (intros ->; apply Hvalid; left; reflexivity).
    assert (Hw : ~ In INVALID_PAGE w) by (intros Hin; apply Hvalid; right; exact Hin).
    destruct (fifo_queue_access c q st a w Ha Hinv) as (st1 & Hacc & Hinv1 & Hh1).
    destruct (IH Hw _ _ Hinv1) as (st' & Hrun & Hh).
    exists st'. rewrite run_cons, Hacc. split; [exact Hrun|].
    rewrite Hh, Hh1. cbn [queue_hits]. unfold queue_push.
    destruct (in_dec Z.eq_dec a q); lia.
Qed.

(** X3.  For a capacity of at least 1 and a workload without the page -1,
    the circular slot array of [PRP_FIFO] is a queue: a page that misses
    joins at the back and, once the queue holds [memsize] pages, the page
    that arrived first leaves; the hit count is that of the queue. *)
Theorem fifo_counts_as_queue (w : list Z) (memsize : N) :
  (1 <= memsize)%N ->
  ~ In INVALID_PAGE w ->
  PRP_FIFO w memsize = Ok (queue_hits (N.to_nat memsize) [] w).
Proof.
  intros Hcap Hvalid. unfold PRP_FIFO.
  destruct (fifo_queue_run (N.to_nat memsize) w Hvalid [] (Fifo.init memsize))
    as (st & -> & Hh).
  - rewrite <- (N2Nat.id memsize) at 2. apply fifo_queue_inv_init. lia.
  - simpl in *. rewrite Hh. reflexivity.
Qed.

Lemma fifo_counts_as_queue_witness :
  PRP_FIFO [1; 2; 3; 1; 2; 3]%Z 2 = Ok (queue_hits (N.to_nat 2) [] [1; 2; 3; 1; 2; 3]%Z).
Proof.
  apply (fifo_counts_as_queue [1; 2; 3; 1; 2; 3]%Z 2).
  - lia.
  - unfold INVALID_PAGE. simpl. intuition discriminate.
Defined.

(* ===================================================================== *)
(** * Resident pages are distinct pages of the past *)
(* ===================================================================== *)

Section LoopIndexed.
Context {St : Type}.
Variable step : St -> Z -> list Z -> outcome St.

(** An invariant indexed by the accesses processed so far, for a loop
    that may fail. *)
Lemma run_for_indexed_preserves (P : list Z -> St -> Prop) (w : list Z) :
  (forall seen a later st st', w = seen ++ a :: later -> P seen st ->
      step st a later = Ok st' -> P (seen ++ [a]) st') ->
  forall n later seen st st', w = seen ++ later -> P seen st ->
    run_for step n st later = Ok st' -> P (seen ++ firstn n later) st'.
Proof.
  intros Hstep. induction n as [|n IH]; intros later seen st st' Hw HP Hrun.
  - simpl in *. injection Hrun as <-. rewrite app_nil_r. exact HP.
  - destruct later as [|a later]; simpl in Hrun.
    + injection Hrun as <-. simpl. rewrite app_nil_r. exact HP.
    + apply bind_Ok in Hrun as (st1 & H1 & Hrun).
      simpl firstn.
      replace (seen ++ a :: firstn n later) with ((seen ++ [a]) ++ firstn n later)
        by (rewrite <- app_assoc; reflexivity).
      apply IH with st1; [rewrite <- app_assoc; exact Hw | | exact Hrun].
      apply (Hstep seen a later st st1 Hw HP H1).
Qed.
End LoopIndexed.

(** [pg] holds distinct pages, all of them accessed before, and [h] is at
    most the number of past accesses that were not the first of their
    page. *)
Definition known (pg : list Z) (h : Z) (seen : list Z) : Prop :=
  NoDup pg /\ incl pg seen
  /\ (h <= Z.of_nat (length seen) - Z.of_nat (distinct seen))%Z.

Lemma known_nil : known [] 0 [].
Proof.
  split; [constructor|]. split; [intros x []|]. vm_compute. discriminate.
Qed.

Lemma known_hit pg h seen a :
  known pg h seen -> In a pg -> known pg (h + 1) (seen ++ [a]).
Proof.
  intros (Hnd & Hincl & Hh) Hin. split; [exact Hnd|]. split.
  - intros x Hx. apply in_or_app. left. apply Hincl, Hx.
  - rewrite distinct_snoc, length_app. simpl.
    destruct (in_dec Z.eq_dec a seen) as [_|Hnin]; [lia|].
    exfalso. apply Hnin, Hincl, Hin.
Qed.

Lemma known_miss pg pg' h seen a :
  known pg h seen -> NoDup pg' -> incl pg' (a :: pg) ->
  known pg' h (seen ++ [a]).
Proof.
  intros (Hnd & Hincl & Hh) Hnd' Hincl'. split; [exact Hnd'|]. split.
  - intros x Hx. apply Hincl' in Hx as [<-|Hx]; apply in_or_app.
    + right. left. reflexivity.
    + left. apply Hincl, Hx.
  - rewrite distinct_snoc, length_app. simpl.
    destruct (in_dec Z.eq_dec a seen); lia.
Qed.

Lemma put_In {A : Type} (i : nat) (l : list A) (a x : A) :
  In x (firstn i l ++ a :: skipn (S i) l) -> x = a \/ In x l.
Proof.
  intros Hin. apply in_app_or in Hin as [Hin|[Hin|Hin]].
  - right. apply (firstn_In i l x Hin).
  - left. congruence.
  - right. rewrite <- (firstn_skipn (S i) l). apply in_or_app. right. exact Hin.
Qed.

Lemma put_NoDup (i : nat) (l : list Z) (a : Z) :
  NoDup l -> ~ In a l -> NoDup (firstn i l ++ a :: skipn (S i) l).
Proof.
  intros Hnd Hnin.
  apply Permutation_NoDup with (a :: (firstn i l ++ skipn (S i) l)).
  - apply Permutation_middle.
  - constructor; [|apply NoDup_erase, Hnd].
    intros Hin. apply Hnin. apply (In_erase i l a Hin).
Qed.

Lemma put_filter_NoDup (f : Z -> bool) (a : Z) :
  forall i l,
    NoDup (filter f l) -> ~ In a l ->
    NoDup (filter f (firstn i l ++ a :: skipn (S i) l)).
Proof.
  assert (Hone : forall l, NoDup (filter f l) -> ~ In a l ->
                           NoDup (filter f (a :: l))).
  { intros l Hnd Hnin. simpl. destruct (f a); [|exact Hnd].
    constructor; [|exact Hnd].
    intros Hin. apply filter_In in Hin as (Hin & _). contradiction. }
  induction i as [|i IH]; intros l Hnd Hnin.
  - destruct l as [|x l]; [apply (Hone [] Hnd Hnin)|].
    change (NoDup (filter f (a :: l))). apply Hone.
    + simpl in Hnd. destruct (f x); [inversion Hnd; assumption | exact Hnd].
    + simpl in Hnin. tauto.
  - destruct l as [|x l]; [apply (Hone [] Hnd Hnin)|].
    change (NoDup (filter f (x :: (firstn i l ++ a :: skipn (S i) l)))).
    simpl in Hnd, Hnin. simpl. destruct (f x) eqn:Hfx.
    + inversion Hnd as [|? ? Hx Hl]; subst.
      constructor; [|apply IH; [exact Hl | tauto]].
      intros Hin. apply filter_In in Hin as (Hin & _).
      apply put_In in Hin as [Heq|Hin]; [subst; tauto|].
      apply Hx. apply filter_In. split; assumption.
    + apply IH; [exact Hnd | tauto].
Qed.

Definition fifo_pages (st : Fifo.state) : list Z :=
  filter (fun x => negb (x =? INVALID_PAGE)%Z) (Fifo.cachedPages st).

Lemma fifo_pages_In (st : Fifo.state) (a : Z) :
  In a (fifo_pages st) <-> In a (Fifo.cachedPages st) /\ a <> INVALID_PAGE.
Proof.
  unfold fifo_pages. rewrite filter_In, negb_true_iff, Z.eqb_neq. tauto.
Qed.

Lemma fifo_access_pages seen st a later st' :
  NoDup (fifo_pages st) /\ incl (fifo_pages st) seen ->
  Fifo.access st a later = Ok st' ->
  NoDup (fifo_pages st') /\ incl (fifo_pages st') (seen ++ [a]).
Proof.
  intros (Hnd & Hincl). unfold Fifo.access.
  destruct (0 <? count_occ Z.eq_dec (Fifo.cachedPages st) a) eqn:Hc.
  - intros [= <-]. split; [exact Hnd|].
    intros x Hx. apply in_or_app. left. apply Hincl, Hx.
  - intros Hb. apply bind_Ok in Hb as (v & Hv & Hb).
    apply bind_Ok in Hb as (h & _ & Hb). injection Hb as <-.
    unfold vector_at_put in Hv.
    destruct (Fifo.cachedPagesHead st <? length (Fifo.cachedPages st));
      [|discriminate].
    injection Hv as <-.
    assert (Hnin : ~ In a (Fifo.cachedPages st)).
    { intros Hin. apply count_pos_In in Hin. congruence. }
    unfold fifo_pages in *. cbn [Fifo.cachedPages]. split.
    + apply put_filter_NoDup; assumption.
    + intros x Hx. apply filter_In in Hx as (Hx & Hfx).
      apply put_In in Hx as [->|Hx]; apply in_or_app.
      * right. left. reflexivity.
      * left. apply Hincl. apply filter_In. split; assumption.
Qed.

Lemma fifo_access_known seen st a later st' :
  a <> INVALID_PAGE ->
  known (fifo_pages st) (Fifo.hits st) seen ->
  Fifo.access st a later = Ok st' ->
  known (fifo_pages st') (Fifo.hits st') (seen ++ [a]).
Proof.
  intros Ha Hk Hacc.
  destruct (fifo_access_pages seen st a later st') as (Hnd' & Hincl');
    [split; apply Hk | exact Hacc |].
  unfold Fifo.access in Hacc.
  destruct (0 <? count_occ Z.eq_dec (Fifo.cachedPages st) a) eqn:Hc.
  - injection Hacc as <-. apply known_hit; [exact Hk|].
    apply fifo_pages_In. split; [apply count_pos_In, Hc | exact Ha].
  - apply bind_Ok in Hacc as (v & _ & Hb).
    apply bind_Ok in Hb as (h & _ & Hb). injection Hb as <-.
    cbn [Fifo.hits] in *.
    destruct Hk as (_ & _ & Hh). split; [exact Hnd'|]. split; [exact Hincl'|].
    rewrite distinct_snoc, length_app. simpl.
    destruct (in_dec Z.eq_dec a seen); lia.
Qed.

Section KnownPages.
Context {H : Hashing} {E : RandomEngine}.

Lemma opt_insert_In (x y : Z) (s : list Z) :
  In y (Opt.uset_insert x s) -> y = x \/ In y s.
Proof.
  unfold Opt.uset_insert. destruct (Opt.uset_count x s =? 0); [|tauto].
  intros Hin. apply (Permutation_in _ (uinsert_perm _ x s)) in Hin.
  simpl in Hin. intuition congruence.
Qed.

Lemma opt_access_known memsize seen st a later st' :
  opt_inv memsize st ->
  known (Opt.pages_in_mem st) (Opt.hits st) seen ->
  Opt.access memsize st a later = Ok st' ->
  known (Opt.pages_in_mem st') (Opt.hits st') (seen ++ [a]).
Proof.
  intros Hinv Hk Hacc.
  destruct (opt_access_inv memsize st a later st' Hinv Hacc) as (Hnd' & _).
  unfold Opt.access in Hacc.
  destruct (0 <? Opt.uset_count a (Opt.pages_in_mem st)) eqn:Hc.
  - injection Hacc as <-. apply known_hit; [exact Hk|].
    apply count_pos_In, Hc.
  - apply (known_miss (Opt.pages_in_mem st)); [| exact Hnd' |].
    + destruct (N.of_nat (length (Opt.pages_in_mem st)) <? memsize)%N.
      * injection Hacc as <-. exact Hk.
      * apply bind_Ok in Hacc as (v & _ & Hb). injection Hb as <-. exact Hk.
    + intros x Hx.
      destruct (N.of_nat (length (Opt.pages_in_mem st)) <? memsize)%N.
      * injection Hacc as <-. simpl in Hx.
        apply opt_insert_In in Hx as [->|Hx]; [left | right]; auto.
      * apply bind_Ok in Hacc as (v & _ & Hb). injection Hb as <-. simpl in Hx.
        apply opt_insert_In in Hx as [->|Hx]; [left; reflexivity|].
        right. apply in_remove in Hx. tauto.
Qed.

Lemma rand_access_known memsize seen st a later st' :
  known (Rand.pages_in_mem st) (Rand.hits st) seen ->
  Rand.access memsize st a later = Ok st' ->
  known (Rand.pages_in_mem st') (Rand.hits st') (seen ++ [a]).
Proof.
  intros Hk. unfold Rand.access.
  destruct (Rand.found a (Rand.pages_in_mem st)) eqn:Hf.
  - intros [= <-]. apply known_hit; [exact Hk|]. apply rand_found_In, Hf.
  - assert (Hnin : ~ In a (Rand.pages_in_mem st)).
    { intros Hin. apply rand_found_In in Hin. congruence. }
    destruct (N.of_nat (length (Rand.pages_in_mem st)) <? memsize)%N.
    + intros [= <-]. apply (known_miss (Rand.pages_in_mem st)); [exact Hk | |].
      * apply Permutation_NoDup with (a :: Rand.pages_in_mem st);
          [apply Permutation_cons_append|].
        constructor; [exact Hnin | apply Hk].
      * intros x Hx. apply in_app_or in Hx as [Hx|[<-|[]]];
          [right; exact Hx | left; reflexivity].
    + destruct (Z.of_nat (length (Rand.pages_in_mem st)) - 1 <? 0)%Z; [discriminate|].
      destruct (uniform_int 0 (Z.of_nat (length (Rand.pages_in_mem st)) - 1)
                  (Rand.random_engine st)) as [index g].
      destruct (index <? 0)%Z; [discriminate|].
      unfold vector_put.
      destruct (Z.to_nat index <? length (Rand.pages_in_mem st)); [|discriminate].
      intros [= <-]. apply (known_miss (Rand.pages_in_mem st)); [exact Hk | |].
      * apply put_NoDup; [apply Hk | exact Hnin].
      * intros x Hx. apply put_In in Hx as [->|Hx];
          [left; reflexivity | right; exact Hx].
Qed.

Lemma lru_evict_In memsize (m : list Lru.entry) (e : Lru.entry) :
  In e (Lru.evict memsize m) -> In e m.
Proof.
  funelim (Lru.evict memsize m); intros Hin; try assumption.
  unfold Lru.erase_at in H0. apply H0 in Hin.
  apply (In_erase _ _ _ Hin).
Qed.

Lemma lru_access_known memsize seen st a later st' :
  lru_inv memsize st ->
  known (map fst (Lru.cache st)) (Lru.hits st) seen ->
  Lru.access memsize st a later = Ok st' ->
  known (map fst (Lru.cache st')) (Lru.hits st') (seen ++ [a]).
Proof.
  intros Hinv Hk Hacc.
  destruct (lru_access_inv memsize st a later st' Hinv Hacc) as (Hnd' & _).
  unfold Lru.access, Lru.umap_at_put in Hacc.
  destruct (Lru.umap_count a (Lru.cache st) =? 0) eqn:Hc.
  - injection Hacc as <-. cbn [Lru.cache Lru.hits] in *.
    apply (known_miss (map fst (Lru.cache st))); [exact Hk | exact Hnd' |].
    intros x Hx. apply in_map_iff in Hx as (e & <- & He).
    apply lru_evict_In in He. unfold Lru.umap_emplace in He. rewrite Hc in He.
    apply (Permutation_in _ (uinsert_perm _ _ _)) in He as [<-|He].
    + left. reflexivity.
    + right. apply in_map, He.
  - simpl in Hacc. injection Hacc as <-. cbn [Lru.cache Lru.hits].
    rewrite lru_at_put_keys. apply known_hit; [exact Hk|].
    destruct (in_dec Z.eq_dec a (map fst (Lru.cache st))) as [Hin|Hnin];
      [exact Hin|].
    apply lru_count_In in Hnin. congruence.
Qed.

Lemma clock_put_keys (i : nat) (a : Z) (c : list Clock.ClockEntry) :
  map fst (firstn i c ++ (a, true) :: skipn (S i) c)
  = firstn i (map fst c) ++ a :: skipn (S i) (map fst c).
Proof. rewrite map_app, firstn_map, skipn_map. reflexivity. Qed.

Lemma clock_access_known memsize seen st a later st' :
  known (map fst (Clock.cache st)) (Clock.hits st) seen ->
  Clock.access memsize st a later = Ok st' ->
  known (map fst (Clock.cache st')) (Clock.hits st') (seen ++ [a]).
Proof.
  intros Hk. unfold Clock.access.
  destruct (negb (Clock.find_if a (Clock.cache st) =? length (Clock.cache st)))
    eqn:Hfind.
  - intros [= <-]. cbn [Clock.cache Clock.hits]. rewrite clock_set_use_keys.
    apply known_hit; [exact Hk|].
    destruct (in_dec Z.eq_dec a (map fst (Clock.cache st))) as [Hin|Hnin];
      [exact Hin|].
    apply clock_miss_test in Hnin. congruence.
  - apply clock_miss_test in Hfind.
    destruct (N.of_nat (length (Clock.cache st)) <? memsize)%N.
    + intros [= <-]. cbn [Clock.cache Clock.hits]. rewrite map_app. simpl.
      apply (known_miss (map fst (Clock.cache st))); [exact Hk | |].
      * apply Permutation_NoDup with (a :: map fst (Clock.cache st));
          [apply Permutation_cons_append|].
        constructor; [exact Hfind | apply Hk].
      * intros x Hx. apply in_app_or in Hx as [Hx|[<-|[]]];
          [right; exact Hx | left; reflexivity].
    + pose proof (clock_sweep_shape (Clock.cache st)) as (_ & _ & Hkeys).
      destruct (Clock.sweep (Clock.cache st)) as [hand swept]. simpl in Hkeys.
      unfold Clock.replace_at.
      destruct ((if hand =? length swept then 0 else hand) <? length swept);
        [|discriminate].
      intros [= <-]. cbn [Clock.cache Clock.hits].
      rewrite clock_put_keys, Hkeys.
      apply (known_miss (map fst (Clock.cache st))); [exact Hk | |].
      * apply put_NoDup; [apply Hk | exact Hfind].
      * intros x Hx. apply put_In in Hx as [->|Hx];
          [left; reflexivity | right; exact Hx].
Qed.
End KnownPages.

Lemma fifo_pages_init memsize : fifo_pages (Fifo.init memsize) = [].
Proof.
  unfold fifo_pages, Fifo.init. simpl.
  induction (N.to_nat memsize) as [|k IH]; [reflexivity | exact IH].
Qed.

Lemma fifo_pages_run memsize w n st :
  run_for Fifo.access n (Fifo.init memsize) w = Ok st ->
  NoDup (fifo_pages st) /\ incl (fifo_pages st) (firstn n w).
Proof.
  intros Hrun.
  apply (run_for_indexed_preserves Fifo.access
           (fun seen st => NoDup (fifo_pages st) /\ incl (fifo_pages st) seen) w
           (fun seen a later st st' _ => fifo_access_pages seen st a later st')
           n w [] (Fifo.init memsize) st eq_refl); [|exact Hrun].
  rewrite fifo_pages_init. split; [constructor | intros x []].
Qed.

Lemma fifo_known_run memsize w n st :
  ~ In INVALID_PAGE w ->
  run_for Fifo.access n (Fifo.init memsize) w = Ok st ->
  known (fifo_pages st) (Fifo.hits st) (firstn n w).
Proof.
  intros Hvalid Hrun.
  apply (run_for_indexed_preserves Fifo.access
           (fun seen st => known (fifo_pages st) (Fifo.hits st) seen) w)
    with (n := n) (later := w) (seen := []) (st := Fifo.init memsize);
    [| reflexivity | rewrite fifo_pages_init; apply known_nil | exact Hrun].
  intros seen a later st0 st1 Hw. apply fifo_access_known.
  intros ->. apply Hvalid. rewrite Hw. apply in_or_app. right. left. reflexivity.
Qed.

Section KnownRuns.
Context {H : Hashing} {E : RandomEngine}.

Lemma opt_known_run memsize w n st :
  run_for (Opt.access memsize) n Opt.init w = Ok st ->
  known (Opt.pages_in_mem st) (Opt.hits st) (firstn n w).
Proof.
  intros Hrun.
  apply (run_for_indexed_preserves (Opt.access memsize)
           (fun seen st => opt_inv memsize st
                           /\ known (Opt.pages_in_mem st) (Opt.hits st) seen) w)
    with (n := n) (later := w) (seen := []) (st := Opt.init);
    [| reflexivity | split; [apply opt_inv_init | apply known_nil] | exact Hrun].
  intros seen a later st0 st1 _ (Hinv & Hk) Hacc. split.
  - apply (opt_access_inv memsize st0 a later st1 Hinv Hacc).
  - apply (opt_access_known memsize seen st0 a later st1 Hinv Hk Hacc).
Qed.

Lemma rand_known_run memsize now w n st :
  run_for (Rand.access memsize) n (Rand.init now) w = Ok st ->
  known (Rand.pages_in_mem st) (Rand.hits st) (firstn n w).
Proof.
  intros Hrun.
  apply (run_for_indexed_preserves (Rand.access memsize)
           (fun seen st => known (Rand.pages_in_mem st) (Rand.hits st) seen) w)
    with (n := n) (later := w) (seen := []) (st := Rand.init now);
    [| reflexivity | apply known_nil | exact Hrun].
  intros seen a later st0 st1 _. apply rand_access_known.
Qed.

Lemma lru_known_run memsize w n st :
  run_for (Lru.access memsize) n Lru.init w = Ok st ->
  known (map fst (Lru.cache st)) (Lru.hits st) (firstn n w).
Proof.
  intros Hrun.
  apply (run_for_indexed_preserves (Lru.access memsize)
           (fun seen st => lru_inv memsize st
                           /\ known (map fst (Lru.cache st)) (Lru.hits st) seen) w)
    with (n := n) (later := w) (seen := []) (st := Lru.init);
    [| reflexivity | split; [apply lru_inv_init | apply known_nil] | exact Hrun].
  intros seen a later st0 st1 _ (Hinv & Hk) Hacc. split.
  - apply (lru_access_inv memsize st0 a later st1 Hinv Hacc).
  - apply (lru_access_known memsize seen st0 a later st1 Hinv Hk Hacc).
Qed.

Lemma clock_known_run memsize w n st :
  run_for (Clock.access memsize) n Clock.init w = Ok st ->
  known (map fst (Clock.cache st)) (Clock.hits st) (firstn n w).
Proof.
  intros Hrun.
  apply (run_for_indexed_preserves (Clock.access memsize)
           (fun seen st => known (map fst (Clock.cache st)) (Clock.hits st) seen) w)
    with (n := n) (later := w) (seen := []) (st := Clock.init);
    [| reflexivity | apply known_nil | exact Hrun].
  intros seen a later st0 st1 _. apply clock_access_known.
Qed.
End KnownRuns.

(** X4.  Whatever the capacity, a returned hit count is at most the
    length of the workload minus its number of distinct pages: the first
    access to a page is never a hit (for [PRP_FIFO], on workloads without
    the page -1). *)
Theorem hits_exclude_first_accesses (H : Hashing) (E : RandomEngine)
    (p : policy) (now : Z) (w : list Z) (memsize : N) (h : Z) :
  (p = FIFO -> ~ In INVALID_PAGE w) ->
  evaluate p now w memsize = Ok h ->
  (h <= Z.of_nat (length w) - Z.of_nat (distinct w))%Z.
Proof.
  intros Hvalid Hh.
  assert (Hk : exists pg, known pg h (firstn (length w) w)).
  { destruct p; simpl in Hh; apply omap_Ok in Hh as (st & Hrun & ->).
    - exists (fifo_pages st). apply (fifo_known_run memsize); auto.
    - exists (Opt.pages_in_mem st). apply (opt_known_run memsize), Hrun.
    - exists (Rand.pages_in_mem st). apply (rand_known_run memsize now), Hrun.
    - exists (map fst (Lru.cache st)). apply (lru_known_run memsize), Hrun.
    - exists (map fst (Clock.cache st)). apply (clock_known_run memsize), Hrun. }
  destruct Hk as (pg & _ & _ & Hbound). rewrite firstn_all in Hbound. exact Hbound.
Qed.

Lemma hits_exclude_first_accesses_witness :
  (1 <= Z.of_nat (length [1; 2; 3; 2; 1; 4]%Z)
        - Z.of_nat (distinct [1; 2; 3; 2; 1; 4]%Z))%Z.
Proof.
  apply (hits_exclude_first_accesses front_order minstd_rand0 FIFO 0
           [1; 2; 3; 2; 1; 4]%Z 2 1).
  - intros _. unfold INVALID_PAGE. simpl. intuition discriminate.
  - reflexivity.
Defined.

(** X6.  After any number of accesses, under any capacity, the resident
    pages of every evaluator are pairwise distinct and are pages that the
    workload has accessed by then. *)
Theorem resident_pages_distinct (H : Hashing) (E : RandomEngine)
    (p : policy) (now : Z) (w : list Z) (memsize : N) (n : nat) (l : list Z) :
  pages_after p now w memsize n = Ok l ->
  NoDup l /\ incl l (firstn n w).
Proof.
  destruct p; simpl; intros Hl; apply omap_Ok in Hl as (st & Hrun & ->).
  - apply (fifo_pages_run memsize w n st Hrun).
  - destruct (opt_known_run memsize w n st Hrun) as (Hnd & Hincl & _). auto.
  - destruct (rand_known_run memsize now w n st Hrun) as (Hnd & Hincl & _). auto.
  - destruct (lru_known_run memsize w n st Hrun) as (Hnd & Hincl & _). auto.
  - destruct (clock_known_run memsize w n st Hrun) as (Hnd & Hincl & _). auto.
Qed.

Lemma resident_pages_distinct_witness :
  NoDup [3; 4]%Z /\ incl [3; 4]%Z (firstn 4 [1; 2; 3; 4; 5]%Z).
Proof.
  apply (resident_pages_distinct front_order minstd_rand0 CLOCK 0
           [1; 2; 3; 4; 5]%Z 2 4 [3; 4]%Z).
  vm_compute. reflexivity.
Defined.

(* ===================================================================== *)
(** * The page just accessed is resident *)
(* ===================================================================== *)

Section LoopSnoc.
Context {St : Type}.
Variable step : St -> Z -> list Z -> outcome St.

Lemma run_for_snoc (seen : list Z) (a : Z) (later : list Z) :
  forall st,
    run_for step (S (length seen)) st (seen ++ a :: later)
    = (st' <- run_for step (length seen) st (seen ++ a :: later) ;;
       step st' a later).
Proof.
  induction seen as [|x seen IH]; intros st.
  - simpl. destruct (step st a later); reflexivity.
  - change (run_for step (S (length (x :: seen))) st ((x :: seen) ++ a :: later))
      with (st1 <- step st x (seen ++ a :: later) ;;
            run_for step (S (length seen)) st1 (seen ++ a :: later)).
    change (run_for step (length (x :: seen)) st ((x :: seen) ++ a :: later))
      with (st1 <- step st x (seen ++ a :: later) ;;
            run_for step (length seen) st1 (seen ++ a :: later)).
    destruct (step st x (seen ++ a :: later)) as [st1|f]; [|reflexivity].
    simpl. apply IH.
Qed.

(** When every access succeeds and leaves its page resident, an access
    to the page of the access just before is a hit. *)
Lemma run_for_rehit (hits : St -> Z) (Inv : St -> Prop) :
  (forall st a later, Inv st -> exists st', step st a later = Ok st' /\ Inv st') ->
  (forall st a l1 l2 st', Inv st -> step st a l1 = Ok st' ->
      exists st'', step st' a l2 = Ok st'' /\ hits st'' = (hits st' + 1)%Z) ->
  forall init seen a later,
    Inv init ->
    exists h,
      omap hits (run_for step (S (length seen)) init (seen ++ a :: a :: later))
        = Ok h
      /\ omap hits (run_for step (S (S (length seen))) init
                      (seen ++ a :: a :: later))
         = Ok (h + 1)%Z.
Proof.
  intros Htotal Hrehit init seen a later Hinit.
  destruct (run_for_total step Inv Htotal (length seen) (seen ++ a :: a :: later)
              init Hinit) as (st0 & Hrun0 & Hinv0).
  destruct (Htotal st0 a (a :: later) Hinv0) as (st1 & Hacc1 & Hinv1).
  destruct (Hrehit st0 a (a :: later) later st1 Hinv0 Hacc1) as (st2 & Hacc2 & Hh).
  assert (Hrun1 : run_for step (S (length seen)) init (seen ++ a :: a :: later)
                  = Ok st1).
  { rewrite run_for_snoc, Hrun0. exact Hacc1. }
  exists (hits st1). split; [rewrite Hrun1; reflexivity|].
  replace (seen ++ a :: a :: later) with ((seen ++ [a]) ++ a :: later)
    by (rewrite <- app_assoc; reflexivity).
  replace (S (length seen)) with (length (seen ++ [a]))
    by (rewrite length_app; simpl; lia).
  rewrite run_for_snoc.
  replace (length (seen ++ [a])) with (S (length seen))
    by (rewrite length_app; simpl; lia).
  replace ((seen ++ [a]) ++ a :: later) with (seen ++ a :: a :: later)
    by (rewrite <- app_assoc; reflexivity).
  rewrite Hrun1. cbn [bind]. rewrite Hacc2. unfold omap. cbn [bind].
  rewrite Hh. reflexivity.
Qed.
End LoopSnoc.

Lemma fifo_rehit st a l1 l2 st' :
  Fifo.access st a l1 = Ok st' ->
  exists st'', Fifo.access st' a l2 = Ok st''
               /\ Fifo.hits st'' = (Fifo.hits st' + 1)%Z.
Proof.
  intros Hacc.
  assert (Hin : In a (Fifo.cachedPages st')).
  { unfold Fifo.access in Hacc.
    destruct (0 <? count_occ Z.eq_dec (Fifo.cachedPages st) a) eqn:Hc.
    - injection Hacc as <-. apply count_pos_In, Hc.
    - apply bind_Ok in Hacc as (v & Hv & Hb).
      apply bind_Ok in Hb as (h & _ & Hb). injection Hb as <-.
      unfold vector_at_put in Hv.
      destruct (Fifo.cachedPagesHead st <? length (Fifo.cachedPages st));
        [|discriminate].
      injection Hv as <-. simpl. apply in_or_app. right. left. reflexivity. }
  apply count_pos_In in Hin. unfold Fifo.access. rewrite Hin.
  eexists. split; reflexivity.
Qed.

Lemma clock_rehit memsize st a l1 l2 st' :
  Clock.access memsize st a l1 = Ok st' ->
  exists st'', Clock.access memsize st' a l2 = Ok st''
               /\ Clock.hits st'' = (Clock.hits st' + 1)%Z.
Proof.
  intros Hacc.
  assert (Hin : In a (map fst (Clock.cache st'))).
  { unfold Clock.access in Hacc.
    destruct (negb (Clock.find_if a (Clock.cache st) =? length (Clock.cache st)))
      eqn:Hfind.
    - injection Hacc as <-. simpl. rewrite clock_set_use_keys.
      destruct (in_dec Z.eq_dec a (map fst (Clock.cache st))) as [Hin|Hnin];
        [exact Hin|].
      apply clock_miss_test in Hnin. congruence.
    - destruct (N.of_nat (length (Clock.cache st)) <? memsize)%N.
      + injection Hacc as <-. simpl. rewrite map_app. apply in_or_app.
        right. left. reflexivity.
      + destruct (Clock.sweep (Clock.cache st)) as [hand swept].
        unfold Clock.replace_at in Hacc.
        destruct ((if hand =? length swept then 0 else hand) <? length swept);
          [|discriminate].
        injection Hacc as <-. cbn [Clock.cache]. rewrite clock_put_keys.
        apply in_or_app. right. left. reflexivity. }
  unfold Clock.access.
  destruct (negb (Clock.find_if a (Clock.cache st') =? length (Clock.cache st')))
    eqn:Hfind.
  - eexists. split; reflexivity.
  - apply clock_miss_test in Hfind. contradiction.
Qed.

Section Rehit.
Context {H : Hashing} {E : RandomEngine}.

Lemma opt_rehit memsize st a l1 l2 st' :
  Opt.access memsize st a l1 = Ok st' ->
  exists st'', Opt.access memsize st' a l2 = Ok st''
               /\ Opt.hits st'' = (Opt.hits st' + 1)%Z.
Proof.
  intros Hacc.
  assert (Hins : forall s, In a (Opt.uset_insert a s)).
  { intros s. unfold Opt.uset_insert.
    destruct (Opt.uset_count a s =? 0) eqn:Hc.
    - apply (Permutation_in _ (Permutation_sym (uinsert_perm _ a s))).
      left. reflexivity.
    - destruct (in_dec Z.eq_dec a s) as [Hin|Hnin]; [exact Hin|].
      apply count_zero_not_In in Hnin. unfold Opt.uset_count in Hc. congruence. }
  assert (Hin : In a (Opt.pages_in_mem st')).
  { unfold Opt.access in Hacc.
    destruct (0 <? Opt.uset_count a (Opt.pages_in_mem st)) eqn:Hc.
    - injection Hacc as <-. apply count_pos_In, Hc.
    - destruct (N.of_nat (length (Opt.pages_in_mem st)) <? memsize)%N.
      + injection Hacc as <-. apply Hins.
      + apply bind_Ok in Hacc as (v & _ & Hb). injection Hb as <-. apply Hins. }
  destruct st' as [pages h]. simpl in Hin.
  rewrite opt_access_hit by exact Hin. eexists. split; reflexivity.
Qed.

Lemma rand_rehit memsize st a l1 l2 st' :
  Rand.access memsize st a l1 = Ok st' ->
  exists st'', Rand.access memsize st' a l2 = Ok st''
               /\ Rand.hits st'' = (Rand.hits st' + 1)%Z.
Proof.
  intros Hacc.
  assert (Hin : In a (Rand.pages_in_mem st')).
  { unfold Rand.access in Hacc.
    destruct (Rand.found a (Rand.pages_in_mem st)) eqn:Hf.
    - injection Hacc as <-. apply rand_found_In, Hf.
    - destruct (N.of_nat (length (Rand.pages_in_mem st)) <? memsize)%N.
      + injection Hacc as <-. simpl. apply in_or_app. right. left. reflexivity.
      + destruct (Z.of_nat (length (Rand.pages_in_mem st)) - 1 <? 0)%Z;
          [discriminate|].
        destruct (uniform_int 0 (Z.of_nat (length (Rand.pages_in_mem st)) - 1)
                    (Rand.random_engine st)) as [index g].
        destruct (index <? 0)%Z; [discriminate|].
        unfold vector_put in Hacc.
        destruct (Z.to_nat index <? length (Rand.pages_in_mem st)); [|discriminate].
        injection Hacc as <-. simpl. apply in_or_app. right. left. reflexivity. }
  apply rand_found_In in Hin. unfold Rand.access. rewrite Hin.
  eexists. split; reflexivity.
Qed.

Lemma lru_rehit memsize st a l1 l2 st' :
  (1 <= memsize)%N ->
  (exists l, lru_stack_inv (N.to_nat memsize) l st) ->
  Lru.access memsize st a l1 = Ok st' ->
  exists st'', Lru.access memsize st' a l2 = Ok st''
               /\ Lru.hits st'' = (Lru.hits st' + 1)%Z.
Proof.
  intros Hcap (l & Hinv) Hacc.
  destruct (lru_stack_access memsize l st a l1 Hinv) as (st1 & Hacc1 & Hinv1 & _).
  assert (st1 = st') by congruence. subst st1.
  destruct (lru_stack_access memsize (mru_touch a l) st' a l2 Hinv1)
    as (st2 & Hacc2 & _ & Hh).
  exists st2. split; [exact Hacc2|]. rewrite Hh.
  destruct (in_dec Z.eq_dec a (firstn (N.to_nat memsize) (mru_touch a l)))
    as [_|Hnin]; [reflexivity|].
  exfalso. apply Hnin. destruct (N.to_nat memsize) as [|k] eqn:Hk; [lia|].
  left. reflexivity.
Qed.

Lemma lru_stack_total memsize st a later :
  (exists l, lru_stack_inv (N.to_nat memsize) l st) ->
  exists st', Lru.access memsize st a later = Ok st'
              /\ exists l, lru_stack_inv (N.to_nat memsize) l st'.
Proof.
  intros (l & Hinv).
  destruct (lru_stack_access memsize l st a later Hinv) as (st' & Hacc & Hinv' & _).
  exists st'. split; [exact Hacc|]. exists (mru_touch a l). exact Hinv'.
Qed.
End Rehit.

(** X5.  With a capacity of at least 1, in every evaluator an access to
    the page of the access just before it is a hit: the page just accessed
    is always resident. *)
Theorem repeated_access_hits (H : Hashing) (E : RandomEngine) (p : policy)
    (now : Z) (w : list Z) (memsize : N) (seen : list Z) (a : Z)
    (later : list Z) :
  (1 <= memsize)%N ->
  w = seen ++ a :: a :: later ->
  exists h,
    hits_after p now w memsize (S (length seen)) = Ok h
    /\ hits_after p now w memsize (S (S (length seen))) = Ok (h + 1)%Z.
Proof.
  intros Hcap ->. destruct p; unfold hits_after.
  - apply (run_for_rehit Fifo.access Fifo.hits (fifo_inv memsize)).
    + intros st x l. apply fifo_access_total, Hcap.
    + intros st x l1 l2 st' _. apply fifo_rehit.
    + apply fifo_inv_init.
  - apply (run_for_rehit (Opt.access memsize) Opt.hits (opt_inv memsize)).
    + intros st x l. apply opt_access_total, Hcap.
    + intros st x l1 l2 st' _. apply opt_rehit.
    + apply opt_inv_init.
  - apply (run_for_rehit (Rand.access memsize) Rand.hits (rand_inv memsize)).
    + intros st x l. apply rand_access_total, Hcap.
    + intros st x l1 l2 st' _. apply rand_rehit.
    + apply rand_inv_init.
  - apply (run_for_rehit (Lru.access memsize) Lru.hits
             (fun st => exists l, lru_stack_inv (N.to_nat memsize) l st)).
    + intros st x l. apply lru_stack_total.
    + intros st x l1 l2 st'. apply lru_rehit, Hcap.
    + exists []. apply lru_stack_inv_init.
  - apply (run_for_rehit (Clock.access memsize) Clock.hits (clock_inv memsize)).
    + intros st x l. apply clock_access_total, Hcap.
    + intros st x l1 l2 st' _. apply clock_rehit.
    + apply clock_inv_init.
Qed.

Lemma repeated_access_hits_witness :
  exists h,
    @hits_after front_order minstd_rand0 RAND 0 [1; 2; 3; 3; 1]%Z 2 3 = Ok h
    /\ @hits_after front_order minstd_rand0 RAND 0 [1; 2; 3; 3; 1]%Z 2 4
       = Ok (h + 1)%Z.
Proof.
  apply (repeated_access_hits front_order minstd_rand0 RAND 0 [1; 2; 3; 3; 1]%Z 2
           [1; 2]%Z 3%Z [1]%Z).
  - lia.
  - reflexivity.
Defined.

(* ===================================================================== *)
(** * The forward scan of PRP_OPT *)
(* ===================================================================== *)

Lemma opt_narrow_idle (ahead cands : list Z) :
  ~ In 0%Z cands -> ~ In 1%Z cands -> Opt.narrow cands ahead = cands.
Proof.
  intros H0 H1. induction ahead as [|wj ahead IH]; simpl; [reflexivity|].
  destruct (1 <? length cands); [|reflexivity].
  assert (Hflag : (0 <? Opt.uset_count (Opt.positive_flag wj) cands) = false).
  { destruct (0 <? Opt.uset_count (Opt.positive_flag wj) cands) eqn:Hc;
      [|reflexivity].
    apply count_pos_In in Hc. unfold Opt.positive_flag in Hc.
    destruct (0 <? wj)%Z; contradiction. }
  rewrite Hflag. exact IH.
Qed.

(** X7.  The scan of [PRP_OPT] erases a candidate only while page 1 or
    page 0 is a candidate.  When neither is resident the scan leaves the
    candidates as they are, and the access does the same whatever accesses
    lie ahead. *)
Theorem opt_scan_idle_without_pages_0_1 (H : Hashing) (memsize : N)
    (st : Opt.state) (a : Z) :
  ~ In 0%Z (Opt.pages_in_mem st) ->
  ~ In 1%Z (Opt.pages_in_mem st) ->
  (forall ahead,
      Opt.narrow (ucopy (Opt.pages_in_mem st)) ahead
      = ucopy (Opt.pages_in_mem st))
  /\ forall later1 later2,
       Opt.access memsize st a later1 = Opt.access memsize st a later2.
Proof.
  intros H0 H1.
  assert (Hidle : forall ahead,
             Opt.narrow (ucopy (Opt.pages_in_mem st)) ahead
             = ucopy (Opt.pages_in_mem st)).
  { intros ahead. apply opt_narrow_idle; intros Hin;
      apply (Permutation_in _ (ucopy_perm _ _)) in Hin; contradiction. }
  split; [exact Hidle|].
  intros later1 later2. unfold Opt.access. rewrite !Hidle. reflexivity.
Qed.

Lemma opt_scan_idle_without_pages_0_1_witness :
  Opt.narrow (@ucopy front_order Z [2; 3]%Z) [4; 2; 3]%Z = @ucopy front_order Z [2; 3]%Z
  /\ @Opt.access front_order 2 (Opt.mk [2; 3]%Z 0) 4%Z [2; 3]%Z
     = @Opt.access front_order 2 (Opt.mk [2; 3]%Z 0) 4%Z [3; 2]%Z.
Proof.
  destruct (opt_scan_idle_without_pages_0_1 front_order 2 (Opt.mk [2; 3]%Z 0) 4%Z)
    as (Hidle & Hsame).
  - simpl. intuition discriminate.
  - simpl. intuition discriminate.
  - split; [apply (Hidle [4; 2; 3]%Z) | apply (Hsame [2; 3]%Z [3; 2]%Z)].
Defined.

(* ===================================================================== *)
(** * Capacity 1 *)
(* ===================================================================== *)

Lemma stack_hits_one (w : list Z) :
  forall l, stack_hits 1 l w = repeats_after (hd_error l) w.
Proof.
  induction w as [|a w IH]; intros l; [reflexivity|].
  cbn [stack_hits repeats_after]. rewrite IH. unfold mru_touch. cbn [hd_error].
  f_equal. destruct l as [|x l]; cbn [firstn hd_error].
  - destruct (in_dec Z.eq_dec a []) as [[]|_]. reflexivity.
  - destruct (in_dec Z.eq_dec a [x]) as [Hin|Hnin];
      destruct (Z.eqb_spec x a) as [Heq|Hne]; try reflexivity.
    + destruct Hin as [Heq|[]]. congruence.
    + exfalso. apply Hnin. left. exact Heq.
Qed.

Lemma queue_hits_one (w : list Z) :
  forall q, length q <= 1 -> queue_hits 1 q w = repeats_after (hd_error q) w.
Proof.
  induction w as [|a w IH]; intros q Hq; [reflexivity|].
  cbn [queue_hits repeats_after].
  destruct q as [|x [|y q]]; [| |simpl in Hq; lia]; cbn [hd_error].
  - destruct (in_dec Z.eq_dec a []) as [[]|_]. simpl. apply IH. simpl. lia.
  - destruct (in_dec Z.eq_dec a [x]) as [Hin|Hnin];
      destruct (Z.eqb_spec x a) as [Heq|Hne].
    + subst x. rewrite IH by (simpl; lia). reflexivity.
    + destruct Hin as [Heq|[]]. congruence.
    + exfalso. apply Hnin. left. exact Heq.
    + simpl. apply IH. simpl. lia.
Qed.

Definition single (prev : option Z) : list Z :=
  match prev with
  | None => []
  | Some x => [x]
  end.

Section CapacityOne.
Context {H : Hashing} {E : RandomEngine}.

Lemma uinsert_single (a : Z) : uinsert a [] = [a].
Proof.
  apply Permutation_length_1_inv, Permutation_sym, uinsert_perm.
Qed.

Lemma ucopy_single (x : Z) : ucopy [x] = [x].
Proof.
  apply Permutation_length_1_inv, Permutation_sym, ucopy_perm.
Qed.

Lemma opt_one_access prev h a later :
  Opt.access 1 (Opt.mk (single prev) h) a later
  = Ok (Opt.mk [a]
          (h + match prev with
               | Some x => if (x =? a)%Z then 1 else 0
               | None => 0
               end)).
Proof.
  destruct prev as [x|]; cbn [single].
  - destruct (Z.eqb_spec x a) as [->|Hne].
    + apply opt_access_hit. left. reflexivity.
    + unfold Opt.access. cbn [Opt.pages_in_mem Opt.hits].
      assert (Hmiss : (0 <? Opt.uset_count a [x]) = false).
      { destruct (0 <? Opt.uset_count a [x]) eqn:Hc; [|reflexivity].
        apply count_pos_In in Hc. destruct Hc as [Hc|[]]. congruence. }
      rewrite Hmiss, ucopy_single. simpl.
      destruct (Z.eq_dec x x) as [_|Hxx]; [|congruence].
      unfold Opt.uset_insert. simpl. rewrite uinsert_single, Z.add_0_r.
      reflexivity.
  - rewrite opt_access_room; [| simpl; tauto | simpl; lia].
    rewrite uinsert_single, Z.add_0_r. reflexivity.
Qed.

Lemma rand_one_access prev g h a later :
  exists g',
    Rand.access 1 (Rand.mk (single prev) g h) a later
    = Ok (Rand.mk [a] g'
            (h + match prev with
                 | Some x => if (x =? a)%Z then 1 else 0
                 | None => 0
                 end)).
Proof.
  destruct prev as [x|]; cbn [single]; unfold Rand.access; simpl.
  - rewrite Z.eqb_sym. destruct (Z.eqb_spec x a) as [->|Hne]; simpl.
    + eexists. reflexivity.
    + pose proof (uniform_int_range 0 0 g) as Hrange.
      destruct (uniform_int 0 0 g) as [index g']. simpl in Hrange.
      assert (index = 0%Z) by lia. subst index. simpl.
      rewrite Z.add_0_r. eexists. reflexivity.
  - rewrite Z.add_0_r. eexists. reflexivity.
Qed.

Lemma lru_one_result (w : list Z) : PRP_LRU w 1 = Ok (adjacent_repeats w).
Proof.
  rewrite lru_stack_result. unfold adjacent_repeats.
  change (N.to_nat 1) with 1. rewrite stack_hits_one. reflexivity.
Qed.
End CapacityOne.

Lemma clock_one_access prev b h a later :
  exists b',
    Clock.access 1
      (Clock.mk (match prev with None => [] | Some x => [(x, b)] end) h) a later
    = Ok (Clock.mk [(a, b')]
            (h + match prev with
                 | Some x => if (x =? a)%Z then 1 else 0
                 | None => 0
                 end)).
Proof.
  destruct prev as [x|]; unfold Clock.access; simpl.
  - destruct (Z.eqb_spec x a) as [->|Hne]; simpl.
    + eexists. reflexivity.
    + rewrite Z.add_0_r. destruct b; simpl; eexists; reflexivity.
  - rewrite Z.add_0_r. eexists. reflexivity.
Qed.

Section CapacityOneRuns.
Context {H : Hashing} {E : RandomEngine}.

Lemma opt_one_run (w : list Z) :
  forall prev h,
    omap Opt.hits (run (Opt.access 1) (Opt.mk (single prev) h) w)
    = Ok (h + repeats_after prev w)%Z.
Proof.
  induction w as [|a w IH]; intros prev h.
  - unfold run. simpl. rewrite Z.add_0_r. reflexivity.
  - rewrite run_cons, opt_one_access. cbn [bind].
    rewrite (IH (Some a)). cbn [repeats_after]. f_equal. lia.
Qed.

Lemma rand_one_run (w : list Z) :
  forall prev g h,
    omap Rand.hits (run (Rand.access 1) (Rand.mk (single prev) g h) w)
    = Ok (h + repeats_after prev w)%Z.
Proof.
  induction w as [|a w IH]; intros prev g h.
  - unfold run. simpl. rewrite Z.add_0_r. reflexivity.
  - destruct (rand_one_access prev g h a w) as (g' & Hacc).
    rewrite run_cons, Hacc. cbn [bind].
    rewrite (IH (Some a)). cbn [repeats_after]. f_equal. lia.
Qed.
End CapacityOneRuns.

Lemma clock_one_run (w : list Z) :
  forall prev b h,
    omap Clock.hits
      (run (Clock.access 1)
         (Clock.mk (match prev with None => [] | Some x => [(x, b)] end) h) w)
    = Ok (h + repeats_after prev w)%Z.
Proof.
  induction w as [|a w IH]; intros prev b h.
  - unfold run. simpl. rewrite Z.add_0_r. reflexivity.
  - destruct (clock_one_access prev b h a w) as (b' & Hacc).
    rewrite run_cons, Hacc. cbn [bind].
    rewrite (IH (Some a) b'). cbn [repeats_after]. f_equal. lia.
Qed.

(** X8.  With capacity 1 the five evaluators agree, whatever the
    iteration order and the random engine: each returns the number of
    accesses whose page is the page of the access just before (for
    [PRP_FIFO], on workloads without the page -1). *)
Theorem capacity_one_counts_repeats (H : Hashing) (E : RandomEngine)
    (p : policy) (now : Z) (w : list Z) :
  (p = FIFO -> ~ In INVALID_PAGE w) ->
  evaluate p now w 1 = Ok (adjacent_repeats w).
Proof.
  intros Hvalid. unfold adjacent_repeats. destruct p; simpl.
  - unfold PRP_FIFO.
    destruct (fifo_queue_run 1 w (Hvalid eq_refl) [] (Fifo.init 1))
      as (st & -> & Hh); [apply (fifo_queue_inv_init 1); lia|].
    simpl in *. rewrite Hh, queue_hits_one by (simpl; lia). reflexivity.
  - apply (opt_one_run w None 0%Z).
  - apply (rand_one_run w None (seed_engine now) 0%Z).
  - apply lru_one_result.
  - apply (clock_one_run w None true 0%Z).
Qed.

Lemma capacity_one_counts_repeats_witness :
  @evaluate front_order minstd_rand0 FIFO 0 [1; 1; 2; 2; 2; 1]%Z 1
  = Ok (adjacent_repeats [1; 1; 2; 2; 2; 1]%Z).
Proof.
  apply (capacity_one_counts_repeats front_order minstd_rand0 FIFO 0
           [1; 1; 2; 2; 2; 1]%Z).
  intros _. unfold INVALID_PAGE. simpl. intuition discriminate.
Defined.

(* ===================================================================== *)
(** * A scan repeated over more pages than the capacity *)
(* ===================================================================== *)

Lemma stack_hits_nonneg (w : list Z) :
  forall l c, (0 <= stack_hits c l w)%Z.
Proof.
  induction w as [|a w IH]; intros l c; simpl; [lia|].
  specialize (IH (mru_touch a l) c).
  destruct (in_dec Z.eq_dec a (firstn c l)); lia.
Qed.

Lemma mru_touch_last (init : list Z) (a : Z) :
  ~ In a init -> mru_touch a (init ++ [a]) = a :: init.
Proof.
  intros Hnin. unfold mru_touch. f_equal.
  rewrite remove_app, notin_remove by exact Hnin. simpl.
  destruct (Z.eq_dec a a); [apply app_nil_r | congruence].
Qed.

(** The first pass of a scan: every page is new. *)
Lemma scan_first_pass (c : nat) (w post : list Z) :
  forall pre,
    NoDup (pre ++ post) ->
    stack_hits c (rev pre) (post ++ w) = stack_hits c (rev (pre ++ post)) w.
Proof.
  induction post as [|a post IH]; intros pre Hnd.
  - rewrite app_nil_r. reflexivity.
  - assert (Hnin : ~ In a pre).
    { apply NoDup_remove_2 in Hnd. intros Hin. apply Hnd.
      apply in_or_app. left. exact Hin. }
    cbn [app stack_hits].
    destruct (in_dec Z.eq_dec a (firstn c (rev pre))) as [Hin|_].
    + exfalso. apply Hnin. apply in_rev. apply (firstn_In c _ a Hin).
    + unfold mru_touch. rewrite notin_remove by (rewrite <- in_rev; exact Hnin).
      replace (a :: rev pre) with (rev (pre ++ [a])) by (rewrite rev_app_distr; reflexivity).
      replace (pre ++ a :: post) with ((pre ++ [a]) ++ post) in *
        by (rewrite <- app_assoc; reflexivity).
      rewrite IH by exact Hnd. reflexivity.
Qed.

(** A later pass: the page accessed is the one used longest ago, behind
    all the others. *)
Lemma scan_next_pass (c : nat) (w post : list Z) :
  forall pre,
    NoDup (pre ++ post) -> c < length (pre ++ post) ->
    stack_hits c (rev pre ++ rev post) (post ++ w)
    = stack_hits c (rev (pre ++ post)) w.
Proof.
  induction post as [|a post IH]; intros pre Hnd Hlen.
  - simpl. rewrite !app_nil_r. reflexivity.
  - assert (Hnin : ~ In a (rev pre ++ rev post)).
    { apply NoDup_remove_2 in Hnd. intros Hin. apply Hnd.
      apply in_app_or in Hin as [Hin|Hin]; apply in_or_app;
        [left | right]; apply in_rev; exact Hin. }
    cbn [app stack_hits rev]. rewrite app_assoc.
    assert (Hshort : c <= length (rev pre ++ rev post)).
    { rewrite length_app, !length_rev. rewrite length_app in Hlen.
      simpl in Hlen. lia. }
    destruct (in_dec Z.eq_dec a (firstn c ((rev pre ++ rev post) ++ [a])))
      as [Hin|_].
    + exfalso. apply Hnin.
      rewrite firstn_app in Hin.
      replace (c - length (rev pre ++ rev post)) with 0 in Hin by lia.
      simpl in Hin. rewrite app_nil_r in Hin. apply (firstn_In c _ a Hin).
    + rewrite mru_touch_last by exact Hnin.
      replace (a :: rev pre ++ rev post) with (rev (pre ++ [a]) ++ rev post)
        by (rewrite rev_app_distr; reflexivity).
      replace (pre ++ a :: post) with ((pre ++ [a]) ++ post) in *
        by (rewrite <- app_assoc; reflexivity).
      rewrite IH by assumption. reflexivity.
Qed.

Lemma scan_later_passes (c : nat) (cyc : list Z) (r : nat) :
  NoDup cyc -> c < length cyc ->
  stack_hits c (rev cyc) (concat (repeat cyc r)) = 0%Z.
Proof.
  intros Hnd Hlen. induction r as [|r IH]; [reflexivity|].
  cbn [repeat concat].
  pose proof (scan_next_pass c (concat (repeat cyc r)) cyc [] Hnd Hlen) as Hpass.
  cbn [app rev] in Hpass. rewrite Hpass. exact IH.
Qed.

Lemma scan_all_passes (c : nat) (cyc : list Z) (r : nat) :
  NoDup cyc -> c < length cyc ->
  stack_hits c [] (concat (repeat cyc r)) = 0%Z.
Proof.
  intros Hnd Hlen. destruct r as [|r]; [reflexivity|].
  cbn [repeat concat].
  pose proof (scan_first_pass c (concat (repeat cyc r)) cyc [] Hnd) as Hpass.
  cbn [app rev] in Hpass. rewrite Hpass.
  apply scan_later_passes; assumption.
Qed.

Lemma firstn_succ_snoc {A : Type} (k : nat) (l : list A) :
  k < length l -> exists x, firstn (S k) l = firstn k l ++ [x].
Proof.
  revert l. induction k as [|k IH]; intros l Hlen.
  - destruct l as [|x l]; [simpl in Hlen; lia|]. exists x. reflexivity.
  - destruct l as [|y l]; [simpl in Hlen; lia|].
    destruct (IH l) as (x & Hx); [simpl in Hlen; lia|].
    exists x. change (y :: firstn (S k) l = y :: (firstn k l ++ [x])).
    rewrite Hx. reflexivity.
Qed.

(** While no access hits, the queue is the list of most recently used
    pages read backwards. *)
Lemma queue_follows_stack (k : nat) (w : list Z) :
  forall l q,
    NoDup l -> q = rev (firstn (S k) l) ->
    stack_hits (S k) l w = 0%Z -> queue_hits (S k) q w = 0%Z.
Proof.
  induction w as [|a w IH]; intros l q Hnd Hq Hzero; [reflexivity|].
  cbn [stack_hits] in Hzero. cbn [queue_hits].
  pose proof (stack_hits_nonneg w (mru_touch a l) (S k)) as Hpos.
  destruct (in_dec Z.eq_dec a (firstn (S k) l)) as [Hin|Hnin]; [lia|].
  destruct (in_dec Z.eq_dec a q) as [Hinq|_].
  - exfalso. apply Hnin. apply in_rev. rewrite <- Hq. exact Hinq.
  - apply (IH (mru_touch a l)); [apply mru_touch_NoDup, Hnd | | lia].
    rewrite mru_touch_firstn_miss by exact Hnin. cbn [rev].
    subst q. rewrite length_rev.
    destruct (Nat.ltb_spec (length (firstn (S k) l)) (S k)) as [Hshort|Hfull].
    + rewrite length_firstn in Hshort.
      rewrite !firstn_all2 by lia. reflexivity.
    + rewrite length_firstn in Hfull.
      destruct (firstn_succ_snoc k l) as (x & Hx); [lia|].
      rewrite Hx, rev_app_distr. reflexivity.
Qed.

(** X9.  On a scan of distinct pages repeated any number of times,
    [PRP_LRU] finds no hit when the capacity is below the number of pages
    scanned, and neither does [PRP_FIFO] (for a capacity of at least 1 and a
    scan without the page -1). *)
Theorem repeated_scan_never_hits (H : Hashing) (cyc : list Z) (r : nat)
    (memsize : N) :
  NoDup cyc ->
  (memsize < N.of_nat (length cyc))%N ->
  PRP_LRU (concat (repeat cyc r)) memsize = Ok 0%Z
  /\ ((1 <= memsize)%N -> ~ In INVALID_PAGE cyc ->
      PRP_FIFO (concat (repeat cyc r)) memsize = Ok 0%Z).
Proof.
  intros Hnd Hlen.
  assert (Hstack : stack_hits (N.to_nat memsize) [] (concat (repeat cyc r)) = 0%Z)
    by (apply scan_all_passes; [exact Hnd | lia]).
  split.
  - rewrite lru_stack_result, Hstack. reflexivity.
  - intros Hcap Hvalid. unfold PRP_FIFO.
    destruct (fifo_queue_run (N.to_nat memsize) (concat (repeat cyc r)))
      with (q := @nil Z) (st := Fifo.init memsize) as (st & -> & Hh).
    + intros Hin. apply in_concat in Hin as (x & Hx & Hin).
      apply repeat_spec in Hx. subst x. contradiction.
    + rewrite <- (N2Nat.id memsize) at 2. apply fifo_queue_inv_init. lia.
    + simpl in *. rewrite Hh. f_equal.
      destruct (N.to_nat memsize) as [|k] eqn:Hk; [lia|].
      apply (queue_follows_stack k _ []); [constructor | reflexivity | exact Hstack].
Qed.

Lemma repeated_scan_never_hits_witness :
  @PRP_LRU front_order (concat (repeat [0; 1; 2]%Z 2)) 2 = Ok 0%Z
  /\ PRP_FIFO (concat (repeat [0; 1; 2]%Z 2)) 2 = Ok 0%Z.
Proof.
  destruct (repeated_scan_never_hits front_order [0; 1; 2]%Z 2 2)
    as (Hlru & Hfifo).
  - repeat constructor; simpl; intuition discriminate.
  - simpl. lia.
  - split; [exact Hlru|]. apply Hfifo; [lia|].
    unfold INVALID_PAGE. simpl. intuition discriminate.
Defined.

(* ===================================================================== *)
(** * PRP_CLOCK gives a second chance *)
(* ===================================================================== *)

Lemma clock_sweep_nth (c : list Clock.ClockEntry) :
  (fst (Clock.sweep c) < length c ->
   exists q, nth_error c (fst (Clock.sweep c)) = Some (q, false))
  /\ forall i q b, nth_error c i = Some (q, b) ->
                   exists b', nth_error (snd (Clock.sweep c)) i = Some (q, b').
Proof.
  induction c as [|e c (IHstop & IHkeep)].
  - split; [simpl; lia|]. intros i q b Hnth. destruct i; discriminate.
  - simpl. destruct e as [p u]. destruct u; simpl.
    + destruct (Clock.sweep c) as [k r]. simpl in *. split.
      * intros Hk. apply IHstop. lia.
      * intros i q b Hnth. destruct i as [|i]; simpl in *.
        -- injection Hnth as <- <-. eauto.
        -- apply (IHkeep i q b Hnth).
    + split; [intros _; eauto|]. intros i q b Hnth. eauto.
Qed.

Lemma put_nth_other {A : Type} (j : nat) (x : A) :
  forall (l : list A) i,
    j < length l -> i <> j ->
    nth_error (firstn j l ++ x :: skipn (S j) l) i = nth_error l i.
Proof.
  induction j as [|j IH]; intros l i Hlen Hne;
    (destruct l as [|y l]; [simpl in Hlen; lia|]).
  - destruct i as [|i]; [lia | reflexivity].
  - destruct i as [|i]; [reflexivity|].
    change (nth_error (firstn j l ++ x :: skipn (S j) l) i = nth_error l i).
    apply IH; [simpl in Hlen; lia | lia].
Qed.

(** X10.  On a miss with a full cache, a resident page whose use bit is
    set and which is not the first entry is not the victim: it keeps its
    place in the buffer. *)
Theorem clock_second_chance (memsize : N) (st : Clock.state) (a : Z)
    (later : list Z) (i : nat) (p : Z) :
  ~ In a (map fst (Clock.cache st)) ->
  (memsize <= N.of_nat (length (Clock.cache st)))%N ->
  1 <= i ->
  nth_error (Clock.cache st) i = Some (p, true) ->
  exists st' b,
    Clock.access memsize st a later = Ok st'
    /\ nth_error (Clock.cache st') i = Some (p, b)
    /\ In a (map fst (Clock.cache st')).
Proof.
  intros Hmiss Hfull Hi Hnth.
  unfold Clock.access.
  apply clock_miss_test in Hmiss. apply N.ltb_ge in Hfull. rewrite Hmiss, Hfull.
  pose proof (clock_sweep_shape (Clock.cache st)) as (Hk & Hlen & _).
  pose proof (clock_sweep_nth (Clock.cache st)) as (Hstop & Hkeep).
  destruct (Clock.sweep (Clock.cache st)) as [hand swept]. simpl in *.
  destruct (Hkeep i p true Hnth) as (b & Hb).
  assert (Hilen : i < length (Clock.cache st))
    by (apply nth_error_Some; congruence).
  set (j := if hand =? length swept then 0 else hand).
  assert (Hj : j < length swept /\ i <> j).
  { unfold j. destruct (Nat.eqb_spec hand (length swept)) as [Heq|Hne].
    - split; lia.
    - split; [lia|]. intros <-.
      destruct Hstop as (q & Hq); [lia|]. congruence. }
  destruct Hj as (Hjlen & Hij).
  unfold Clock.replace_at. pose proof Hjlen as Hjlt.
  apply Nat.ltb_lt in Hjlen. rewrite Hjlen. cbn [bind].
  eexists. exists b. split; [reflexivity|]. cbn [Clock.cache]. split.
  - rewrite put_nth_other by assumption. exact Hb.
  - rewrite clock_put_keys. apply in_or_app. right. left. reflexivity.
Qed.

Lemma clock_second_chance_witness :
  exists st' b,
    Clock.access 3 (Clock.mk [(1, false); (2, true); (3, false)]%Z 0) 4%Z []
      = Ok st'
    /\ nth_error (Clock.cache st') 1 = Some (2%Z, b)
    /\ In 4%Z (map fst (Clock.cache st')).
Proof.
  apply (clock_second_chance 3
           (Clock.mk [(1, false); (2, true); (3, false)]%Z 0) 4%Z [] 1 2%Z).
  - simpl. intuition discriminate.
  - simpl. lia.
  - lia.
  - reflexivity.
Defined.

(* ===================================================================== *)
(** * The engine and the distribution of the library *)
(* ===================================================================== *)

Lemma minstd_next_valid (x : Z) :
  (1 <= x < minstd_modulus)%Z -> (1 <= minstd_next x < minstd_modulus)%Z.
Proof.
  intros Hx. unfold minstd_next.
  pose proof (Z.mod_pos_bound (16807 * x) minstd_modulus eq_refl) as Hmod.
  assert (Hnz : ((16807 * x) mod minstd_modulus <> 0)%Z).
  { intros Hz. apply Z.mod_divide in Hz; [|discriminate].
    apply Z.gauss in Hz; [|reflexivity].
    apply Z.divide_pos_le in Hz; lia. }
  lia.
Qed.

Lemma minstd_seed_valid (s : Z) : (1 <= minstd_seed s < minstd_modulus)%Z.
Proof.
  unfold minstd_seed.
  pose proof (Z.mod_pos_bound s minstd_modulus eq_refl) as Hmod.
  destruct (Z.eqb_spec (s mod minstd_modulus) 0); unfold minstd_modulus in *; lia.
Qed.

(** On a range of at most 16805 values and from an engine value that the
    engine can have, [minstd_draw] is the loop of the library: no bound of
    the definition acts. *)
Lemma minstd_draw_is_loop (a b x : Z) :
  (1 <= x < minstd_modulus)%Z ->
  (0 <= b - a <= 16804)%Z ->
  exists ret x',
    minstd_loop ((b - a + 1) * (minstd_range / (b - a + 1))) x (ret, x')
    /\ (0 <= ret < (b - a + 1) * (minstd_range / (b - a + 1)))%Z
    /\ minstd_draw a b x = ((a + ret / (minstd_range / (b - a + 1)))%Z, x').
Proof.
  intros Hx Hab. unfold minstd_draw.
  assert (Hnarrow : ((b - a <? 0) || (minstd_range <=? b - a))%Z = false).
  { apply orb_false_iff. split; [apply Z.ltb_ge | apply Z.leb_gt];
      unfold minstd_range; lia. }
  rewrite Hnarrow.
  set (uerange := (b - a + 1)%Z).
  set (scaling := (minstd_range / uerange)%Z).
  set (past := (uerange * scaling)%Z).
  assert (Hue : (1 <= uerange <= 16805)%Z) by (unfold uerange; lia).
  assert (Hpast : (minstd_range - uerange < past <= minstd_range)%Z).
  { unfold past, scaling.
    pose proof (Z.mul_div_le minstd_range uerange).
    pose proof (Z.mul_succ_div_gt minstd_range uerange). lia. }
  pose proof (minstd_next_valid x Hx) as Hx1.
  cbn [minstd_retry]. fold past.
  destruct (Z.ltb_spec (minstd_next x - 1) past) as [Hacc|Hrej].
  - exists (minstd_next x - 1)%Z, (minstd_next x). split; [constructor; exact Hacc|].
    split; [lia|]. rewrite Z.min_l, Z.max_r by lia. reflexivity.
  - pose proof (minstd_next_valid _ Hx1) as Hx2.
    assert (Hsecond : (minstd_next (minstd_next x) - 1 < past)%Z).
    { unfold minstd_range, minstd_modulus in *.
      set (x1 := minstd_next x) in *.
      assert (Hform : minstd_next x1 = (2147483647 - 16807 * (2147483647 - x1))%Z).
      { unfold minstd_next, minstd_modulus. symmetry.
        apply Z.mod_unique with 16806%Z; lia. }
      rewrite Hform. lia. }
    exists (minstd_next (minstd_next x) - 1)%Z, (minstd_next (minstd_next x)).
    split; [|split; [lia|]].
    + apply minstd_loop_again; [exact Hrej|]. constructor. exact Hsecond.
    + rewrite Z.min_l, Z.max_r by lia. reflexivity.
Qed.

(* ===================================================================== *)
(** * PRP_OPT where its scan misses the furthest next use *)
(* ===================================================================== *)

Section OptSlip.
Context {H : Hashing}.

Lemma opt_slip_5 pages h :
  Permutation pages [7; 0]%Z ->
  omap Opt.hits (run (Opt.access 2) (Opt.mk pages h) [0]%Z) = Ok (h + 1)%Z.
Proof.
  intros HP. rewrite run_cons, opt_access_hit; [reflexivity|].
  apply (Permutation_in _ (Permutation_sym HP)). right. left. reflexivity.
Qed.

Lemma opt_slip_4 pages h :
  Permutation pages [0; 5]%Z ->
  omap Opt.hits (run (Opt.access 2) (Opt.mk pages h) [7; 0]%Z) = Ok (h + 1)%Z.
Proof.
  intros HP. rewrite run_cons.
  destruct (opt_access_decisive pages h 7%Z [0]%Z 0%Z 5%Z HP)
    as (pages' & Hacc & HP'); try discriminate; try reflexivity.
  rewrite Hacc. cbn [bind]. apply opt_slip_5, HP'.
Qed.

Lemma opt_slip_3 pages h :
  Permutation pages [0; 7]%Z ->
  omap Opt.hits (run (Opt.access 2) (Opt.mk pages h) [5; 7; 0]%Z) = Ok (h + 1)%Z.
Proof.
  intros HP. rewrite run_cons.
  destruct (opt_access_decisive pages h 5%Z [7; 0]%Z 0%Z 7%Z HP)
    as (pages' & Hacc & HP'); try discriminate; try reflexivity.
  rewrite Hacc. cbn [bind]. apply opt_slip_4.
  apply Permutation_trans with [5; 0]%Z; [exact HP' | apply perm_swap].
Qed.

Lemma opt_slip_2 pages h :
  Permutation pages [0; 5]%Z ->
  omap Opt.hits (run (Opt.access 2) (Opt.mk pages h) [7; 5; 7; 0]%Z)
  = Ok (h + 1)%Z.
Proof.
  intros HP. rewrite run_cons.
  destruct (opt_access_decisive pages h 7%Z [5; 7; 0]%Z 0%Z 5%Z HP)
    as (pages' & Hacc & HP'); try discriminate; try reflexivity.
  rewrite Hacc. cbn [bind]. apply opt_slip_3.
  apply Permutation_trans with [7; 0]%Z; [exact HP' | apply perm_swap].
Qed.

Lemma opt_slip_run : PRP_OPT [0; 5; 7; 5; 7; 0]%Z 2 = Ok 1%Z.
Proof.
  unfold Opt.PRP_OPT, Opt.init.
  rewrite run_cons, opt_access_room; [|simpl; tauto | simpl; lia]. cbn [bind].
  rewrite run_cons, opt_access_room.
  - cbn [bind]. apply (opt_slip_2 _ 0%Z).
    apply Permutation_trans with (5 :: uinsert 0 [])%Z; [apply uinsert_perm|].
    apply Permutation_trans with [5; 0]%Z; [|apply perm_swap].
    apply perm_skip, uinsert_perm.
  - intros Hin. apply (Permutation_in _ (uinsert_perm _ 0%Z [])) in Hin.
    simpl in Hin. intuition discriminate.
  - rewrite (Permutation_length (uinsert_perm _ 0%Z [])). simpl. lia.
Qed.
End OptSlip.

(** C1 on the code.  Whatever the iteration order of the set, [PRP_OPT]
    returns 1 hit on [0,5,7,5,7,0] with capacity 2, where eviction by
    furthest next occurrence returns 2: on the miss of page 7 its scan
    drops page 0 and evicts page 5, the page used next.  On
    [1,2,3,1,2,4,1,2,3] with capacity 2 both return 2. *)
Theorem opt_misses_furthest_next_use (H : Hashing) :
  PRP_OPT [0; 5; 7; 5; 7; 0]%Z 2 = Ok 1%Z
  /\ BeladySpec.evaluate [0; 5; 7; 5; 7; 0]%Z 2 = Ok 2%Z
  /\ Opt.narrow [0; 5]%Z [7; 5; 7; 0]%Z = [5]%Z
  /\ Opt.narrow [5; 0]%Z [7; 5; 7; 0]%Z = [5]%Z
  /\ PRP_OPT [1; 2; 3; 1; 2; 4; 1; 2; 3]%Z 2 = Ok 2%Z
  /\ BeladySpec.evaluate [1; 2; 3; 1; 2; 4; 1; 2; 3]%Z 2 = Ok 2%Z.
Proof.
  split; [apply opt_slip_run|]. split; [reflexivity|].
  split; [reflexivity|]. split; [reflexivity|].
  split; [apply opt_scenario | reflexivity].
Qed.

(* ===================================================================== *)
(** * What the result of a call depends on *)
(* ===================================================================== *)

(** C7, as the evaluators have it.  The hit counts of [PRP_FIFO],
    [PRP_LRU] and [PRP_CLOCK] depend on the workload and the capacity
    alone: not on the clock, the random engine or the iteration order of
    the library's containers.  That of [PRP_OPT] depends on neither clock
    nor engine.  That of [PRP_RAND], whose engine is created in the call
    and seeded with the reading of the clock, is the same for two calls
    whose readings seed the engine alike, and the same for any two calls
    when the capacity is 1 or at least the number of distinct pages. *)
Theorem evaluators_replay (H1 H2 : Hashing) (E1 E2 : RandomEngine)
    (p : policy) (w : list Z) (memsize : N) (now1 now2 : Z) :
  (p = FIFO \/ p = LRU \/ p = CLOCK ->
   @evaluate H1 E1 p now1 w memsize = @evaluate H2 E2 p now2 w memsize)
  /\ (p = OPT ->
      @evaluate H1 E1 p now1 w memsize = @evaluate H1 E2 p now2 w memsize)
  /\ (p = RAND ->
      @seed_engine E1 now1 = @seed_engine E1 now2 ->
      @evaluate H1 E1 p now1 w memsize = @evaluate H2 E1 p now2 w memsize)
  /\ (p = RAND ->
      (N.of_nat (distinct w) <= memsize)%N \/ memsize = 1%N ->
      @evaluate H1 E1 p now1 w memsize = @evaluate H2 E2 p now2 w memsize).
Proof.
  split; [|split; [|split]].
  - intros [-> | [-> | ->]]; simpl; [reflexivity | | reflexivity].
    rewrite !lru_stack_result. reflexivity.
  - intros ->. reflexivity.
  - intros -> Hseed. simpl. unfold Rand.PRP_RAND, Rand.init.
    rewrite Hseed. reflexivity.
  - intros -> [Hcap | ->].
    + rewrite <- (@hits_after_all H1 E1 RAND now1 w memsize (length w)) by lia.
      rewrite <- (@hits_after_all H2 E2 RAND now2 w memsize (length w)) by lia.
      rewrite !np_hits_after by (try discriminate; exact Hcap). reflexivity.
    + simpl. unfold Rand.PRP_RAND, Rand.init.
      rewrite (@rand_one_run E1 w None), (@rand_one_run E2 w None). reflexivity.
Qed.

Lemma evaluators_replay_witness :
  @evaluate front_order minstd_rand0 LRU 3 [1; 2; 3; 1; 2; 3; 1; 2; 3]%Z 2
  = @evaluate back_order minstd_rand0 LRU 4 [1; 2; 3; 1; 2; 3; 1; 2; 3]%Z 2
  /\ @evaluate front_order minstd_rand0 OPT 3 [1; 2; 3; 1; 2; 3; 1; 2; 3]%Z 2
     = @evaluate front_order minstd_rand0 OPT 4 [1; 2; 3; 1; 2; 3; 1; 2; 3]%Z 2
  /\ @evaluate front_order minstd_rand0 RAND 1 [1; 2; 3; 1; 2; 3; 1; 2; 3]%Z 2
     = @evaluate back_order minstd_rand0 RAND 2147483648
         [1; 2; 3; 1; 2; 3; 1; 2; 3]%Z 2
  /\ @evaluate front_order minstd_rand0 RAND 3 [1; 2; 3; 1; 2; 3; 1; 2; 3]%Z 3
     = @evaluate back_order minstd_rand0 RAND 4 [1; 2; 3; 1; 2; 3; 1; 2; 3]%Z 3.
Proof.
  destruct (evaluators_replay front_order back_order minstd_rand0 minstd_rand0
              LRU [1; 2; 3; 1; 2; 3; 1; 2; 3]%Z 2 3%Z 4%Z) as (Hlru & _).
  destruct (evaluators_replay front_order back_order minstd_rand0 minstd_rand0
              OPT [1; 2; 3; 1; 2; 3; 1; 2; 3]%Z 2 3%Z 4%Z) as (_ & Hopt & _).
  destruct (evaluators_replay front_order back_order minstd_rand0 minstd_rand0
              RAND [1; 2; 3; 1; 2; 3; 1; 2; 3]%Z 2 1%Z 2147483648%Z)
    as (_ & _ & Hseed & _).
  destruct (evaluators_replay front_order back_order minstd_rand0 minstd_rand0
              RAND [1; 2; 3; 1; 2; 3; 1; 2; 3]%Z 3 3%Z 4%Z)
    as (_ & _ & _ & Hfree).
  split; [|split; [|split]].
  - apply Hlru. right. left. reflexivity.
  - apply Hopt. reflexivity.
  - apply Hseed; reflexivity.
  - apply Hfree; [reflexivity|]. left. vm_compute. discriminate.
Defined.

(** C7 fails for [PRP_RAND]: with the engine and the distribution of the
    library, the same workload and capacity give 2 hits when the clock
    reads 3 and no hit when it reads 4. *)
Lemma rand_clock_counterexample :
  @PRP_RAND minstd_rand0 3 [1; 2; 3; 1; 2; 3; 1; 2; 3]%Z 2 = Ok 2%Z
  /\ @PRP_RAND minstd_rand0 4 [1; 2; 3; 1; 2; 3; 1; 2; 3]%Z 2 = Ok 0%Z.
Proof. split; vm_compute; reflexivity. Qed.
